(** * graph-dag: a shallow embedding of the DAG-to-text renderer

    Model of [src/dag/context.rs], [src/dag/adapter.rs], [src/dag/mod.rs]
    and [src/screen.rs].

    Modelling conventions.
    - A Rust [char] is its Unicode scalar value, a [Z]; a [&str]/[String]
      is the list of its chars ([rstring]).
    - [usize] is [nat] and [i32] is [Z]; the values involved (indices,
      layers, coordinates, path costs) stay far from the wrap-around
      bounds, so the wrap-around is not written out.
    - A [HashSet<usize>] is a [gset nat].  Its iteration order comes from
      the randomly seeded hasher, so it is not a function the code fixes:
      every definition that iterates such a set takes the enumeration as
      the parameter [hs_iter], and the theorems hold for every enumeration
      that lists the elements of the set once each.
    - [Vec] indexing of the arenas ([nodes], [layers]) is total lookup
      [!!!]; the indices used are in range in every reachable state.
      The lookups that may panic in the source ([self.id[a]] on a missing
      name, out-of-range pixels of the screen) return [None]. *)

From Stdlib Require Import ZArith QArith Lia.
From Stdlib Require Import Classical_Prop.
From stdpp Require Import base list gmap sets finite.

Open Scope Z_scope.

(** ** Characters and strings *)

Abbreviation rstring := (list Z).

(** [char::is_whitespace]: the Unicode White_Space property. *)
Definition is_whitespace (c : Z) : bool :=
  ((9 <=? c) && (c <=? 13)) || (c =? 32) || (c =? 133) || (c =? 160)
  || (c =? 5760) || ((8192 <=? c) && (c <=? 8202)) || (c =? 8232)
  || (c =? 8233) || (c =? 8239) || (c =? 8287) || (c =? 12288).

Fixpoint trim_start (s : rstring) : rstring :=
  match s with
  | [] => []
  | c :: s' => if is_whitespace c then trim_start s' else s
  end.

(** [str::trim] *)
Definition trim (s : rstring) : rstring := reverse (trim_start (reverse (trim_start s))).

Fixpoint is_prefix (p s : rstring) : bool :=
  match p, s with
  | [], _ => true
  | c :: p', d :: s' => (c =? d) && is_prefix p' s'
  | _ :: _, [] => false
  end.

(** [str::split] with a (non-empty) string pattern: non-overlapping matches
    from left to right.  Every step consumes at least one char, so the fuel
    [length s] is never exhausted for a non-empty pattern. *)
Fixpoint split_go (pat : rstring) (fuel : nat) (s : rstring) : list rstring :=
  match fuel with
  | O => [s]
  | S f =>
    match s with
    | [] => [[]]
    | c :: s' =>
      if is_prefix pat s then [] :: split_go pat f (drop (length pat) s)
      else match split_go pat f s' with
           | p :: ps => (c :: p) :: ps
           | [] => [[c]]
           end
    end
  end.

Definition str_split (s pat : rstring) : list rstring := split_go pat (S (length s)) s.

(** [fn split(s, pat)] local to [Context::parse]:
    [s.split(pat).filter(|x| !x.is_empty()).collect()] *)
Definition split (s pat : rstring) : list rstring :=
  filter (fun x => x <> []) (str_split s pat).

Definition newline : rstring := [10].
Definition arrow : rstring := [45; 62].   (* "->" *)

(** ** Data model ([src/dag/mod.rs]) *)

Record Node := mkNode {
  upward : gset nat;
  downward : gset nat;
  is_connector : bool;
  padding : Z;
  layer : nat;
  row : nat;
  downward_closure : gset nat;
  upward_sorted : list nat;
  downward_sorted : list nat;
  width : Z;
  height : Z;
  x : Z;
  y : Z
}.

(** [Node::default()] *)
Definition node_default : Node :=
  mkNode ∅ ∅ false 0 0 0 ∅ [] [] 0 0 0 0.

#[global] Instance node_inhabited : Inhabited Node := populate node_default.

Definition set_upward (s : gset nat) (n : Node) : Node :=
  mkNode s (downward n) (is_connector n) (padding n) (layer n) (row n)
    (downward_closure n) (upward_sorted n) (downward_sorted n)
    (width n) (height n) (x n) (y n).
Definition set_downward (s : gset nat) (n : Node) : Node :=
  mkNode (upward n) s (is_connector n) (padding n) (layer n) (row n)
    (downward_closure n) (upward_sorted n) (downward_sorted n)
    (width n) (height n) (x n) (y n).
Definition set_layer (v : nat) (n : Node) : Node :=
  mkNode (upward n) (downward n) (is_connector n) (padding n) v (row n)
    (downward_closure n) (upward_sorted n) (downward_sorted n)
    (width n) (height n) (x n) (y n).
Definition set_row (v : nat) (n : Node) : Node :=
  mkNode (upward n) (downward n) (is_connector n) (padding n) (layer n) v
    (downward_closure n) (upward_sorted n) (downward_sorted n)
    (width n) (height n) (x n) (y n).
Definition set_downward_closure (s : gset nat) (n : Node) : Node :=
  mkNode (upward n) (downward n) (is_connector n) (padding n) (layer n) (row n)
    s (upward_sorted n) (downward_sorted n)
    (width n) (height n) (x n) (y n).
Definition set_sorted (us ds : list nat) (n : Node) : Node :=
  mkNode (upward n) (downward n) (is_connector n) (padding n) (layer n) (row n)
    (downward_closure n) us ds (width n) (height n) (x n) (y n).
Definition set_width (v : Z) (n : Node) : Node :=
  mkNode (upward n) (downward n) (is_connector n) (padding n) (layer n) (row n)
    (downward_closure n) (upward_sorted n) (downward_sorted n)
    v (height n) (x n) (y n).
Definition set_height (v : Z) (n : Node) : Node :=
  mkNode (upward n) (downward n) (is_connector n) (padding n) (layer n) (row n)
    (downward_closure n) (upward_sorted n) (downward_sorted n)
    (width n) v (x n) (y n).
Definition set_x (v : Z) (n : Node) : Node :=
  mkNode (upward n) (downward n) (is_connector n) (padding n) (layer n) (row n)
    (downward_closure n) (upward_sorted n) (downward_sorted n)
    (width n) (height n) v (y n).
Definition set_y (v : Z) (n : Node) : Node :=
  mkNode (upward n) (downward n) (is_connector n) (padding n) (layer n) (row n)
    (downward_closure n) (upward_sorted n) (downward_sorted n)
    (width n) (height n) (x n) v.

Record Edge := mkEdge { e_up : nat; e_down : nat; e_x : Z; e_y : Z }.

#[global] Instance edge_eq_dec : EqDecision Edge.
Proof. solve_decision. Defined.

(** [Adapter] of [src/dag/adapter.rs]; [HashSet<i32>] as [gset Z]. *)
Record Adapter := mkAdapter {
  enabled : bool;
  inputs : list (gset Z);
  outputs : list (gset Z);
  a_height : Z;
  a_y : Z;
  rendering : list (list Z)
}.

Definition adapter_default : Adapter := mkAdapter false [] [] 0 0 [].

Record Layer := mkLayer { l_nodes : list nat; l_edges : list Edge; l_adapter : Adapter }.

Definition layer_default : Layer := mkLayer [] [] adapter_default.
#[global] Instance layer_inhabited : Inhabited Layer := populate layer_default.

(** [Context] of [src/dag/context.rs]: [id : HashMap<String, usize>] as a
    [gmap]. *)
Record Context := mkContext {
  labels : list rstring;
  id : gmap rstring nat;
  nodes : list Node;
  layers : list Layer
}.

Definition context_default : Context := mkContext [] ∅ [] [].

Inductive ProcessingError := CycleFound.

Inductive result (A E : Type) := Ok (a : A) | Err (e : E).
Arguments Ok {A E} a.
Arguments Err {A E} e.

(** ** Graph registry *)

(** [Context::add_node] *)
Definition add_node (ctx : Context) (name : rstring) : Context :=
  match id ctx !! name with
  | Some _ => ctx
  | None =>
    let idx := length (nodes ctx) in
    mkContext (labels ctx ++ [name]) (<[name := idx]> (id ctx))
      (nodes ctx ++ [mkNode ∅ ∅ false 1 0 0 ∅ [] [] 0 0 0 0]) (layers ctx)
  end.

(** [n.downward.insert(v)], [n.downward.remove(&v)] and the same on
    [upward]. *)
Definition down_insert (v : nat) (n : Node) : Node := set_downward ({[v]} ∪ downward n) n.
Definition down_remove (v : nat) (n : Node) : Node := set_downward (downward n ∖ {[v]}) n.
Definition up_insert (v : nat) (n : Node) : Node := set_upward ({[v]} ∪ upward n) n.
Definition up_remove (v : nat) (n : Node) : Node := set_upward (upward n ∖ {[v]}) n.

(** [Context::add_vertex]; [self.id[a]] panics on a missing name. *)
Definition add_vertex (ctx : Context) (a b : rstring) : option Context :=
  match id ctx !! a, id ctx !! b with
  | Some ia, Some ib =>
    let ns := alter (down_insert ib) ia (nodes ctx) in
    let ns := alter (up_insert ia) ib ns in
    Some (mkContext (labels ctx) (id ctx) ns (layers ctx))
  | _, _ => None
  end.

(** [Context::add_connector] *)
Definition add_connector (ctx : Context) (a b : nat) : Context :=
  let c := length (nodes ctx) in
  let ns := nodes ctx ++ [mkNode ∅ ∅ true 0 (S (layer (nodes ctx !!! a))) 0 ∅ [] [] 0 0 0 0] in
  let ns := alter (down_remove b) a ns in
  let ns := alter (up_remove a) b ns in
  let ns := alter (down_insert c) a ns in
  let ns := alter (up_insert a) c ns in
  let ns := alter (down_insert b) c ns in
  let ns := alter (up_insert c) b ns in
  mkContext (labels ctx ++ [[99; 111; 110; 110; 101; 99; 116; 111; 114]]) (id ctx) ns (layers ctx).

(** [Context::is_empty] *)
Definition is_empty (ctx : Context) : bool :=
  match nodes ctx with [] => true | _ => false end.

(** One chain of [Context::parse]: [prev] is the previous name of the line. *)
Fixpoint parse_parts (ctx : Context) (prev : option rstring) (parts : list rstring)
  : option Context :=
  match parts with
  | [] => Some ctx
  | part :: parts' =>
    let name := trim part in
    if decide (name = []) then parse_parts ctx prev parts'
    else
      let ctx := add_node ctx name in
      match prev with
      | Some p => add_vertex ctx p name ≫= fun ctx => parse_parts ctx (Some name) parts'
      | None => parse_parts ctx (Some name) parts'
      end
  end.

Fixpoint parse_lines (ctx : Context) (lines : list rstring) : option Context :=
  match lines with
  | [] => Some ctx
  | line :: lines' =>
    let line := trim line in
    if decide (line = []) then parse_lines ctx lines'
    else parse_parts ctx None (split line arrow) ≫= fun ctx => parse_lines ctx lines'
  end.

(** [Context::parse] *)
Definition parse (ctx : Context) (input : rstring) : option Context :=
  parse_lines ctx (split input newline).

(** ** Helpers for the source's loops *)

(** A loop over a [Vec] whose body may panic. *)
Fixpoint foldlM {A B : Type} (f : A -> B -> option A) (a : A) (l : list B) : option A :=
  match l with
  | [] => Some a
  | b :: l' => f a b ≫= fun a' => foldlM f a' l'
  end.

(** The [i32] range [lo..hi]. *)
Definition zrange (lo hi : Z) : list Z :=
  map (fun k => lo + Z.of_nat k) (seq 0 (Z.to_nat (hi - lo))).

(** [slice::sort_by_key]: a stable sort; [lt] is the strict order on keys.
    An element is inserted after every element whose key is not greater. *)
Fixpoint insert_by {A : Type} (lt : A -> A -> bool) (v : A) (l : list A) : list A :=
  match l with
  | [] => [v]
  | u :: l' => if lt v u then v :: l else u :: insert_by lt v l'
  end.

Definition sort_by {A : Type} (lt : A -> A -> bool) (l : list A) : list A :=
  foldl (fun acc v => insert_by lt v acc) [] l.

(** A [loop] with no static bound whose body reports whether to go on:
    at most [2^k] passes are run, [None] if the loop is still going. *)
Fixpoint repeat_pow2 {A : Type} (k : nat) (body : A -> A * bool) (st : A) : A * bool :=
  match k with
  | O => body st
  | S k' =>
    let '(st', again) := repeat_pow2 k' body st in
    if again then repeat_pow2 k' body st' else (st', false)
  end.

Definition unbounded_loop {A : Type} (body : A -> A * bool) (st : A) : option A :=
  let '(st', again) := repeat_pow2 64 body st in
  if again then None else Some st'.

(** ** [f32] arithmetic

    An [f32] is the rational it denotes.  Every operation rounds its exact
    result to the nearest binary32 value, ties to even.  The values of this
    program (integer counts up to a few thousand, their quotients and
    squares) stay in the normal range, so neither overflow nor subnormals
    are written out. *)

(** [n / d] rounded half to even, for [0 <= n] and [0 < d]. *)
Definition round_half_even (n d : Z) : Z :=
  let q := n / d in
  let r := n mod d in
  match Z.compare (2 * r) d with
  | Lt => q
  | Gt => q + 1
  | Eq => if Z.even q then q else q + 1
  end.

Definition round32 (v : Q) : Q :=
  let n := Qnum v in
  let d := Zpos (Qden v) in
  if n =? 0 then 0%Q else
  let a := Z.abs n in
  let scaled e := if 0 <=? e then (a, d * 2 ^ e) else (a * 2 ^ (- e), d) in
  let e0 := Z.log2 a - Z.log2 d - 23 in
  let e := let '(p, q) := scaled e0 in if p / q <? 2 ^ 23 then e0 - 1 else e0 in
  let '(p, q) := scaled e in
  let m := Z.sgn n * round_half_even p q in
  if 0 <=? e then inject_Z (m * 2 ^ e) else Qmake m (Z.to_pos (2 ^ (- e))).

#[global] Instance Q_inhabited : Inhabited Q := populate 0%Q.

Definition f32_of_nat (n : nat) : Q := round32 (inject_Z (Z.of_nat n)).
Definition f32_add (a b : Q) : Q := round32 (a + b).
Definition f32_sub (a b : Q) : Q := round32 (a - b).
Definition f32_mul (a b : Q) : Q := round32 (a * b).
Definition f32_div (a b : Q) : Q := round32 (a / b).
Definition f32_lt (a b : Q) : bool := negb (Qle_bool b a).

(** The literals [0.01f32] and [15.0f32]. *)
Definition f32_0_01 : Q := round32 (1 # 100).
Definition f32_15 : Q := round32 15.

(** ** Layering *)

Section Model.

(** The enumeration order of a [HashSet<usize>] (see the header). *)
Variable hs_iter : gset nat -> list nat.

(** Inner loop of [Context::toposort] for vertex [a]. *)
Fixpoint topo_inner (a : nat) (bs : list nat) (ns : list Node) (changed : bool)
  : list Node * bool :=
  match bs with
  | [] => (ns, changed)
  | b :: bs' =>
    if (layer (ns !!! b) <=? layer (ns !!! a))%nat
    then topo_inner a bs' (alter (set_layer (S (layer (ns !!! a)))) b ns) true
    else topo_inner a bs' ns changed
  end.

(** Body of [for a in 0..self.nodes.len()] in [Context::toposort]: the
    inner loop runs over a clone of [self.nodes[a].downward]. *)
Definition topo_step (acc : list Node * bool) (a : nat) : list Node * bool :=
  topo_inner a (hs_iter (downward (acc.1 !!! a))) acc.1 acc.2.

Definition topo_pass_from (ns : list Node) (as_ : list nat) : list Node * bool :=
  foldl topo_step (ns, false) as_.

Definition topo_pass (ns : list Node) : list Node * bool :=
  topo_pass_from ns (seq 0 (length ns)).

(** The [while changed] loop of [Context::toposort]: [iter] counts the
    passes, [bound] is [self.nodes.len() * self.nodes.len()].  The source
    returns [CycleFound] after pass [bound + 1] at the latest, so the fuel
    [bound + 1 - iter] never runs out. *)
Fixpoint topo_loop (fuel iter bound : nat) (ns : list Node)
  : result (list Node) ProcessingError :=
  match fuel with
  | O => Err CycleFound
  | S f =>
    let '(ns', changed) := topo_pass ns in
    let iter' := S iter in
    if (bound <? iter')%nat then Err CycleFound
    else if changed then topo_loop f iter' bound ns' else Ok ns'
  end.

(** [Context::toposort] *)
Definition toposort (ctx : Context) : result Context ProcessingError :=
  let n := length (nodes ctx) in
  match topo_loop (S (n * n)) 0 (n * n) (nodes ctx) with
  | Ok ns => Ok (mkContext (labels ctx) (id ctx) ns (layers ctx))
  | Err e => Err e
  end.

(** ** Completion *)

(** Inner loop of [Context::complete] for vertex [a], over the collected
    [downs]: the first [b] with [layer_a + 1 != layer(b)] is spliced, then
    the loop breaks. *)
Fixpoint complete_inner (a layer_a : nat) (downs : list nat) (ctx : Context)
  : Context * bool :=
  match downs with
  | [] => (ctx, false)
  | b :: downs' =>
    if negb (S layer_a =? layer (nodes ctx !!! b))%nat
    then (add_connector ctx a b, true)
    else complete_inner a layer_a downs' ctx
  end.

Definition complete_step (acc : Context * bool) (a : nat) : Context * bool :=
  let ctx := acc.1 in
  let layer_a := layer (nodes ctx !!! a) in
  let '(ctx', again) := complete_inner a layer_a (hs_iter (downward (nodes ctx !!! a))) ctx in
  (ctx', acc.2 || again).

(** One pass of the [loop]: [0..self.nodes.len()] is evaluated once, so the
    connectors pushed during the pass are not visited by it. *)
Definition complete_pass (ctx : Context) : Context * bool :=
  foldl complete_step (ctx, false) (seq 0 (length (nodes ctx))).

Fixpoint complete_loop (fuel : nat) (ctx : Context) : option Context :=
  match fuel with
  | O => None
  | S f =>
    let '(ctx', again) := complete_pass ctx in
    if again then complete_loop f ctx' else Some ctx'
  end.

(** [Context::complete].  The [loop] has no static bound; it runs with the
    fuel [1 + span_excess], the total number of layers the edges skip, and
    [None] stands for a loop that has not finished. *)
Definition span_excess (ns : list Node) : nat :=
  sum_list (map (fun n => sum_list (map (fun b => layer (ns !!! b) - layer n - 1)%nat
    (elements (downward n)))) ns).

Definition complete (ctx : Context) : option Context :=
  complete_loop (S (span_excess (nodes ctx))) ctx.

(** ** Layers and row order *)

Definition set_l_nodes (v : list nat) (l : Layer) : Layer := mkLayer v (l_edges l) (l_adapter l).
Definition set_l_edges (v : list Edge) (l : Layer) : Layer := mkLayer (l_nodes l) v (l_adapter l).
Definition set_l_adapter (v : Adapter) (l : Layer) : Layer := mkLayer (l_nodes l) (l_edges l) v.

(** [Vec::resize_with(k, Default::default)] *)
Definition resize_layers (k : nat) (ls : list Layer) : list Layer :=
  take k ls ++ replicate (k - length ls)%nat layer_default.

(** Downward closures, from the next-to-last layer up. *)
Definition closure_of (ns : list Node) (up : nat) : gset nat :=
  foldl (fun cl d => (cl ∪ {[d]}) ∪ downward_closure (ns !!! d)) ∅
    (hs_iter (downward (ns !!! up))).

Definition closure_layer (ns : list Node) (ups : list nat) : list Node :=
  foldl (fun ns up => alter (set_downward_closure (closure_of ns up)) up ns) ns ups.

Definition closures (ns : list Node) (ls : list Layer) : list Node :=
  foldl (fun ns y => closure_layer ns (l_nodes (ls !!! y))) ns
    (reverse (seq 0 (length ls - 1)%nat)).

(** [parent_mean[i]] for the vertex [n]. *)
Definition parent_mean_of (ns : list Node) (n : nat) : Q :=
  let sum := sum_list (map (fun p => row (ns !!! p)) (hs_iter (upward (ns !!! n)))) in
  f32_div (f32_of_nat sum) (f32_add (f32_of_nat (size (upward (ns !!! n)))) f32_0_01).

(** [dist[a][b]]: the smallest layer distance from [na] to a common
    descendant, [big] if there is none. *)
Definition dist_of (ns : list Node) (big : nat) (na nb : Node) : nat :=
  foldl (fun best c =>
    if decide (c ∈ downward_closure nb) then Nat.min best (layer (ns !!! c) - layer na)%nat
    else best) big (hs_iter (downward_closure na)).

Definition score (w : nat) (dist : list (list nat)) (pm : list Q) (perm : list nat) : Q :=
  let s := foldl (fun s i => f32_add s (f32_of_nat ((dist !!! (perm !!! i)) !!! (perm !!! (S i)))))
    0%Q (seq 0 (w - 1)%nat) in
  foldl (fun s i =>
    let d := f32_sub (f32_of_nat i) (pm !!! (perm !!! i)) in
    f32_add s (f32_mul (f32_mul d d) f32_15)) s (seq 0 w).

(** [perm.swap(a, b)] *)
Definition swap (a b : nat) (perm : list nat) : list nat :=
  <[b := perm !!! a]> (<[a := perm !!! b]> perm).

(** One pass of the swap-improve search: [(perm, current, improved)]. *)
Definition swap_pass (w : nat) (sc : list nat -> Q) (st : list nat * Q) : (list nat * Q) * bool :=
  foldl (fun '((perm, current), improved) a =>
    foldl (fun '((perm, current), improved) b =>
      let perm' := swap a b perm in
      let ns := sc perm' in
      if f32_lt ns current then ((perm', ns), true) else ((perm, current), improved))
      ((perm, current), improved) (seq (S a) (w - S a)%nat))
    (st, false) (seq 0 w).


(** [for (i, &n) in layer.nodes.iter().enumerate() { self.nodes[n].row = i }] *)
Fixpoint set_rows (i : nat) (l : list nat) (ns : list Node) : list Node :=
  match l with
  | [] => ns
  | n :: l' => set_rows (S i) l' (alter (set_row i) n ns)
  end.

(** The body of [for layer in &mut self.layers] in
    [Context::optimize_row_order].  The swap-improve [loop] has no static
    bound ([unbounded_loop]). *)
Definition optimize_layer (ns : list Node) (l : Layer) : option (list Node * Layer) :=
  let w := length (l_nodes l) in
  if (w <=? 1)%nat then Some (ns, l) else
  let pm := map (parent_mean_of ns) (l_nodes l) in
  let big := (length ns * 2)%nat in
  let dist := map (fun a => map (fun b =>
      dist_of ns big (ns !!! (l_nodes l !!! a)) (ns !!! (l_nodes l !!! b)))
    (seq 0 w)) (seq 0 w) in
  let sc := score w dist pm in
  let perm := seq 0 w in
  unbounded_loop (swap_pass w sc) (perm, sc perm) ≫= fun '(perm, _) =>
  let new_nodes := map (fun i => l_nodes l !!! i) perm in
  Some (set_rows 0 new_nodes ns, set_l_nodes new_nodes l).

Fixpoint optimize_layers (ns : list Node) (ls : list Layer) : option (list Node * list Layer) :=
  match ls with
  | [] => Some (ns, [])
  | l :: ls' =>
    optimize_layer ns l ≫= fun '(ns', l') =>
    optimize_layers ns' ls' ≫= fun '(ns'', ls'') => Some (ns'', l' :: ls'')
  end.

(** [Context::optimize_row_order] *)
Definition optimize_row_order (ctx : Context) : option Context :=
  let ns := closures (nodes ctx) (layers ctx) in
  optimize_layers ns (layers ctx) ≫= fun '(ns, ls) =>
  Some (mkContext (labels ctx) (id ctx) ns ls).

(** [for (i, n) in self.nodes.iter().enumerate() { self.layers[n.layer].nodes.push(i) }] *)
Fixpoint push_nodes (i : nat) (ns : list Node) (ls : list Layer) : list Layer :=
  match ns with
  | [] => ls
  | n :: ns' => push_nodes (S i) ns' (alter (fun l => set_l_nodes (l_nodes l ++ [i]) l) (layer n) ls)
  end.

(** [Context::build_layers] *)
Definition build_layers (ctx : Context) : option Context :=
  let last_layer := foldr (fun n m => Nat.max (layer n) m) 0%nat (nodes ctx) in
  let ls := resize_layers (S last_layer) (layers ctx) in
  let ls := push_nodes 0 (nodes ctx) ls in
  optimize_row_order (mkContext (labels ctx) (id ctx) (nodes ctx) ls) ≫= fun ctx =>
  let rows := map row (nodes ctx) in
  let by_row u v := (rows !!! u <? rows !!! v)%nat in
  let ns := map (fun n => set_sorted (sort_by by_row (hs_iter (upward n)))
                                     (sort_by by_row (hs_iter (downward n))) n) (nodes ctx) in
  let ls := map (fun l => set_l_edges (l_edges l ++
      concat (map (fun up => map (fun down => mkEdge up down 0 0) (downward_sorted (ns !!! up)))
        (l_nodes l))) l) (layers ctx) in
  Some (mkContext (labels ctx) (id ctx) ns ls).

(** ** Crossings *)

Definition set_enabled (v : bool) (a : Adapter) : Adapter :=
  mkAdapter v (inputs a) (outputs a) (a_height a) (a_y a) (rendering a).

(** The order of the keys [(usize, usize)]: lexicographic. *)
Definition lex_lt (a b : nat * nat) : bool :=
  (a.1 <? b.1)%nat || ((a.1 =? b.1)%nat && (a.2 <? b.2)%nat).

(** The body of [for layer in &mut self.layers] in
    [Context::resolve_crossings]. *)
Definition resolve_layer (ns : list Node) (l : Layer) : Layer :=
  let key_up e := (row (ns !!! e_up e), row (ns !!! e_down e)) in
  let key_down e := (row (ns !!! e_down e), row (ns !!! e_up e)) in
  let up := sort_by (fun e f => lex_lt (key_up e) (key_up f)) (l_edges l) in
  let down := sort_by (fun e f => lex_lt (key_down e) (key_down f)) (l_edges l) in
  if decide (up = down) then l
  else mkLayer (l_nodes l) [] (set_enabled true (l_adapter l)).

(** [Context::resolve_crossings] *)
Definition resolve_crossings (ctx : Context) : Context :=
  mkContext (labels ctx) (id ctx) (nodes ctx) (map (resolve_layer (nodes ctx)) (layers ctx)).

(** ** Bus router ([src/dag/adapter.rs])

    The router's arenas ([nodes], [edges]) are indexed through
    [Coordinator::index] with [x < width], [y < height] and a layer below
    2 resp. 3, so every index is in range and the lookups are total. *)

Definition BIG : Z := 2 ^ 15.

Record RNode := mkRNode { visited : bool; cost : Z; r_edges : list nat }.
Record REdge := mkREdge { ea : nat; eb : nat; weight : Z; assigned : Z }.

Definition rnode_default : RNode := mkRNode false 0 [].
Definition redge_default : REdge := mkREdge 0 0 0 0.
#[global] Instance rnode_inhabited : Inhabited RNode := populate rnode_default.
#[global] Instance redge_inhabited : Inhabited REdge := populate redge_default.

Definition set_weight (v : Z) (e : REdge) : REdge := mkREdge (ea e) (eb e) v (assigned e).
Definition set_assigned (v : Z) (e : REdge) : REdge := mkREdge (ea e) (eb e) (weight e) v.
Definition push_edge (i : nat) (n : RNode) : RNode := mkRNode (visited n) (cost n) (r_edges n ++ [i]).

(** [Coordinator::index] *)
Definition index (width height x y l : nat) : nat := (x + width * (y + height * l))%nat.

(** [connect] *)
Definition connect (idx a b : nat) (w : Z) (g : list RNode * list REdge) : list RNode * list REdge :=
  let '(ns, es) := g in
  let es := alter (fun e => mkREdge a b w (assigned e)) idx es in
  let ns := alter (push_edge idx) a ns in
  let ns := alter (push_edge idx) b ns in
  (ns, es).

(** The body of the graph-building loop of [Adapter::construct] at [(x, y)]. *)
Definition build_cell (width height : nat) (g : list RNode * list REdge) (x y : nat)
  : list RNode * list REdge :=
  let ix := index width height in
  let g := if negb (y =? height - 1)%nat
    then connect (ix x y 0%nat) (ix x y 0%nat) (ix x (S y) 0%nat) 1 g else g in
  let g := if (1 <=? y)%nat && (y <=? height - 3)%nat && negb (x =? width - 1)%nat
    then connect (ix x y 1%nat) (ix x y 1%nat) (ix (S x) y 1%nat) 1 g else g in
  let dy := Z.quot (Z.of_nat height) 2 - Z.of_nat y in
  connect (ix x y 2%nat) (ix x y 0%nat) (ix x y 1%nat) (10 + dy * dy) g.

Definition build_graph (width height : nat) : list RNode * list REdge :=
  foldl (fun g y => foldl (fun g x => build_cell width height g x y) g (seq 0 width))
    (replicate (width * height * 2) rnode_default, replicate (width * height * 3) redge_default)
    (seq 0 height).

(** [BinaryHeap<(Reverse<i32>, usize)>]: the heap is the multiset of its
    entries; [pop] removes a greatest entry, i.e. one of least cost and,
    among those, of greatest index. *)
Definition pq_gt (a b : Z * nat) : bool := (a.1 <? b.1) || ((a.1 =? b.1) && (b.2 <? a.2)%nat).

Fixpoint remove_one (v : Z * nat) (l : list (Z * nat)) : list (Z * nat) :=
  match l with
  | [] => []
  | u :: l' => if decide (u = v) then l' else u :: remove_one v l'
  end.

Definition pq_pop (pq : list (Z * nat)) : option ((Z * nat) * list (Z * nat)) :=
  match pq with
  | [] => None
  | p :: pq' =>
    let m := foldl (fun m q => if pq_gt q m then q else m) p pq' in
    Some (m, remove_one m pq)
  end.

(** The relaxation of the edge [ei] from the node [v] popped at [cost]. *)
Definition relax (rn : list RNode) (re : list REdge) (v : nat) (c : Z)
  (pq : list (Z * nat)) (ei : nat) : list (Z * nat) :=
  let e := re !!! ei in
  if negb (assigned e =? 0) then pq else
  let u := if (ea e =? v)%nat then eb e else ea e in
  if visited (rn !!! u) then pq else (c + weight e, u) :: pq.

(** The [while let Some(..) = pq.pop()] loop. *)
Fixpoint dijkstra (fuel : nat) (re : list REdge) (rn : list RNode) (pq : list (Z * nat))
  : option (list RNode) :=
  match fuel with
  | O => None
  | S f =>
    match pq_pop pq with
    | None => Some rn
    | Some ((c, v), pq') =>
      if visited (rn !!! v) then dijkstra f re rn pq'
      else
        let rn := alter (fun n => mkRNode true c (r_edges n)) v rn in
        dijkstra f re rn (foldl (relax rn re v c) pq' (r_edges (rn !!! v)))
    end
  end.

(** Every pop either drops an entry or visits a node and pushes at most its
    degree: [1 + nodes * (1 + degree) + entries] pops suffice. *)
Definition max_degree (rn : list RNode) : nat :=
  foldr (fun n m => Nat.max (length (r_edges n)) m) 0%nat rn.

Definition dijkstra_fuel (rn : list RNode) (pq : list (Z * nat)) : nat :=
  S (length rn * S (max_degree rn) + length pq).

(** [pick the cheapest target] over the enumeration of [end]. *)
Definition pick (rn : list RNode) (ends : list nat) : option nat :=
  snd (foldl (fun '(best, cur) e =>
    if cost (rn !!! e) <? best then (cost (rn !!! e), Some e) else (best, cur)) (BIG, None) ends).

(** The inner [for] of the back-trace: the first edge of [cur] whose other
    end [prev] has [cost(prev) + weight = cost(cur)]. *)
Fixpoint find_pred (rn : list RNode) (re : list REdge) (cur : nat) (eis : list nat)
  : option (nat * nat) :=
  match eis with
  | [] => None
  | ei :: eis' =>
    let e := re !!! ei in
    let prev := if (cur =? ea e)%nat then eb e else ea e in
    if cost (rn !!! prev) + weight e =? cost (rn !!! cur) then Some (ei, prev)
    else find_pred rn re cur eis'
  end.

(** The back-trace [while !start.contains(&cur)].  When no edge matches,
    [cur] does not change and the source loops forever: [None].  The fuel
    is [1 + cost(cur)] (see [construct_route]). *)
Fixpoint backtrace (fuel : nat) (rn : list RNode) (start : gset nat) (connector : Z)
  (cur : nat) (re : list REdge) : option (list REdge) :=
  match fuel with
  | O => None
  | S f =>
    if decide (cur ∈ start) then Some re else
    match find_pred rn re cur (r_edges (rn !!! cur)) with
    | None => None
    | Some (ei, prev) => backtrace f rn start connector prev (alter (set_assigned connector) ei re)
    end
  end.

(** [penalise perpendicular crossings] *)
Definition penalise (width height : nat) (re : list REdge) : list REdge :=
  foldl (fun re y => foldl (fun re x =>
    let e0 := index width height x y 0 in
    let e1 := index width height x y 1 in
    let re := if negb (assigned (re !!! e0) =? 0) then alter (set_weight 20) e1 re else re in
    if negb (assigned (re !!! e1) =? 0) then alter (set_weight 20) e0 re else re)
    re (seq 0 width)) re (seq 0 height).

(** The [start]/[end] sets of a connector; [self.outputs[x]] panics when
    [outputs] is shorter than [inputs]. *)
Definition start_end (a : Adapter) (width height : nat) (connector : Z)
  : option (gset nat * gset nat) :=
  foldlM (fun '(st, en) x =>
    outputs a !! x ≫= fun (o : gset Z) =>
    let st := if decide (connector ∈ inputs a !!! x) then {[index width height x 0 0]} ∪ st else st in
    let en := if decide (connector ∈ o) then {[index width height x (height - 1) 0]} ∪ en else en in
    Some (st, en)) (∅, ∅) (seq 0 width).

(** One iteration of [for connector in 1..=connector_len]: the new edges
    and whether a target was reached ([false] is the [break]). *)
Definition construct_route (a : Adapter) (width height : nat) (rn : list RNode)
  (re : list REdge) (connector : Z) : option (list REdge * bool) :=
  let rn := map (fun n => mkRNode false BIG (r_edges n)) rn in
  start_end a width height connector ≫= fun '(start, ends) =>
  let pq := map (fun s => (0, s)) (hs_iter start) in
  dijkstra (dijkstra_fuel rn pq) re rn pq ≫= fun rn =>
  match pick rn (hs_iter ends) with
  | None => Some (re, false)
  | Some cur =>
    backtrace (S (Z.to_nat (cost (rn !!! cur)))) rn start connector cur re ≫= fun re =>
    Some (penalise width height re, true)
  end.

Fixpoint route_all (a : Adapter) (width height : nat) (rn : list RNode)
  (cs : list Z) (re : list REdge) : option (list REdge * bool) :=
  match cs with
  | [] => Some (re, true)
  | c :: cs' =>
    match construct_route a width height rn re c with
    | None => None
    | Some (re, true) => route_all a width height rn cs' re
    | Some (re, false) => Some (re, false)
    end
  end.

(** [Adapter::highest_connector_id]; the maximum does not depend on the
    enumeration of the [HashSet<i32>]. *)
Definition highest_connector_id (a : Adapter) (width : nat) : Z :=
  foldl (fun m x => set_fold Z.max m (inputs a !!! x)) 0 (seq 0 width).

(** [build character raster] *)
Definition raster (width height : nat) (re : list REdge) : list (list Z) :=
  map (fun y => map (fun x =>
    let asg l := negb (assigned (re !!! index width height x y l) =? 0) in
    let v := 32 in
    let v := if asg 1%nat then 9472 else v in
    let v := if asg 0%nat then 9474 else v in
    if asg 2%nat then
      (if asg 0%nat then (if asg 1%nat then 9484 else 9488)
       else (if asg 1%nat then 9492 else 9496))
    else v) (seq 0 width)) (seq 0 height).

(** The height search of [Adapter::construct], from [height].  A height
    above 30 is accepted whatever the routing found, so 29 rounds (heights
    3 to 31) always end it; [None] would be a round 30. *)
Fixpoint construct_loop (a : Adapter) (width : nat) (connector_len : Z) (fuel height : nat)
  : option (nat * list REdge) :=
  match fuel with
  | O => None
  | S f =>
    let '(rn, re) := build_graph width height in
    route_all a width height rn (zrange 1 (connector_len + 1)) re ≫= fun rf =>
    let '(re, found) := rf in
    let found := found || (30 <? height)%nat in
    if found then Some (height, re) else construct_loop a width connector_len f (S height)
  end.

(** [Adapter::construct] *)
Definition construct (a : Adapter) : option Adapter :=
  let width := length (inputs a) in
  let connector_len := highest_connector_id a width in
  construct_loop a width connector_len 29 3 ≫= fun hr =>
  let '(height, re) := hr in
  Some (mkAdapter (enabled a) (inputs a) (outputs a) (Z.of_nat height) (a_y a)
    (raster width height re)).

(** ** Layout *)

(** [while width - chars < 2 { width += 1 }]; [width >= chars] on entry,
    so two rounds suffice. *)
Fixpoint margin_loop (fuel : nat) (chars w : Z) : Z :=
  match fuel with
  | O => w
  | S f => if w - chars <? 2 then margin_loop f chars (w + 1) else w
  end.

(** The sizing loop at the head of [Context::layout], for vertex [i]. *)
Definition node_size (ctx : Context) (i : nat) (n : Node) : Node :=
  let n :=
    if is_connector n then set_width 1 n else
    let chars := Z.of_nat (length (labels ctx !!! i)) in
    let w := chars in
    let w := Z.max w (Z.of_nat (size (upward n))) in
    let w := Z.max w (Z.of_nat (size (downward n))) in
    let w := margin_loop 2 chars w in
    let w := if negb (Z.rem w 2 =? Z.rem chars 2) then w + 1 else w in
    set_width (w + 2) n in
  set_height 3 n.

Definition touch_step (acc : list Node * bool * Z) (n : nat) : list Node * bool * Z :=
  let '(ns, stable, xx) := acc in
  let '(ns, stable) := if x (ns !!! n) <? xx then (alter (set_x xx) n ns, false) else (ns, stable) in
  (ns, stable, x (ns !!! n) + width (ns !!! n)).

(** [Context::layout_nodes_do_not_touch] *)
Definition layout_nodes_do_not_touch (ns : list Node) (ls : list Layer) : list Node * bool :=
  foldl (fun '(ns, stable) l =>
    let '(ns, stable, _) := foldl touch_step (ns, stable, 0) (l_nodes l) in (ns, stable))
    (ns, true) ls.

(** [Context::layout_edges_do_not_touch] *)
Definition layout_edges_do_not_touch (ns : list Node) (ls : list Layer) : list Node * bool :=
  layout_nodes_do_not_touch ns ls.

Definition grow_one (ns : list Node) (e : Edge) (ni : nat) : option (list Node) :=
  let nd := ns !!! ni in
  if (x nd + width nd - 1 - 1 <? e_x e) && negb (is_connector nd) then
    let parity := Z.rem (width nd) 2 in
    let w := e_x e + 1 + 1 - x nd in
    let w := if negb (parity =? Z.rem w 2) then w + 1 else w in
    Some (alter (set_width w) ni ns)
  else None.

Fixpoint grow_edges (ns : list Node) (es : list Edge) : option (list Node) :=
  match es with
  | [] => None
  | e :: es' =>
    match grow_one ns e (e_up e) with
    | Some ns' => Some ns'
    | None =>
      match grow_one ns e (e_down e) with
      | Some ns' => Some ns'
      | None => grow_edges ns es'
      end
    end
  end.

(** [Context::layout_grow_nodes]: returns after the first change. *)
Definition layout_grow_nodes (ns : list Node) (ls : list Layer) : list Node * bool :=
  match grow_edges ns (concat (map l_edges ls)) with
  | Some ns' => (ns', false)
  | None => (ns, true)
  end.

Fixpoint shift_edges_in (ns : list Node) (es : list Edge) : option (list Edge) :=
  match es with
  | [] => None
  | e :: es' =>
    let minx := Z.max (x (ns !!! e_up e) + padding (ns !!! e_up e))
                      (x (ns !!! e_down e) + padding (ns !!! e_down e)) in
    if e_x e <? minx then Some (mkEdge (e_up e) (e_down e) minx (e_y e) :: es')
    else shift_edges_in ns es' ≫= fun es'' => Some (e :: es'')
  end.

Fixpoint shift_edges_layers (ns : list Node) (ls : list Layer) : option (list Layer) :=
  match ls with
  | [] => None
  | l :: ls' =>
    match shift_edges_in ns (l_edges l) with
    | Some es => Some (set_l_edges es l :: ls')
    | None => shift_edges_layers ns ls' ≫= fun ls'' => Some (l :: ls'')
    end
  end.

(** [Context::layout_shift_edges]: returns after the first change. *)
Definition layout_shift_edges (ns : list Node) (ls : list Layer) : list Layer * bool :=
  match shift_edges_layers ns ls with
  | Some ls' => (ls', false)
  | None => (ls, true)
  end.

(** [minx] of connector [i]; a connector's layer is at least 1. *)
Definition connector_minx (ns : list Node) (ls : list Layer) (i : nat) : Z :=
  let lay := layer (ns !!! i) in
  let m := foldl (fun m e => if (e_down e =? i)%nat then Z.max m (e_x e) else m) 0
    (l_edges (ls !!! (lay - 1)%nat)) in
  foldl (fun m e => if (e_up e =? i)%nat then Z.max m (e_x e) else m) m (l_edges (ls !!! lay)).

Fixpoint shift_connectors (ns : list Node) (ls : list Layer) (is : list nat) : option (list Node) :=
  match is with
  | [] => None
  | i :: is' =>
    if negb (is_connector (ns !!! i)) then shift_connectors ns ls is' else
    let minx := connector_minx ns ls i in
    if x (ns !!! i) <? minx then Some (alter (set_x minx) i ns)
    else shift_connectors ns ls is'
  end.

(** [Context::layout_shift_connector_nodes]: returns after the first change. *)
Definition layout_shift_connector_nodes (ns : list Node) (ls : list Layer) : list Node * bool :=
  match shift_connectors ns ls (seq 0 (length ns)) with
  | Some ns' => (ns', false)
  | None => (ns, true)
  end.

(** One round of the relaxation: the five passes joined by [&&], which
    stops at the first pass reporting a change. *)
Definition layout_step (st : list Node * list Layer) : (list Node * list Layer) * bool :=
  let '(ns, ls) := st in
  let '(ns, b) := layout_nodes_do_not_touch ns ls in
  if negb b then ((ns, ls), false) else
  let '(ns, b) := layout_edges_do_not_touch ns ls in
  if negb b then ((ns, ls), false) else
  let '(ns, b) := layout_grow_nodes ns ls in
  if negb b then ((ns, ls), false) else
  let '(ls, b) := layout_shift_edges ns ls in
  if negb b then ((ns, ls), false) else
  let '(ns, b) := layout_shift_connector_nodes ns ls in
  ((ns, ls), b).

(** [for _ in 0..k { if <all five passes> { break } }] *)
Fixpoint layout_relax (k : nat) (st : list Node * list Layer) : list Node * list Layer :=
  match k with
  | O => st
  | S k' =>
    let '(st', stable) := layout_step st in
    if stable then st' else layout_relax k' st'
  end.

(** [get_id] over [(id_map, next_id)]. *)
Definition get_id (m : gmap (nat * nat) Z * Z) (a b : nat) : Z * (gmap (nat * nat) Z * Z) :=
  let '(idm, next_id) := m in
  match idm !! (a, b) with
  | Some i => (i, m)
  | None => (next_id, (<[(a, b) := next_id]> idm, next_id + 1))
  end.

(** [inputs[x as usize].insert(i)]: a negative [x] wraps to a huge index;
    an index out of range panics. *)
Definition insert_at (v : list (gset Z)) (xx i : Z) : option (list (gset Z)) :=
  if (0 <=? xx) && (Z.to_nat xx <? length v)%nat
  then Some (alter (fun s => {[i]} ∪ s) (Z.to_nat xx) v) else None.

(** The [inputs] loop ([down = false]) and the [outputs] loop
    ([down = true]) of [Context::layout]. *)
Definition fill_ports (down : bool) (ns : list Node) (vs : list nat)
  (st : list (gset Z) * (gmap (nat * nat) Z * Z)) : option (list (gset Z) * (gmap (nat * nat) Z * Z)) :=
  foldlM (fun st v =>
    let n := ns !!! v in
    foldlM (fun st xx =>
      foldlM (fun st o =>
        let '(ports, m) := st in
        let '(i, m) := if down then get_id m o v else get_id m v o in
        insert_at ports xx i ≫= fun ports => Some (ports, m))
        st (hs_iter (if down then upward n else downward n)))
      st (zrange (x n + padding n) (x n + width n - padding n)))
    st vs.

Definition set_ports (ins outs : list (gset Z)) (a : Adapter) : Adapter :=
  mkAdapter (enabled a) ins outs (a_height a) (a_y a) (rendering a).
Definition set_a_y (v : Z) (a : Adapter) : Adapter :=
  mkAdapter (enabled a) (inputs a) (outputs a) (a_height a) v (rendering a).

(** The body of [for y in 0..self.layers.len() - 1] in [Context::layout]. *)
Definition layout_adapter (ns : list Node) (ls : list Layer) (yy : nat) : option (list Layer) :=
  let up := ls !!! yy in
  let down := ls !!! S yy in
  if negb (enabled (l_adapter up)) then Some ls else
  let right n w := Z.max w (x (ns !!! n) + width (ns !!! n)) in
  let w := foldl (fun w n => right n w) 0 (l_nodes up) in
  let w := foldl (fun w n => right n w) w (l_nodes down) in
  let empty := replicate (Z.to_nat w) (∅ : gset Z) in
  fill_ports false ns (l_nodes up) (empty, (∅, 1)) ≫= fun st =>
  let '(ins, m) := st in
  fill_ports true ns (l_nodes down) (empty, m) ≫= fun st =>
  let outs := st.1 in
  construct (set_ports ins outs (l_adapter up)) ≫= fun ad =>
  Some (alter (set_l_adapter ad) yy ls).

(** The [y_position] loop of [Context::layout]. *)
Fixpoint place (ypos : Z) (ns : list Node) (ls : list Layer) : list Node * list Layer :=
  match ls with
  | [] => (ns, [])
  | l :: ls' =>
    let ns := foldl (fun ns n => alter (set_y ypos) n ns) ns (l_nodes l) in
    let es := map (fun e => mkEdge (e_up e) (e_down e) (e_x e) (ypos + 2)) (l_edges l) in
    let ad := l_adapter l in
    let '(ad, ypos) := if enabled ad then (set_a_y (ypos + 2) ad, ypos + (a_height ad - 3))
                       else (ad, ypos) in
    let '(ns, ls'') := place (ypos + 3) ns ls' in
    (ns, mkLayer (l_nodes l) es ad :: ls'')
  end.

(** [Context::layout].  [self.layers.len() - 1] underflows on an empty
    arena, which [process] never lays out. *)
Definition layout (ctx : Context) : option Context :=
  let ns := imap (node_size ctx) (nodes ctx) in
  let '(ns, ls) := layout_relax 1000 (ns, layers ctx) in
  foldlM (layout_adapter ns) ls (seq 0 (length ls - 1)%nat) ≫= fun ls =>
  let '(ns, ls) := place 0 ns ls in
  Some (mkContext (labels ctx) (id ctx) ns ls).

(** ** Screen ([src/screen.rs]) *)

Record Screen := mkScreen { dim_x : nat; dim_y : nat; lines : list (list Z) }.

(** [Screen::new] *)
Definition screen_new (w h : nat) : Screen := mkScreen w h (replicate h (replicate w 32)).

(** [self.lines[y][x] = c]; an index out of range panics. *)
Definition draw_pixel (sc : Screen) (xx yy : nat) (c : Z) : option Screen :=
  lines sc !! yy ≫= fun r =>
  if (xx <? length r)%nat
  then Some (mkScreen (dim_x sc) (dim_y sc) (<[yy := <[xx := c]> r]> (lines sc)))
  else None.

(** [*screen.pixel(x, y)] *)
Definition pixel (sc : Screen) (xx yy : nat) : option Z := lines sc !! yy ≫= fun r => r !! xx.

(** [Screen::draw_text] *)
Definition draw_text (sc : Screen) (xx yy : nat) (text : rstring) : option Screen :=
  foldlM (fun sc '(i, ch) =>
    if (xx + i <? dim_x sc)%nat then draw_pixel sc (xx + i) yy ch
    else Some sc)
    sc (zip (seq 0 (length text)) text).

(** [Screen::draw_text_in_box_center]; the label is narrower than its box. *)
Definition draw_text_in_box_center (sc : Screen) (xx yy w : nat) (text : rstring) : option Screen :=
  let margin := ((w - length text) / 2)%nat in
  draw_text sc (xx + margin) (yy + 1) text.

(** [Screen::draw_box]; boxes are at least 1 wide and 1 high. *)
Definition draw_box (sc : Screen) (xx yy w h : nat) : option Screen :=
  draw_pixel sc xx yy 9484 ≫= fun sc =>
  draw_pixel sc (xx + w - 1) yy 9488 ≫= fun sc =>
  draw_pixel sc xx (yy + h - 1) 9492 ≫= fun sc =>
  draw_pixel sc (xx + w - 1) (yy + h - 1) 9496 ≫= fun sc =>
  foldlM (fun sc dx =>
    draw_pixel sc (xx + dx) yy 9472 ≫= fun sc => draw_pixel sc (xx + dx) (yy + h - 1) 9472)
    sc (seq 1 (w - 1 - 1)) ≫= fun sc =>
  foldlM (fun sc dy =>
    draw_pixel sc xx (yy + dy) 9474 ≫= fun sc => draw_pixel sc (xx + w - 1) (yy + dy) 9474)
    sc (seq 1 (h - 1 - 1)).

(** [Screen::draw_vertical_line] *)
Definition draw_vertical_line (sc : Screen) (top bottom xx : nat) (c : Z) : option Screen :=
  foldlM (fun sc yy => draw_pixel sc xx yy c) sc (seq top (S bottom - top)).

(** [Screen::stringify] *)
Definition stringify (sc : Screen) : rstring := concat (map (fun r => r ++ [10]) (lines sc)).

(** [Vec::resize(n, v)]: truncate, or pad with copies of [v]. *)
Definition vec_resize {A : Type} (n : nat) (v : A) (l : list A) : list A :=
  take n l ++ replicate (n - length l) v.

(** [Screen::resize] *)
Definition resize (sc : Screen) (new_x new_y : nat) : Screen :=
  mkScreen new_x new_y
    (map (vec_resize new_x 32) (vec_resize new_y (replicate new_x 32) (lines sc))).

(** [Screen::draw_boxed_text] *)
Definition draw_boxed_text (sc : Screen) (xx yy : nat) (text : rstring) : option Screen :=
  draw_text sc (xx + 1) (yy + 1) text ≫= fun sc =>
  draw_box sc xx yy (length text + 2) 3.

(** [Screen::draw_horizontal_line] *)
Definition draw_horizontal_line (sc : Screen) (left right yy : nat) (c : Z) : option Screen :=
  foldlM (fun sc xx => draw_pixel sc xx yy c) sc (seq left (S right - left)).

(** The new char of row [yy] in [Screen::draw_vertical_line_complete];
    the neighbours are read only when the guards allow it. *)
Definition vlc_char (sc : Screen) (top bottom xx yy : nat) : option Z :=
  pixel sc xx yy ≫= fun ch =>
  if ch =? 9472 then
    (if (0 <? xx)%nat then pixel sc (xx - 1) yy ≫= fun p => Some (negb (p =? 32))
     else Some false) ≫= fun left =>
    (if (xx + 1 <? dim_x sc)%nat then pixel sc (xx + 1) yy ≫= fun p => Some (negb (p =? 32))
     else Some false) ≫= fun right =>
    Some (match (yy =? top)%nat, (yy =? bottom)%nat, left, right with
          | true, true, l, r => if l && r then 9472 else 9474
          | true, false, true, true => 9516
          | true, false, true, false => 9488
          | true, false, false, true => 9484
          | false, true, true, true => 9524
          | false, true, true, false => 9496
          | false, true, false, true => 9492
          | _, _, _, _ => 9474
          end)
  else if (ch =? 9488) || (ch =? 9496) then Some 9508
  else if (ch =? 9484) || (ch =? 9492) then Some 9500
  else if (ch =? 9516) || (ch =? 9524) then Some 9532
  else Some 9474.

(** [Screen::draw_vertical_line_complete] *)
Definition draw_vertical_line_complete (sc : Screen) (top bottom xx : nat) : option Screen :=
  foldlM (fun sc yy => vlc_char sc top bottom xx yy ≫= fun c => draw_pixel sc xx yy c)
    sc (seq top (S bottom - top)).

(** The char mapping of [Screen::asciify]. *)
Definition asciify_char (style : nat) (ch : Z) : Z :=
  if ch =? 9472 then 45
  else if ch =? 9474 then 124
  else if (ch =? 9488) || (ch =? 9484) then 46
  else if (ch =? 9496) || (ch =? 9492) then 39
  else if (ch =? 9516) && (style =? 0)%nat then 45
  else if (ch =? 9516) && (style =? 1)%nat then 46
  else if (ch =? 9524) && (style =? 0)%nat then 45
  else if (ch =? 9524) && (style =? 1)%nat then 39
  else if (ch =? 9500) || (ch =? 9508) then 45
  else if ch =? 9651 then 94
  else if ch =? 9661 then 86
  else ch.

(** [Screen::asciify] *)
Definition asciify (style : nat) (sc : Screen) : Screen :=
  mkScreen (dim_x sc) (dim_y sc) (map (map (asciify_char style)) (lines sc)).

(** [Screen::append] *)
Definition append (sc other : Screen) (xx yy : nat) : option Screen :=
  let sc := resize sc (Nat.max (dim_x sc) (xx + dim_x other)) (Nat.max (dim_y sc) (yy + dim_y other)) in
  foldlM (fun sc '(dy, r) =>
    foldlM (fun sc '(dx, ch) => draw_pixel sc (xx + dx) (yy + dy) ch)
      sc (zip (seq 0 (length r)) r))
    sc (zip (seq 0 (length (lines other))) (lines other)).

(** [Adapter::render] *)
Definition adapter_render (a : Adapter) (sc : Screen) : option Screen :=
  foldlM (fun sc dy =>
    rendering a !! Z.to_nat dy ≫= fun r =>
    foldlM (fun sc '(xx, ch) =>
      if ch =? 32 then Some sc else
      let py := Z.to_nat (a_y a + dy) in
      pixel sc xx py ≫= fun p =>
      let v := if (dy =? 0) && (p =? 9472) then 9516
               else if (p =? 9472) && (dy =? a_height a - 2) then 9661
               else ch in
      draw_pixel sc xx py v)
      sc (zip (seq 0 (length r)) r))
    sc (zrange 0 (a_height a - 1)).

(** ** Rendering and the pipeline *)

(** [Context::render] *)
Definition render (ctx : Context) : option rstring :=
  let w := foldl (fun w n => Z.max w (x n + width n)) 0 (nodes ctx) in
  let h := foldl (fun h n => Z.max h (y n + height n)) 0 (nodes ctx) in
  let sc := screen_new (Z.to_nat w) (Z.to_nat h) in
  foldlM (fun sc '(i, n) =>
    let nx := Z.to_nat (x n) in
    let ny := Z.to_nat (y n) in
    if is_connector n then
      if width n =? 1 then draw_vertical_line sc ny (Z.to_nat (y n + 2)) nx 9474
      else draw_box sc nx ny (Z.to_nat (width n)) (Z.to_nat (height n))
    else
      draw_box sc nx ny (Z.to_nat (width n)) (Z.to_nat (height n)) ≫= fun sc =>
      draw_text_in_box_center sc nx ny (Z.to_nat (width n)) (labels ctx !!! i))
    sc (zip (seq 0 (length (nodes ctx))) (nodes ctx)) ≫= fun sc =>
  foldlM (fun sc e =>
    let up := if is_connector (nodes ctx !!! e_up e) then 9474 else 9516 in
    let down := if is_connector (nodes ctx !!! e_down e) then 9474 else 9661 in
    draw_pixel sc (Z.to_nat (e_x e)) (Z.to_nat (e_y e)) up ≫= fun sc =>
    draw_pixel sc (Z.to_nat (e_x e)) (Z.to_nat (e_y e + 1)) down)
    sc (concat (map l_edges (layers ctx))) ≫= fun sc =>
  foldlM (fun sc l =>
    if enabled (l_adapter l) then adapter_render (l_adapter l) sc else Some sc)
    sc (layers ctx) ≫= fun sc =>
  Some (stringify sc).

(** [Context::process] (and [dag_to_text]).  [None] is a panic or a loop
    that has not finished. *)
Definition process (input : rstring) : option (result rstring ProcessingError) :=
  parse context_default input ≫= fun ctx =>
  if is_empty ctx then Some (Ok []) else
  match toposort ctx with
  | Err e => Some (Err e)
  | Ok ctx =>
    complete ctx ≫= fun ctx =>
    build_layers ctx ≫= fun ctx =>
    layout (resolve_crossings ctx) ≫= fun ctx =>
    render ctx ≫= fun s => Some (Ok s)
  end.

End Model.

(** States reachable through the graph-construction operations of the
    registry ([add_connector] is only called with vertices that exist: the
    source indexes [self.nodes[a]] and [self.nodes[b]]). *)
Inductive reachable : Context -> Prop :=
| reach_default : reachable context_default
| reach_add_node ctx name : reachable ctx -> reachable (add_node ctx name)
| reach_add_vertex ctx a b ctx' :
    reachable ctx -> add_vertex ctx a b = Some ctx' -> reachable ctx'
| reach_add_connector ctx a b :
    reachable ctx -> (a < length (nodes ctx))%nat -> (b < length (nodes ctx))%nat ->
    reachable (add_connector ctx a b)
| reach_parse ctx s ctx' :
    reachable ctx -> parse ctx s = Some ctx' -> reachable ctx'.

(** Adjacency symmetry over the vertex indices. *)
Definition adj_sym (ns : list Node) : Prop :=
  forall i j, (i < length ns)%nat -> (j < length ns)%nat ->
    (j ∈ downward (ns !!! i) <-> i ∈ upward (ns !!! j)).

(** Indices stored in the registry are in range. *)
Definition in_range (ctx : Context) : Prop :=
  (forall i j, (i < length (nodes ctx))%nat ->
     j ∈ downward (nodes ctx !!! i) ∪ upward (nodes ctx !!! i) -> (j < length (nodes ctx))%nat) /\
  (forall name i, id ctx !! name = Some i -> (i < length (nodes ctx))%nat).

(** The directed graph described by the [downward] sets, and its cycles. *)
Definition edge_rel (ns : list Node) (a b : nat) : Prop :=
  (a < length ns)%nat /\ b ∈ downward (ns !!! a).

Definition has_cycle (ns : list Node) : Prop := exists v, tc (edge_rel ns) v v.

(** ** Observations *)

(** The edge slots of the router's grid [g] joining the nodes [a] and [b]
    (in either direction), as listed in [a]'s adjacency. *)
Definition edges_between (g : list RNode * list REdge) (a b : nat) : list nat :=
  filter (fun ei => let e := g.2 !!! ei in (ea e = a /\ eb e = b) \/ (ea e = b /\ eb e = a))
    (r_edges (g.1 !!! a)).

(** ** Sample inputs *)

(** ["A -> B"] *)
Definition input_ab : rstring := [65; 32; 45; 62; 32; 66].
Definition sample_ab : Context :=
  match parse context_default input_ab with Some c => c | None => context_default end.
(** ["A -> B -> A"] *)
Definition input_cycle : rstring := [65; 32; 45; 62; 32; 66; 32; 45; 62; 32; 65].
(** ["A -> C\nA -> D\nB -> C\nB -> D"] *)
Definition input_k22 : rstring :=
  [65; 32; 45; 62; 32; 67; 10; 65; 32; 45; 62; 32; 68; 10;
   66; 32; 45; 62; 32; 67; 10; 66; 32; 45; 62; 32; 68].
(** Two enumerations of a [HashSet<usize>]: ascending, and descending. *)
Definition iter_ascending (s : gset nat) : list nat := elements s.
Definition iter_descending (s : gset nat) : list nat := reverse (elements s).
(** [" \n -> "] *)
Definition input_blank : rstring := [32; 10; 32; 45; 62; 32].

(** Two parents in rows 0 and 1 whose edges cross: [0 -> 3] and [1 -> 2]. *)
Definition node_at_row (r : nat) : Node := set_row r node_default.
Definition sample_cross : Context :=
  mkContext [] ∅ [node_at_row 0; node_at_row 1; node_at_row 0; node_at_row 1]
    [mkLayer [0%nat; 1%nat] [mkEdge 0 3 0 0; mkEdge 1 2 0 0] adapter_default;
     mkLayer [2%nat; 3%nat] [] adapter_default].

(** ["A -> B\nB -> C\nA -> C"]: the edge [A -> C] skips a layer. *)
Definition input_skip : rstring :=
  [65; 32; 45; 62; 32; 66; 10; 66; 32; 45; 62; 32; 67; 10; 65; 32; 45; 62; 32; 67].
Definition sample_skip : Context :=
  match parse context_default input_skip with Some c => c | None => context_default end.
Definition leveled_skip : Context :=
  match toposort elements sample_skip with Ok c => c | Err _ => sample_skip end.

(** The registry of [input_k22] as [build_layers] receives it, and after. *)
Definition sample_k22 : Context :=
  match parse context_default input_k22 with Some c => c | None => context_default end.
Definition completed_k22 : Context :=
  match toposort elements sample_k22 with
  | Ok c => match complete elements c with Some c' => c' | None => c end
  | Err _ => sample_k22
  end.
Definition layered_k22 : Context :=
  match build_layers elements completed_k22 with Some c => c | None => completed_k22 end.

(** Two crossing connectors. *)
Definition adapter_cross : Adapter := mkAdapter true [{[1%Z]}; {[2%Z]}] [{[2%Z]}; {[1%Z]}] 0 0 [].

(** ["N0 -> N1\nN1 -> N2\n..."]: a chain of [n + 1] vertices. *)
Fixpoint digits_go (fuel n : nat) (acc : list Z) : list Z :=
  match fuel with
  | O => acc
  | S f =>
    let acc := (48 + Z.of_nat (n mod 10)) :: acc in
    if (n <? 10)%nat then acc else digits_go f (n / 10) acc
  end.
Definition vname (i : nat) : rstring := 78 :: digits_go 6 i [].
Definition chain_input (n : nat) : rstring :=
  concat (map (fun i => vname i ++ [32; 45; 62; 32] ++ vname (S i) ++ [10]) (seq 0 n)).

(** The stages of [process] before [layout]. *)
Definition pre_layout (hs_iter : gset nat -> list nat) (input : rstring) : option Context :=
  parse context_default input ≫= fun ctx =>
  match toposort hs_iter ctx with
  | Err _ => None
  | Ok ctx =>
    complete hs_iter ctx ≫= fun ctx =>
    build_layers hs_iter ctx ≫= fun ctx =>
    Some (resolve_crossings ctx)
  end.

(** The state [layout] receives for a chain of [n + 1] vertices: vertex
    [j] alone in layer [j], at [x = 0] with padding 1, one edge [j -> j+1]
    at [x = 0] in every layer but the last, no adapter enabled. *)
Definition chain_ok (n : nat) (ctx : Context) : bool :=
  (length (nodes ctx) =? S n)%nat && (length (layers ctx) =? S n)%nat &&
  forallb (fun i => let nd := nodes ctx !!! i in
    (x nd =? 0) && (padding nd =? 1) && negb (is_connector nd)) (seq 0 (S n)) &&
  forallb (fun j => let l := layers ctx !!! j in
    bool_decide (l_nodes l = [j]) && negb (enabled (l_adapter l)) &&
    bool_decide (map (fun e => (e_up e, e_down e, e_x e)) (l_edges l) =
      if (j <? n)%nat then [(j, S j, 0)] else [])) (seq 0 (S n)).

(** The geometry invariant of the layout: in every layer, no vertex box
    overlaps its left neighbour, and every edge lies in the padded interior
    of both of its ends (the right bound for non-connectors only). *)
Definition span_ok (n : Node) (ex : Z) : Prop :=
  x n + padding n <= ex /\ (is_connector n = false -> ex <= x n + width n - 2).

Definition no_overlap (ns : list Node) (l : Layer) : Prop :=
  forall i, (S i < length (l_nodes l))%nat ->
    x (ns !!! (l_nodes l !!! i)) + width (ns !!! (l_nodes l !!! i)) <= x (ns !!! (l_nodes l !!! S i)).

Definition geom_ok (ns : list Node) (ls : list Layer) : Prop :=
  forall l, l ∈ ls -> no_overlap ns l /\
    forall e, e ∈ l_edges l -> span_ok (ns !!! e_up e) (e_x e) /\ span_ok (ns !!! e_down e) (e_x e).

Definition geometry_ok (ctx : Context) : Prop := geom_ok (nodes ctx) (layers ctx).

(** The relaxation of [layout] from [st] breaks out before its ceiling:
    one of its first 1000 rounds reports no change. *)
Definition relax_converged (st : list Node * list Layer) : Prop :=
  exists j, (j < 1000)%nat /\ (layout_step (Nat.iter j (fun s => (layout_step s).1) st)).2 = true.

(** [input_skip] as [layout] receives it, and after [layout]. *)
Definition laid_skip : Context :=
  match pre_layout elements input_skip with Some c => c | None => context_default end.
Definition final_skip : Context :=
  match layout elements laid_skip with Some c => c | None => laid_skip end.

(** * Proofs *)

Ltac split_conj := repeat match goal with H : _ /\ _ |- _ => destruct H end.

Section Registry.

Definition fresh_node : Node := mkNode ∅ ∅ false 1 0 0 ∅ [] [] 0 0 0 0.

Lemma add_node_cases ctx name :
  add_node ctx name = ctx \/
  (id ctx !! name = None /\
   add_node ctx name = mkContext (labels ctx ++ [name]) (<[name := length (nodes ctx)]> (id ctx))
      (nodes ctx ++ [fresh_node]) (layers ctx)).
Proof. unfold add_node. destruct (id ctx !! name); simpl; auto. Qed.

Lemma lookup_snoc_total (l : list Node) (v : Node) i :
  (l ++ [v]) !!! i = if decide (i < length l)%nat then l !!! i
                     else if decide (i = length l) then v else inhabitant.
Proof.
  case_decide; [by rewrite lookup_total_app_l|].
  rewrite lookup_total_app_r by lia.
  case_decide; [subst; by rewrite Nat.sub_diag|].
  destruct (i - length l)%nat eqn:E; [lia|done].
Qed.

Lemma add_node_wf ctx name :
  in_range ctx -> adj_sym (nodes ctx) ->
  in_range (add_node ctx name) /\ adj_sym (nodes (add_node ctx name)).
Proof.
  intros [Hr Hid] Hs. destruct (add_node_cases ctx name) as [-> | [Hn ->]]; [done|].
  simpl. split; [split|].
  - intros i j Hi Hj. cbn [nodes] in *. rewrite length_app in *. simpl in *.
    rewrite lookup_snoc_total in Hj. repeat case_decide.
    + pose proof (Hr i j ltac:(done) Hj). lia.
    + set_solver.
    + lia.
  - intros nm i H. cbn [nodes id] in *. rewrite length_app. simpl.
    apply lookup_insert_Some in H as [[_ <-]|[_ H]]; [lia|].
    specialize (Hid _ _ H). lia.
  - intros i j Hi Hj. rewrite length_app in Hi, Hj. simpl in Hi, Hj.
    rewrite !lookup_snoc_total.
    destruct (decide (i < length (nodes ctx))%nat) as [Hi'|Hi'];
    destruct (decide (j < length (nodes ctx))%nat) as [Hj'|Hj'].
    + by apply Hs.
    + rewrite decide_True by lia. simpl. split; intros Hm; [|set_solver].
      pose proof (Hr i j Hi' ltac:(set_solver)). lia.
    + rewrite decide_True by lia. simpl. split; intros Hm; [set_solver|].
      pose proof (Hr j i Hj' ltac:(set_solver)). lia.
    + rewrite !decide_True by lia. simpl. set_solver.
Qed.

Lemma down_alter_up (f : nat) k (l : list Node) i :
  downward (alter (up_insert f) k l !!! i) = downward (l !!! i).
Proof. rewrite list_lookup_total_alter. case_decide as H; [destruct H; by subst|done]. Qed.
Lemma down_alter_upr (f : nat) k (l : list Node) i :
  downward (alter (up_remove f) k l !!! i) = downward (l !!! i).
Proof. rewrite list_lookup_total_alter. case_decide as H; [destruct H; by subst|done]. Qed.
Lemma up_alter_down (f : nat) k (l : list Node) i :
  upward (alter (down_insert f) k l !!! i) = upward (l !!! i).
Proof. rewrite list_lookup_total_alter. case_decide as H; [destruct H; by subst|done]. Qed.
Lemma up_alter_downr (f : nat) k (l : list Node) i :
  upward (alter (down_remove f) k l !!! i) = upward (l !!! i).
Proof. rewrite list_lookup_total_alter. case_decide as H; [destruct H; by subst|done]. Qed.
Lemma down_alter_down v k (l : list Node) i :
  downward (alter (down_insert v) k l !!! i) =
  if decide (k = i /\ (k < length l)%nat) then {[v]} ∪ downward (l !!! i) else downward (l !!! i).
Proof. rewrite list_lookup_total_alter. case_decide as H; [destruct H; by subst|done]. Qed.
Lemma down_alter_downr v k (l : list Node) i :
  downward (alter (down_remove v) k l !!! i) =
  if decide (k = i /\ (k < length l)%nat) then downward (l !!! i) ∖ {[v]} else downward (l !!! i).
Proof. rewrite list_lookup_total_alter. case_decide as H; [destruct H; by subst|done]. Qed.
Lemma up_alter_up v k (l : list Node) i :
  upward (alter (up_insert v) k l !!! i) =
  if decide (k = i /\ (k < length l)%nat) then {[v]} ∪ upward (l !!! i) else upward (l !!! i).
Proof. rewrite list_lookup_total_alter. case_decide as H; [destruct H; by subst|done]. Qed.
Lemma up_alter_upr v k (l : list Node) i :
  upward (alter (up_remove v) k l !!! i) =
  if decide (k = i /\ (k < length l)%nat) then upward (l !!! i) ∖ {[v]} else upward (l !!! i).
Proof. rewrite list_lookup_total_alter. case_decide as H; [destruct H; by subst|done]. Qed.

Ltac adj_simpl :=
  repeat (rewrite ?down_alter_up, ?down_alter_upr, ?up_alter_down, ?up_alter_downr,
            ?down_alter_down, ?down_alter_downr, ?up_alter_up, ?up_alter_upr,
            ?length_alter, ?length_app in *).

Lemma add_vertex_wf ctx a b ctx' :
  in_range ctx -> adj_sym (nodes ctx) -> add_vertex ctx a b = Some ctx' ->
  in_range ctx' /\ adj_sym (nodes ctx').
Proof.
  intros [Hr Hid] Hs. unfold add_vertex.
  destruct (id ctx !! a) as [ia|] eqn:Ea; [|done].
  destruct (id ctx !! b) as [ib|] eqn:Eb; [|done].
  intros [= <-]. pose proof (Hid _ _ Ea). pose proof (Hid _ _ Eb).
  split; [split|]; cbn [nodes id].
  - intros i j Hi Hj. adj_simpl.
    destruct (decide (j = ib)) as [->|?]; [lia|].
    destruct (decide (j = ia)) as [->|?]; [lia|].
    apply (Hr i j Hi). repeat case_decide; set_solver.
  - intros ??. rewrite !length_alter. eauto.
  - intros i j Hi Hj. adj_simpl.
    pose proof (Hs i j Hi Hj).
    repeat case_decide; repeat match goal with H : _ /\ _ |- _ => destruct H end;
      subst; set_solver by lia.
Qed.

Lemma not_in_range ctx i :
  in_range ctx -> (i < length (nodes ctx))%nat ->
  length (nodes ctx) ∉ downward (nodes ctx !!! i) ∪ upward (nodes ctx !!! i).
Proof. intros [Hr _] Hi Hm. pose proof (Hr i _ Hi Hm). lia. Qed.

Lemma add_connector_wf ctx a b :
  in_range ctx -> adj_sym (nodes ctx) ->
  (a < length (nodes ctx))%nat -> (b < length (nodes ctx))%nat ->
  in_range (add_connector ctx a b) /\ adj_sym (nodes (add_connector ctx a b)).
Proof.
  intros Hw Hs Ha Hb. pose proof Hw as [Hr Hid]. unfold add_connector.
  split; [split|]; cbn [nodes id].
  - intros i j Hi Hj. adj_simpl. cbn [length] in Hi |- *.
    rewrite !lookup_snoc_total in Hj.
    destruct (decide (j = length (nodes ctx))) as [->|?]; [lia|].
    destruct (decide (j = a)) as [->|?]; [lia|].
    destruct (decide (j = b)) as [->|?]; [lia|].
    destruct (decide (i < length (nodes ctx))%nat).
    + enough (j < length (nodes ctx))%nat by lia.
      assert (j ∈ downward (nodes ctx !!! i) ∪ upward (nodes ctx !!! i)).
      { clear Hr Hid Hs Hw. repeat case_decide; split_conj; subst; simpl in *; set_solver. }
      by apply (Hr i j).
    + exfalso. repeat case_decide; split_conj; subst; simpl in *; set_solver by lia.
  - intros ??. adj_simpl. simpl. intros H. pose proof (Hid _ _ H). lia.
  - intros i j Hi Hj. adj_simpl. simpl in Hi, Hj.
    rewrite !lookup_snoc_total.
    destruct (decide (i < length (nodes ctx))%nat) as [Hi'|Hi'];
    destruct (decide (j < length (nodes ctx))%nat) as [Hj'|Hj'].
    + pose proof (Hs i j Hi' Hj'). pose proof (not_in_range ctx i Hw Hi').
      pose proof (not_in_range ctx j Hw Hj').
      repeat case_decide; split_conj; subst; simpl in *; try lia; set_solver.
    + assert (j = length (nodes ctx)) as -> by lia.
      pose proof (not_in_range ctx i Hw Hi').
      repeat case_decide; split_conj; subst; simpl in *; try lia; set_solver.
    + assert (i = length (nodes ctx)) as -> by lia.
      pose proof (not_in_range ctx j Hw Hj').
      repeat case_decide; split_conj; subst; simpl in *; try lia; set_solver.
    + assert (i = length (nodes ctx)) as -> by lia.
      assert (j = length (nodes ctx)) as -> by lia.
      repeat case_decide; split_conj; subst; simpl in *; try lia; set_solver.
Qed.

Definition ctx_wf (ctx : Context) : Prop := in_range ctx /\ adj_sym (nodes ctx).

Lemma parse_parts_wf parts : forall ctx prev ctx',
  ctx_wf ctx -> parse_parts ctx prev parts = Some ctx' -> ctx_wf ctx'.
Proof.
  induction parts as [|part parts IH]; simpl; intros ctx prev ctx' Hw H.
  - by injection H as <-.
  - case_decide; [by eapply IH|].
    destruct (add_node_wf ctx (trim part)) as [Hr Hs]; [apply Hw..|].
    destruct prev as [p|].
    + destruct (add_vertex (add_node ctx (trim part)) p (trim part)) as [c|] eqn:E; [|done].
      simpl in H. destruct (add_vertex_wf _ _ _ _ Hr Hs E). eapply IH; [|exact H]. done.
    + eapply IH; [|exact H]. done.
Qed.

Lemma parse_lines_wf lines : forall ctx ctx',
  ctx_wf ctx -> parse_lines ctx lines = Some ctx' -> ctx_wf ctx'.
Proof.
  induction lines as [|l lines IH]; simpl; intros ctx ctx' Hw H.
  - by injection H as <-.
  - case_decide; [by eapply IH|].
    destruct (parse_parts ctx None (split (trim l) arrow)) as [c|] eqn:E; [|done].
    simpl in H. eapply IH; [|exact H]. eapply parse_parts_wf; eauto.
Qed.

Lemma parse_wf ctx s ctx' : ctx_wf ctx -> parse ctx s = Some ctx' -> ctx_wf ctx'.
Proof. apply parse_lines_wf. Qed.

Lemma default_wf : ctx_wf context_default.
Proof.
  split; [split|]; simpl.
  - intros i j Hi; simpl in Hi; lia.
  - intros nm i H. by rewrite lookup_empty in H.
  - intros i j Hi; simpl in Hi; lia.
Qed.

Lemma reachable_wf ctx : reachable ctx -> ctx_wf ctx.
Proof.
  induction 1.
  - apply default_wf.
  - destruct IHreachable. by apply add_node_wf.
  - destruct IHreachable. by eapply add_vertex_wf.
  - destruct IHreachable. by apply add_connector_wf.
  - by eapply parse_wf.
Qed.

(** ** C10 *)

(** C10: adjacency symmetry is an invariant of the construction operations:
    in every state reachable from the empty context through [add_node],
    [add_vertex], [add_connector] and [parse], for all vertex indices [i]
    and [j], [j] is in [nodes[i].downward] iff [i] is in [nodes[j].upward]. *)
Theorem adjacency_symmetry_invariant (ctx : Context) :
  reachable ctx ->
  forall i j, (i < length (nodes ctx))%nat -> (j < length (nodes ctx))%nat ->
    (j ∈ downward (nodes ctx !!! i) <-> i ∈ upward (nodes ctx !!! j)).
Proof. intros H. apply (reachable_wf ctx H). Qed.

End Registry.

Section Toposort.

Variable hs_iter : gset nat -> list nat.
Hypothesis hs_iter_perm : forall s, hs_iter s ≡ₚ elements s.

Lemma hs_iter_elem s b : b ∈ hs_iter s <-> b ∈ s.
Proof. rewrite (hs_iter_perm s). apply elem_of_elements. Qed.

Definition layer_sum (ns : list Node) : nat := sum_list (map layer ns).

Lemma layer_set_layer v n : layer (set_layer v n) = v.
Proof. done. Qed.
Lemma downward_set_layer v n : downward (set_layer v n) = downward n.
Proof. done. Qed.

Lemma layer_sum_alter (ns : list Node) b v :
  (b < length ns)%nat -> (layer (ns !!! b) < v)%nat ->
  (layer_sum ns < layer_sum (alter (set_layer v) b ns))%nat.
Proof.
  unfold layer_sum. revert b. induction ns as [|n ns IH]; intros [|b] Hb Hv; simpl in *; try lia.
  specialize (IH b ltac:(lia) Hv). unfold alter in IH. lia.
Qed.

Lemma layer_sum_mono (ns ns' : list Node) :
  length ns = length ns' -> (forall i, (layer (ns !!! i) <= layer (ns' !!! i))%nat) ->
  (layer_sum ns <= layer_sum ns')%nat.
Proof.
  unfold layer_sum. revert ns'. induction ns as [|n ns IH]; intros [|n' ns'] Hl Hi; simpl in *; try lia.
  pose proof (Hi 0%nat). simpl in *. enough (sum_list (map layer ns) <= sum_list (map layer ns'))%nat by lia.
  apply IH; [lia|]. intros i. apply (Hi (S i)).
Qed.

Lemma topo_inner_len a bs ns ch : length (topo_inner a bs ns ch).1 = length ns.
Proof.
  revert ns ch. induction bs as [|b bs IH]; intros ns ch; simpl; [done|].
  case_match; rewrite IH; [apply length_alter|done].
Qed.

Lemma topo_inner_down a bs ns ch i :
  downward ((topo_inner a bs ns ch).1 !!! i) = downward (ns !!! i).
Proof.
  revert ns ch. induction bs as [|b bs IH]; intros ns ch; simpl; [done|].
  case_match; rewrite IH; [|done].
  rewrite list_lookup_total_alter. case_decide as Hc; [destruct Hc; by subst|done].
Qed.

Lemma topo_inner_mono a bs ns ch i :
  (layer (ns !!! i) <= layer ((topo_inner a bs ns ch).1 !!! i))%nat.
Proof.
  revert ns ch. induction bs as [|b bs IH]; intros ns ch; simpl; [done|].
  case_match eqn:E; [|apply IH].
  etrans; [|apply IH]. rewrite list_lookup_total_alter.
  case_decide as Hc; [destruct Hc; subst; simpl; apply Nat.leb_le in E; lia|done].
Qed.

Lemma topo_inner_false a bs ns ch :
  (topo_inner a bs ns ch).2 = false ->
  ch = false /\ (topo_inner a bs ns ch).1 = ns /\
  forall b, b ∈ bs -> (layer (ns !!! a) < layer (ns !!! b))%nat.
Proof.
  revert ns ch. induction bs as [|b bs IH]; intros ns ch; simpl.
  - intros ->. split_and!; [done|done|]. intros b Hb. by apply elem_of_nil in Hb.
  - case_match eqn:E.
    + intros H. destruct (IH _ _ H) as [? _]. done.
    + intros H. destruct (IH _ _ H) as (-> & -> & Hb). split_and!; [done|done|].
      intros b' [->|?]%elem_of_cons; [apply Nat.leb_gt in E; lia|by apply Hb].
Qed.

Lemma topo_inner_true a bs ns ch :
  (forall b, b ∈ bs -> (b < length ns)%nat) ->
  (topo_inner a bs ns ch).2 = true -> ch = false ->
  (layer_sum ns < layer_sum (topo_inner a bs ns ch).1)%nat.
Proof.
  revert ns ch. induction bs as [|b bs IH]; intros ns ch Hr; simpl.
  - congruence.
  - case_match eqn:E; intros Ht ->.
    + apply Nat.leb_le in E.
      eapply Nat.lt_le_trans; [apply (layer_sum_alter ns b (S (layer (ns !!! a)))); [apply Hr; left|lia]|].
      apply layer_sum_mono; [by rewrite topo_inner_len|]. intros i. apply topo_inner_mono.
    + apply IH; [|done|done]. intros b' Hb'. apply Hr. by right.
Qed.

(** Every layer value is the length of a walk ending at the vertex. *)
Definition layer_walks (R : relation nat) (ns : list Node) : Prop :=
  forall v, (v < length ns)%nat ->
    layer (ns !!! v) = 0%nat \/ exists u, nsteps R (layer (ns !!! v)) u v.

Lemma topo_inner_walks (R : relation nat) a bs ns ch :
  (forall b, b ∈ bs -> R a b) -> (a < length ns)%nat ->
  layer_walks R ns -> layer_walks R (topo_inner a bs ns ch).1.
Proof.
  revert ns ch. induction bs as [|b bs IH]; intros ns ch HR Ha Hw; simpl; [done|].
  case_match; apply IH; try (intros; apply HR; by right).
  - by rewrite length_alter.
  - intros v Hv. rewrite length_alter in Hv. rewrite list_lookup_total_alter.
    case_decide as Hc; [|by apply Hw].
    destruct Hc as [-> _]. simpl. right.
    destruct (Hw a Ha) as [Hz|[u Hu]].
    + exists a. rewrite Hz. apply nsteps_once. apply HR. by left.
    + exists u. eapply nsteps_r; [exact Hu|]. apply HR. by left.
  - done.
  - done.
Qed.

Lemma topo_fold_len as_ acc :
  length (foldl (topo_step hs_iter) acc as_).1 = length acc.1.
Proof.
  revert acc. induction as_ as [|a as_ IH]; intros acc; simpl; [done|].
  rewrite IH. unfold topo_step. apply topo_inner_len.
Qed.

Lemma topo_fold_down as_ acc i :
  downward ((foldl (topo_step hs_iter) acc as_).1 !!! i) = downward (acc.1 !!! i).
Proof.
  revert acc. induction as_ as [|a as_ IH]; intros acc; simpl; [done|].
  rewrite IH. unfold topo_step. apply topo_inner_down.
Qed.

Lemma topo_fold_mono as_ acc i :
  (layer (acc.1 !!! i) <= layer ((foldl (topo_step hs_iter) acc as_).1 !!! i))%nat.
Proof.
  revert acc. induction as_ as [|a as_ IH]; intros acc; simpl; [done|].
  etrans; [|apply IH]. unfold topo_step. apply topo_inner_mono.
Qed.

Lemma topo_fold_false as_ ns ch :
  (foldl (topo_step hs_iter) (ns, ch) as_).2 = false ->
  ch = false /\ (foldl (topo_step hs_iter) (ns, ch) as_).1 = ns /\
  forall a b, a ∈ as_ -> b ∈ downward (ns !!! a) -> (layer (ns !!! a) < layer (ns !!! b))%nat.
Proof.
  revert ns ch. induction as_ as [|a as_ IH]; intros ns ch; simpl.
  - intros ->. split_and!; [done|done|]. intros a b Ha. by apply elem_of_nil in Ha.
  - destruct (topo_step hs_iter (ns, ch) a) as [ns1 ch1] eqn:E.
    unfold topo_step in E. simpl in E.
    intros H. destruct (IH _ _ H) as (-> & -> & Hr).
    pose proof (topo_inner_false a (hs_iter (downward (ns !!! a))) ns ch) as Hf.
    rewrite E in Hf. simpl in Hf. destruct (Hf eq_refl) as (-> & -> & Hb). split_and!; [done|done|].
    intros a' b [->|?]%elem_of_cons Hb'; [apply Hb; by apply hs_iter_elem|by apply Hr].
Qed.

Lemma topo_fold_true as_ ns ch :
  (forall a b, a ∈ as_ -> b ∈ downward (ns !!! a) -> (b < length ns)%nat) ->
  ch = false -> (foldl (topo_step hs_iter) (ns, ch) as_).2 = true ->
  (layer_sum ns < layer_sum (foldl (topo_step hs_iter) (ns, ch) as_).1)%nat.
Proof.
  revert ns ch. induction as_ as [|a as_ IH]; intros ns ch Hr Hch; simpl; [congruence|].
  destruct (topo_step hs_iter (ns, ch) a) as [ns1 ch1] eqn:E.
  unfold topo_step in E. simpl in E.
  destruct ch1.
  - intros _. pose proof (topo_inner_true a (hs_iter (downward (ns !!! a))) ns ch) as Ht.
    rewrite E in Ht. simpl in Ht.
    eapply Nat.lt_le_trans; [apply Ht; [|done|done]|].
    + intros b Hb. apply (Hr a); [by left|by apply hs_iter_elem].
    + apply layer_sum_mono; [by rewrite topo_fold_len|]. intros i. apply (topo_fold_mono _ (ns1, true)).
  - pose proof (topo_inner_false a (hs_iter (downward (ns !!! a))) ns ch) as Hf.
    rewrite E in Hf. simpl in Hf. destruct (Hf eq_refl) as (_ & -> & _).
    intros H. apply IH; [|done|done]. intros a' b Ha'. apply Hr. by right.
Qed.

Lemma topo_fold_walks (R : relation nat) as_ acc :
  (forall a b, a ∈ as_ -> b ∈ downward (acc.1 !!! a) -> R a b) ->
  (forall a, a ∈ as_ -> (a < length acc.1)%nat) ->
  layer_walks R acc.1 -> layer_walks R (foldl (topo_step hs_iter) acc as_).1.
Proof.
  revert acc. induction as_ as [|a as_ IH]; intros acc HR Ha Hw; simpl; [done|].
  apply IH.
  - intros a' b Ha' Hb. unfold topo_step in Hb. rewrite topo_inner_down in Hb.
    apply HR; [by right|done].
  - intros a' Ha'. unfold topo_step. rewrite topo_inner_len. apply Ha. by right.
  - unfold topo_step. apply topo_inner_walks; [|apply Ha; by left|done].
    intros b Hb. apply HR; [by left|by apply hs_iter_elem].
Qed.

(** Walks as functions, and the pigeonhole argument for long walks. *)
Lemma nsteps_fun (R : relation nat) k u v :
  nsteps R k u v -> exists f, f 0%nat = u /\ f k = v /\
    forall i, (i < k)%nat -> R (f i) (f (S i)).
Proof.
  induction 1 as [x|k x y z Hxy _ (f & Hf0 & Hfk & Hf)].
  - exists (fun _ => x). split_and!; [done|done|]. intros; lia.
  - exists (fun i => match i with O => x | S i => f i end). split_and!; [done|done|].
    intros [|i] Hi; [by rewrite Hf0|]. apply Hf. lia.
Qed.

Lemma fun_nsteps (R : relation nat) (f : nat -> nat) i d :
  (forall j, (i <= j < i + d)%nat -> R (f j) (f (S j))) -> nsteps R d (f i) (f (i + d)%nat).
Proof.
  revert i. induction d as [|d IH]; intros i Hf.
  - rewrite Nat.add_0_r. constructor.
  - econstructor; [apply Hf; lia|]. replace (i + S d)%nat with (S i + d)%nat by lia.
    apply IH. intros j Hj. apply Hf. lia.
Qed.

Lemma long_walk_cycle (ns : list Node) k u v :
  (forall a b, edge_rel ns a b -> (b < length ns)%nat) ->
  nsteps (edge_rel ns) k u v -> (v < length ns)%nat -> (length ns <= k)%nat -> has_cycle ns.
Proof.
  intros Hr Hw Hv Hk. destruct (nsteps_fun _ _ _ _ Hw) as (f & Hf0 & Hfk & Hf).
  destruct (nat_pigeonhole f (S k) (length ns)) as (i1 & i2 & Hi & Heq); [lia| |].
  - intros i Hi. destruct (decide (i < k)%nat).
    + apply Hf. lia.
    + assert (i = k) as -> by lia. by rewrite Hfk.
  - exists (f i1). apply tc_nsteps. exists (i2 - i1)%nat. split; [lia|].
    rewrite Heq at 2. replace i2 with (i1 + (i2 - i1))%nat at 2 by lia.
    apply fun_nsteps. intros j Hj. apply Hf. lia.
Qed.

Lemma layer_sum_bound (l : list Node) m :
  (forall i, (i < length l)%nat -> (layer (l !!! i) <= m)%nat) ->
  (layer_sum l <= length l * m)%nat.
Proof.
  unfold layer_sum. induction l as [|n l IH]; intros Hl; simpl; [lia|].
  pose proof (Hl 0%nat ltac:(simpl; lia)). simpl in *.
  enough (sum_list (map layer l) <= length l * m)%nat by lia.
  apply IH. intros i Hi. apply (Hl (S i)). simpl. lia.
Qed.

Lemma tc_layer_lt (ns : list Node) u v :
  (forall a b, edge_rel ns a b -> (layer (ns !!! a) < layer (ns !!! b))%nat) ->
  tc (edge_rel ns) u v -> (layer (ns !!! u) < layer (ns !!! v))%nat.
Proof.
  intros Hl. induction 1 as [x y Hxy|x y z Hxy _ IH]; [by apply Hl|].
  pose proof (Hl _ _ Hxy). lia.
Qed.

(** Toposort keeps the vertex arena and the edges; only layers move. *)
Definition same_graph (ns0 ns : list Node) : Prop :=
  length ns = length ns0 /\ forall i, downward (ns !!! i) = downward (ns0 !!! i).

Lemma same_graph_edge ns0 ns a b :
  same_graph ns0 ns -> edge_rel ns a b <-> edge_rel ns0 a b.
Proof. intros [Hl Hd]. unfold edge_rel. by rewrite Hl, Hd. Qed.

Lemma topo_pass_graph ns0 ns :
  same_graph ns0 ns -> same_graph ns0 (topo_pass hs_iter ns).1.
Proof.
  intros [Hl Hd]. unfold topo_pass, topo_pass_from. split.
  - rewrite topo_fold_len. done.
  - intros i. rewrite topo_fold_down. apply Hd.
Qed.

Lemma topo_pass_walks ns0 ns :
  same_graph ns0 ns -> layer_walks (edge_rel ns0) ns ->
  layer_walks (edge_rel ns0) (topo_pass hs_iter ns).1.
Proof.
  intros Hg Hw. unfold topo_pass, topo_pass_from. apply topo_fold_walks; [| |done].
  - intros a b Ha Hb. apply (same_graph_edge ns0 ns); [done|].
    apply elem_of_seq in Ha. split; [lia|done].
  - intros a Ha. apply elem_of_seq in Ha. simpl. lia.
Qed.

Lemma topo_pass_no_change ns :
  (topo_pass hs_iter ns).2 = false ->
  (topo_pass hs_iter ns).1 = ns /\
  forall a b, edge_rel ns a b -> (layer (ns !!! a) < layer (ns !!! b))%nat.
Proof.
  unfold topo_pass, topo_pass_from. intros H.
  destruct (topo_fold_false _ _ _ H) as (_ & -> & Hl). split; [done|].
  intros a b [Ha Hb]. apply Hl; [apply elem_of_seq; lia|done].
Qed.

Lemma topo_pass_change ns :
  (forall a b, edge_rel ns a b -> (b < length ns)%nat) ->
  (topo_pass hs_iter ns).2 = true ->
  (layer_sum ns < layer_sum (topo_pass hs_iter ns).1)%nat.
Proof.
  unfold topo_pass, topo_pass_from. intros Hr H. apply topo_fold_true; [|done|done].
  intros a b Ha Hb. apply (Hr a b). split; [apply elem_of_seq in Ha; lia|done].
Qed.

Section Loop.

Variable ns0 : list Node.
Hypothesis ns0_range : forall a b, edge_rel ns0 a b -> (b < length ns0)%nat.

Lemma loop_cyclic fuel iter bound ns :
  same_graph ns0 ns -> has_cycle ns0 -> topo_loop hs_iter fuel iter bound ns = Err CycleFound.
Proof.
  revert iter ns. induction fuel as [|fuel IH]; intros iter ns Hg [v Hv]; simpl; [done|].
  destruct (topo_pass hs_iter ns) as [ns' ch] eqn:E.
  destruct ch.
  - case_match; [done|]. apply IH; [|by exists v].
    pose proof (topo_pass_graph ns0 ns Hg) as Hg'. by rewrite E in Hg'.
  - exfalso. pose proof (topo_pass_no_change ns) as Hn. rewrite E in Hn.
    destruct (Hn eq_refl) as [_ Hl].
    assert (tc (edge_rel ns) v v) as Hv'.
    { eapply tc_congruence with (f := fun x => x); [|exact Hv].
      intros a b Hab. by apply (same_graph_edge ns0 ns). }
    pose proof (tc_layer_lt ns v v Hl Hv'). lia.
Qed.

Lemma loop_acyclic fuel iter ns :
  (0 < length ns0)%nat -> ~ has_cycle ns0 ->
  (fuel + iter = S (length ns0 * length ns0))%nat ->
  (iter <= layer_sum ns)%nat ->
  same_graph ns0 ns -> layer_walks (edge_rel ns0) ns ->
  exists ns', topo_loop hs_iter fuel iter (length ns0 * length ns0) ns = Ok ns' /\
    same_graph ns0 ns' /\
    forall a b, edge_rel ns' a b -> (layer (ns' !!! a) < layer (ns' !!! b))%nat.
Proof.
  intros Hpos Hac. revert iter ns.
  induction fuel as [|fuel IH]; intros iter ns Hf Hit Hg Hw.
  all: assert (layer_sum ns <= length ns0 * (length ns0 - 1))%nat as Hsum.
  all: try (destruct Hg as [Hl Hd]; rewrite <- Hl; apply layer_sum_bound; intros v Hv;
    destruct (Hw v Hv) as [->|[u Hu]]; [lia|];
    destruct (decide (length ns0 <= layer (ns !!! v))%nat) as [Hge|Hlt]; [|lia];
    exfalso; apply Hac; eapply long_walk_cycle; [exact ns0_range|exact Hu|lia|exact Hge]).
  - exfalso. simpl in Hf. nia.
  - simpl. destruct (topo_pass hs_iter ns) as [ns' ch] eqn:E.
    pose proof (topo_pass_graph ns0 ns Hg) as Hg'. rewrite E in Hg'. simpl in Hg'.
    destruct ch.
    + pose proof (topo_pass_change ns) as Hc. rewrite E in Hc. simpl in Hc.
      assert (layer_sum ns < layer_sum ns')%nat as Hlt.
      { apply Hc; [|done]. intros a b Hab. pose proof Hg as [Hl _]. rewrite Hl.
        apply (ns0_range a). by apply (same_graph_edge ns0 ns a b Hg). }
      assert (layer_sum ns' <= length ns0 * (length ns0 - 1))%nat as Hsum'.
      { destruct Hg' as [Hl Hd]. rewrite <- Hl. apply layer_sum_bound. intros v Hv.
        pose proof (topo_pass_walks ns0 ns Hg Hw) as Hw'. rewrite E in Hw'; simpl in Hw'.
        destruct (Hw' v Hv) as [->|[u Hu]]; [lia|].
        destruct (decide (length ns0 <= layer (ns' !!! v))%nat) as [Hge|Hlt']; [|lia].
        exfalso. apply Hac. eapply long_walk_cycle; [exact ns0_range|exact Hu|lia|exact Hge]. }
      rewrite (proj2 (Nat.ltb_ge _ _)) by nia.
      apply IH; [lia|lia|done|].
      pose proof (topo_pass_walks ns0 ns Hg Hw) as Hw'. by rewrite E in Hw'.
    + pose proof (topo_pass_no_change ns) as Hn. rewrite E in Hn. simpl in Hn.
      destruct (Hn eq_refl) as [-> Hl].
      rewrite (proj2 (Nat.ltb_ge _ _)) by nia.
      eexists. split_and!; [done|done|done].
Qed.

End Loop.

(** Leveling from the all-zero layering of a non-empty, well-indexed arena. *)
Lemma toposort_spec ctx :
  in_range ctx -> (0 < length (nodes ctx))%nat ->
  (forall i, layer (nodes ctx !!! i) = 0%nat) ->
  (toposort hs_iter ctx = Err CycleFound <-> has_cycle (nodes ctx)) /\
  forall ctx', toposort hs_iter ctx = Ok ctx' ->
    labels ctx' = labels ctx /\ id ctx' = id ctx /\ layers ctx' = layers ctx /\
    same_graph (nodes ctx) (nodes ctx') /\
    forall a b, edge_rel (nodes ctx') a b -> (layer (nodes ctx' !!! a) < layer (nodes ctx' !!! b))%nat.
Proof.
  intros [Hr _] Hpos H0.
  assert (forall a b, edge_rel (nodes ctx) a b -> (b < length (nodes ctx))%nat) as Hrange.
  { intros a b [Ha Hb]. apply (Hr a b Ha). set_solver. }
  assert (same_graph (nodes ctx) (nodes ctx)) as Hg by done.
  unfold toposort.
  destruct (classic (has_cycle (nodes ctx))) as [Hc|Hc].
  { rewrite (loop_cyclic (nodes ctx)); [|done|done]. split; [done|]. by intros ? ?. }
  destruct (loop_acyclic (nodes ctx) Hrange (S (length (nodes ctx) * length (nodes ctx))) 0
    (nodes ctx)) as (ns' & Hl & Hg' & Hlt); [done|done|lia|lia|done| |].
  { intros v _. left. apply H0. }
  rewrite Hl. split; [split; [done|by intros]|].
  intros ctx' [= <-]. simpl. split_and!; [done..|].
  intros a b Hab. by apply Hlt.
Qed.

End Toposort.

(** ** C7 *)

(** C7: after [resolve_crossings], a layer that was not yet bus-enabled is
    enabled iff its edge list stably sorted by (parent row, child row)
    differs from the same list sorted by (child row, parent row); an enabled
    layer has no direct edges, and a layer left disabled keeps its edge
    list (and every layer keeps its vertices). *)
Theorem resolve_crossings_enabled_iff_orders_differ (ctx : Context) (i : nat) (l : Layer) :
  layers ctx !! i = Some l -> enabled (l_adapter l) = false ->
  let ns := nodes ctx in
  let up := sort_by (fun e f => lex_lt (row (ns !!! e_up e), row (ns !!! e_down e))
                                       (row (ns !!! e_up f), row (ns !!! e_down f))) (l_edges l) in
  let down := sort_by (fun e f => lex_lt (row (ns !!! e_down e), row (ns !!! e_up e))
                                         (row (ns !!! e_down f), row (ns !!! e_up f))) (l_edges l) in
  exists l', layers (resolve_crossings ctx) !! i = Some l' /\
    l_nodes l' = l_nodes l /\
    (enabled (l_adapter l') = true <-> up <> down) /\
    (enabled (l_adapter l') = true -> l_edges l' = []) /\
    (enabled (l_adapter l') = false -> l_edges l' = l_edges l).
Proof.
  intros Hl Hd ns up down. exists (resolve_layer (nodes ctx) l).
  split; [simpl; by rewrite list_lookup_fmap, Hl|].
  unfold resolve_layer. fold ns. fold up. fold down.
  case_decide as E; simpl.
  - rewrite Hd. split_and!; [done| |done|done]. split; [discriminate|done].
  - split_and!; [done| |done|discriminate]. split; [done|intros _; reflexivity].
Qed.

(** ** The router's grid *)

Section Grid.

Open Scope nat_scope.

Variables w h : nat.

(** The lane edge that [build_cell] writes at slot [index x y l]: [l = 0]
    vertical, [l = 1] horizontal, [l = 2] the corner of the cell. *)
Definition lane_cond (x y l : nat) : bool :=
  match l with
  | 0 => negb (y =? h - 1)
  | 1 => (1 <=? y) && (y <=? h - 3) && negb (x =? w - 1)
  | _ => true
  end.
Definition lane_a (x y l : nat) : nat :=
  match l with 0 => index w h x y 0 | 1 => index w h x y 1 | _ => index w h x y 0 end.
Definition lane_b (x y l : nat) : nat :=
  match l with 0 => index w h x (S y) 0 | 1 => index w h (S x) y 1 | _ => index w h x y 1 end.
Definition lane_wt (y l : nat) : Z :=
  match l with
  | 0 | 1 => 1%Z
  | _ => let dy := (Z.quot (Z.of_nat h) 2 - Z.of_nat y)%Z in (10 + dy * dy)%Z
  end.
Definition lane_edge (x y l : nat) : REdge := mkREdge (lane_a x y l) (lane_b x y l) (lane_wt y l) 0.

Definition lane_step (x y l : nat) (g : list RNode * list REdge) : list RNode * list REdge :=
  if lane_cond x y l then connect (index w h x y l) (lane_a x y l) (lane_b x y l) (lane_wt y l) g
  else g.

Lemma build_cell_steps g x y :
  build_cell w h g x y = lane_step x y 2 (lane_step x y 1 (lane_step x y 0 g)).
Proof. reflexivity. Qed.

Lemma divmod_inj (m a b q r : nat) : a < m -> b < m -> a + m * q = b + m * r -> a = b /\ q = r.
Proof.
  intros Ha Hb E. destruct (Nat.lt_total q r) as [H|[H|H]].
  - exfalso. assert (m * q + m <= m * r) by nia. lia.
  - subst. lia.
  - exfalso. assert (m * r + m <= m * q) by nia. lia.
Qed.

Lemma index_inj x y l x' y' l' :
  x < w -> x' < w -> y < h -> y' < h -> index w h x y l = index w h x' y' l' ->
  x = x' /\ y = y' /\ l = l'.
Proof.
  unfold index. intros Hx Hx' Hy Hy' E.
  destruct (divmod_inj w x x' _ _ Hx Hx' E) as [-> E'].
  destruct (divmod_inj h y y' _ _ Hy Hy' E') as [-> E''].
  split; [done|split; [done|]]. destruct h; [lia|]. nia.
Qed.

Lemma index_lt x y l : x < w -> y < h -> index w h x y l < w * h * S l.
Proof. unfold index. intros. nia. Qed.

(** Slots written by [build_graph] so far, and what they hold. *)
Definition grid_inv (D : nat -> nat -> nat -> bool) (g : list RNode * list REdge) : Prop :=
  length g.1 = w * h * 2 /\ length g.2 = w * h * 3 /\
  (forall x y l, x < w -> y < h -> l < 3 ->
     g.2 !!! index w h x y l = if D x y l && lane_cond x y l then lane_edge x y l else redge_default) /\
  (forall v ei, ei ∈ r_edges (g.1 !!! v) <->
     exists x y l, x < w /\ y < h /\ l < 3 /\ ei = index w h x y l /\ D x y l = true /\
       lane_cond x y l = true /\ (v = lane_a x y l \/ v = lane_b x y l)).

Lemma grid_inv_ext D D' g :
  (forall x y l, x < w -> y < h -> l < 3 -> D x y l && lane_cond x y l = D' x y l && lane_cond x y l) ->
  grid_inv D g -> grid_inv D' g.
Proof.
  intros HD (H1 & H2 & H3 & H4). split_and!; [done|done| |].
  - intros x y l Hx Hy Hl. rewrite <- HD by done. by apply H3.
  - intros v ei. rewrite H4. split; intros (x & y & l & Hx & Hy & Hl & ? & HDx & Hc & ?);
      exists x, y, l; split_and!; try done.
    + pose proof (HD x y l Hx Hy Hl) as E. rewrite HDx, Hc in E. simpl in E.
      by destruct (D' x y l).
    + pose proof (HD x y l Hx Hy Hl) as E. rewrite HDx, Hc in E. simpl in E.
      by destruct (D x y l).
Qed.

Lemma lane_ends_lt x y l : x < w -> y < h -> l < 3 -> lane_cond x y l = true ->
  lane_a x y l < w * h * 2 /\ lane_b x y l < w * h * 2.
Proof.
  intros Hx Hy Hl Hc. unfold lane_a, lane_b, index.
  destruct l as [|[|[|l]]]; simpl in Hc; try lia.
  - apply negb_true_iff, Nat.eqb_neq in Hc. split; nia.
  - apply andb_true_iff in Hc as [Hc Hc']. apply andb_true_iff in Hc as [_ _].
    apply negb_true_iff, Nat.eqb_neq in Hc'. split; nia.
  - split; nia.
Qed.

Lemma r_edges_connect (rn : list RNode) idx a b v :
  a < length rn -> b < length rn ->
  r_edges (alter (push_edge idx) b (alter (push_edge idx) a rn) !!! v) =
  r_edges (rn !!! v) ++ (if decide (v = a) then [idx] else []) ++ (if decide (v = b) then [idx] else []).
Proof.
  intros Ha Hb. rewrite !list_lookup_total_alter, length_alter.
  repeat case_decide; split_conj; subst; simpl; rewrite ?app_nil_r; try done;
    try (rewrite <- app_assoc; done); exfalso; rewrite ?length_alter in *; intuition lia.
Qed.

Lemma eqb3_true x y l x0 y0 l0 :
  ((x =? x0) && (y =? y0) && (l =? l0)) = true <-> x = x0 /\ y = y0 /\ l = l0.
Proof. rewrite !andb_true_iff, !Nat.eqb_eq. tauto. Qed.

Lemma lane_step_inv D D' g x0 y0 l0 :
  grid_inv D g -> x0 < w -> y0 < h -> l0 < 3 -> D x0 y0 l0 = false ->
  (forall x y l, x < w -> y < h -> l < 3 ->
     D' x y l = D x y l || ((x =? x0) && (y =? y0) && (l =? l0))) ->
  grid_inv D' (lane_step x0 y0 l0 g).
Proof.
  intros (H1 & H2 & H3 & H4) Hx0 Hy0 Hl0 HD0 HD'.
  unfold lane_step. destruct (lane_cond x0 y0 l0) eqn:Hc.
  - destruct g as [rn re]. unfold connect. simpl in *.
    destruct (lane_ends_lt x0 y0 l0 Hx0 Hy0 Hl0 Hc) as [Ha Hb].
    pose proof (index_lt x0 y0 l0 Hx0 Hy0) as Hi.
    assert (index w h x0 y0 l0 < w * h * 3) as Hi3.
    { eapply Nat.lt_le_trans; [exact Hi|]. apply Nat.mul_le_mono_l. lia. }
    split_and!; simpl.
    + by rewrite !length_alter.
    + by rewrite length_alter.
    + intros x y l Hx Hy Hl. rewrite list_lookup_total_alter, HD' by done.
      case_decide as E.
      * destruct E as [E _]. destruct (index_inj x0 y0 l0 x y l) as (<- & <- & <-); try done.
        rewrite HD0, !Nat.eqb_refl, Hc. simpl. rewrite H3, HD0 by done. reflexivity.
      * rewrite H3 by done.
        destruct ((x =? x0) && (y =? y0) && (l =? l0)) eqn:E'.
        -- exfalso. apply eqb3_true in E' as (-> & -> & ->). apply E. split; [done|lia].
        -- by rewrite orb_false_r.
    + intros v ei. rewrite r_edges_connect by lia. rewrite !elem_of_app, H4. split.
      * intros [(x & y & l & Hx & Hy & Hl & Hei & HD & Hcl & Hv)|[Hm|Hm]].
        -- exists x, y, l. split_and!; try done. rewrite HD', HD by done. done.
        -- case_decide; [|by apply elem_of_nil in Hm]. apply list_elem_of_singleton in Hm.
           exists x0, y0, l0. split_and!; try done; [|by left].
           rewrite HD', !Nat.eqb_refl by done. apply orb_true_r.
        -- case_decide; [|by apply elem_of_nil in Hm]. apply list_elem_of_singleton in Hm.
           exists x0, y0, l0. split_and!; try done; [|by right].
           rewrite HD', !Nat.eqb_refl by done. apply orb_true_r.
      * intros (x & y & l & Hx & Hy & Hl & Hei & HD & Hcl & Hv).
        rewrite HD' in HD by done. apply orb_true_iff in HD as [HD|HD].
        -- left. exists x, y, l. by split_and!.
        -- apply eqb3_true in HD as (-> & -> & ->). subst ei. right.
           destruct Hv as [->| ->].
           ++ left. rewrite decide_True by done. by apply list_elem_of_singleton.
           ++ right. rewrite decide_True by done. by apply list_elem_of_singleton.
  - destruct g as [rn re]. apply (grid_inv_ext D); [|done].
    intros x y l Hx Hy Hl. rewrite HD' by done.
    destruct ((x =? x0) && (y =? y0) && (l =? l0)) eqn:E; [|by rewrite orb_false_r].
    apply eqb3_true in E as (-> & -> & ->). by rewrite HD0, Hc.
Qed.

(** Cells [(x, y)] with [y * w + x < k] are done, and lanes [l < j] of the
    cell [k]. *)
Definition grid_done (k j x y l : nat) : bool :=
  (y * w + x <? k) || ((y * w + x =? k) && (l <? j)).

Lemma grid_done_step k j x y x' y' l' :
  k = y * w + x -> x < w -> x' < w ->
  grid_done k (S j) x' y' l' = grid_done k j x' y' l' || ((x' =? x) && (y' =? y) && (l' =? j)).
Proof.
  intros -> Hx Hx'. unfold grid_done.
  destruct (decide (y' * w + x' = y * w + x)) as [E|E].
  - destruct (divmod_inj w x' x y' y Hx' Hx) as [-> ->]; [lia|].
    rewrite Nat.ltb_irrefl, !Nat.eqb_refl. simpl.
    apply Bool.eq_iff_eq_true. rewrite orb_true_iff, !Nat.ltb_lt, Nat.eqb_eq. lia.
  - assert ((y' * w + x' =? y * w + x) = false) as -> by (apply Nat.eqb_neq; done).
    destruct ((x' =? x) && (y' =? y) && (l' =? j)) eqn:E'; [|by rewrite !orb_false_r].
    apply eqb3_true in E' as (-> & -> & ->). done.
Qed.

Lemma grid_done_next k x y l : l < 3 -> grid_done k 3 x y l = grid_done (S k) 0 x y l.
Proof.
  intros Hl. unfold grid_done. apply Bool.eq_iff_eq_true.
  rewrite !orb_true_iff, !andb_true_iff, !Nat.ltb_lt, !Nat.eqb_eq. lia.
Qed.

Lemma cell_inv g x y :
  x < w -> y < h -> grid_inv (grid_done (y * w + x) 0) g ->
  grid_inv (grid_done (S (y * w + x)) 0) (build_cell w h g x y).
Proof.
  intros Hx Hy Hg. rewrite build_cell_steps.
  assert (forall j, j < 3 -> grid_done (y * w + x) j x y j = false) as Hf.
  { intros j Hj. unfold grid_done. rewrite Nat.ltb_irrefl, Nat.eqb_refl, Nat.ltb_irrefl. done. }
  apply (grid_inv_ext (grid_done (y * w + x) 3)).
  { intros x' y' l' _ _ Hl. by rewrite grid_done_next. }
  apply (lane_step_inv (grid_done (y * w + x) 2)); [|lia|lia|lia|apply Hf; lia|];
    [|intros x' y' l' Hx' _ _; by apply grid_done_step].
  apply (lane_step_inv (grid_done (y * w + x) 1)); [|lia|lia|lia|apply Hf; lia|];
    [|intros x' y' l' Hx' _ _; by apply grid_done_step].
  apply (lane_step_inv (grid_done (y * w + x) 0)); [|lia|lia|lia|apply Hf; lia|];
    [done|intros x' y' l' Hx' _ _; by apply grid_done_step].
Qed.

Lemma row_inv y : y < h -> forall n x g, x + n <= w ->
  grid_inv (grid_done (y * w + x) 0) g ->
  grid_inv (grid_done (y * w + x + n) 0) (foldl (fun g x => build_cell w h g x y) g (seq x n)).
Proof.
  intros Hy. induction n as [|n IH]; intros x g Hn Hg; simpl.
  - by rewrite Nat.add_0_r.
  - replace (y * w + x + S n) with (y * w + S x + n) by lia.
    apply IH; [lia|]. replace (y * w + S x) with (S (y * w + x)) by lia.
    apply cell_inv; [lia|done|done].
Qed.

Lemma rows_inv : forall n y g, y + n <= h ->
  grid_inv (grid_done (y * w) 0) g ->
  grid_inv (grid_done ((y + n) * w) 0)
    (foldl (fun g y => foldl (fun g x => build_cell w h g x y) g (seq 0 w)) g (seq y n)).
Proof.
  induction n as [|n IH]; intros y g Hn Hg; simpl.
  - by rewrite Nat.add_0_r.
  - replace ((y + S n) * w) with ((S y + n) * w) by lia.
    apply IH; [lia|].
    pose proof (row_inv y ltac:(lia) w 0 g ltac:(lia) ltac:(by rewrite Nat.add_0_r)) as H.
    by replace (y * w + 0 + w) with (S y * w) in H by lia.
Qed.

Lemma replicate_total {A} `{Inhabited A} n (v : A) i :
  v = inhabitant -> replicate n v !!! i = v.
Proof.
  intros ->. rewrite list_lookup_total_alt.
  destruct (replicate n inhabitant !! i) eqn:E; [|done].
  by apply lookup_replicate in E as [-> _].
Qed.

Lemma build_graph_inv : grid_inv (fun _ _ _ => true) (build_graph w h).
Proof.
  apply (grid_inv_ext (grid_done (h * w) 0)).
  { intros x y l Hx Hy _. unfold grid_done.
    assert (y * w + x < h * w) by nia. by rewrite (proj2 (Nat.ltb_lt _ _) H). }
  unfold build_graph. apply (rows_inv h 0); [lia|].
  split_and!; simpl.
  - apply length_replicate.
  - apply length_replicate.
  - intros x y l _ _ _. unfold grid_done. rewrite ?Nat.mul_0_l.
    rewrite andb_false_r. simpl. by apply replicate_total.
  - intros v ei. rewrite replicate_total by done. simpl. rewrite elem_of_nil. split; [done|].
    intros (x & y & l & _ & _ & _ & _ & HD & _). unfold grid_done in HD.
    rewrite andb_false_r, orb_false_r in HD. apply Nat.ltb_lt in HD. lia.
Qed.

Lemma lane_cond_spec x y l :
  lane_cond x y l = true <->
  match l with 0 => y <> h - 1 | 1 => 1 <= y /\ y <= h - 3 /\ x <> w - 1 | _ => True end.
Proof.
  unfold lane_cond. destruct l as [|[|l]]; cbn -[Nat.leb Nat.eqb Nat.sub].
  - rewrite negb_true_iff, Nat.eqb_neq. done.
  - rewrite !andb_true_iff, negb_true_iff, Nat.eqb_neq, !Nat.leb_le. tauto.
  - done.
Qed.

Lemma edges_between_build a b ei :
  ei ∈ edges_between (build_graph w h) a b <->
  exists x y l, x < w /\ y < h /\ l < 3 /\ ei = index w h x y l /\ lane_cond x y l = true /\
    (build_graph w h).2 !!! ei = lane_edge x y l /\
    ((a = lane_a x y l /\ b = lane_b x y l) \/ (a = lane_b x y l /\ b = lane_a x y l)).
Proof.
  destruct build_graph_inv as (_ & _ & H3 & H4).
  unfold edges_between. rewrite list_elem_of_filter, H4. split.
  - intros [Hab (x & y & l & Hx & Hy & Hl & -> & _ & Hc & Hv)].
    rewrite H3, Hc in Hab by done. simpl in Hab.
    exists x, y, l. split_and!; try done; [by rewrite H3, Hc|]. simpl in Hab.
    destruct Hab as [[<- <-]|[<- <-]]; [left|right]; done.
  - intros (x & y & l & Hx & Hy & Hl & -> & Hc & He & Hab).
    rewrite He. simpl. split; [destruct Hab as [[-> ->]|[-> ->]]; [left|right]; done|].
    exists x, y, l. split_and!; try done. destruct Hab as [[-> ->]|[-> ->]]; [left|right]; done.
Qed.

Ltac index_inj_all :=
  repeat match goal with
  | H : index w h ?a ?b ?c = index w h ?d ?e ?f |- _ =>
    let E := fresh "E" in
    pose proof (index_inj a b c d e f ltac:(lia) ltac:(lia) ltac:(lia) ltac:(lia) H) as E;
    clear H; destruct E as (? & ? & ?)
  end.

Lemma lane_present x y l :
  x < w -> y < h -> l < 3 -> lane_cond x y l = true ->
  index w h x y l ∈ edges_between (build_graph w h) (lane_a x y l) (lane_b x y l).
Proof.
  intros Hx Hy Hl Hc. apply edges_between_build. exists x, y, l. split_and!; try done; [|by left].
  destruct build_graph_inv as (_ & _ & H3 & _). by rewrite H3, Hc.
Qed.

Lemma horizontal_edges x y ei :
  S x < w -> y < h -> ei ∈ edges_between (build_graph w h) (index w h x y 1) (index w h (S x) y 1) ->
  ei = index w h x y 1 /\ lane_cond x y 1 = true /\ weight ((build_graph w h).2 !!! ei) = 1%Z.
Proof.
  intros Hx Hy (x' & y' & l & Hx' & Hy' & Hl & -> & Hc & He & Hab)%edges_between_build.
  rewrite He. pose proof Hc as Hc'. apply lane_cond_spec in Hc'.
  destruct l as [|[|[|l]]]; [| |simpl in Hab|lia];
    unfold lane_a, lane_b in Hab; destruct Hab as [[? ?]|[? ?]]; index_inj_all; subst; try lia.
  done.
Qed.

Lemma vertical_edges x y ei :
  x < w -> S y < h -> ei ∈ edges_between (build_graph w h) (index w h x y 0) (index w h x (S y) 0) ->
  ei = index w h x y 0 /\ weight ((build_graph w h).2 !!! ei) = 1%Z.
Proof.
  intros Hx Hy (x' & y' & l & Hx' & Hy' & Hl & -> & Hc & He & Hab)%edges_between_build.
  rewrite He. pose proof Hc as Hc'. apply lane_cond_spec in Hc'.
  destruct l as [|[|[|l]]]; [| |simpl in Hab|lia];
    unfold lane_a, lane_b in Hab; destruct Hab as [[? ?]|[? ?]]; index_inj_all; subst; try lia.
  done.
Qed.

(** ** C5 *)

(** C5 (as the code has it): in the grid built for a trial height [h >= 3],
    a horizontal lane edge from column [x] to [x + 1] exists at row [y] iff
    [1 <= y <= h - 3] (the top row and the two bottom rows have none), and
    every such edge has cost 1; the vertical lane edge from row [y] to
    [y + 1] exists for every [y < h - 1], with cost 1. *)
Theorem router_grid_lanes (x y : nat) :
  3 <= h -> x < w -> y < h ->
  (S x < w ->
     (edges_between (build_graph w h) (index w h x y 1) (index w h (S x) y 1) <> [] <->
      1 <= y /\ y <= h - 3) /\
     forall ei, ei ∈ edges_between (build_graph w h) (index w h x y 1) (index w h (S x) y 1) ->
       weight ((build_graph w h).2 !!! ei) = 1%Z) /\
  (S y < h ->
     edges_between (build_graph w h) (index w h x y 0) (index w h x (S y) 0) <> [] /\
     forall ei, ei ∈ edges_between (build_graph w h) (index w h x y 0) (index w h x (S y) 0) ->
       weight ((build_graph w h).2 !!! ei) = 1%Z).
Proof.
  intros Hh Hx Hy. split; intros Hs.
  - split; [split|].
    + intros Hne. destruct (edges_between (build_graph w h) (index w h x y 1)
        (index w h (S x) y 1)) as [|ei l] eqn:E; [done|].
      assert (ei ∈ edges_between (build_graph w h) (index w h x y 1) (index w h (S x) y 1)) as Hm
        by (rewrite E; left).
      destruct (horizontal_edges x y ei Hs Hy Hm) as (_ & Hc & _).
      apply lane_cond_spec in Hc. lia.
    + intros Hr Hn.
      assert (lane_cond x y 1 = true) as Hc by (apply lane_cond_spec; lia).
      pose proof (lane_present x y 1 Hx Hy ltac:(lia) Hc) as Hm. simpl in Hm.
      rewrite Hn in Hm. by apply elem_of_nil in Hm.
    + intros ei Hm. by destruct (horizontal_edges x y ei Hs Hy Hm) as (_ & _ & ?).
  - split.
    + intros Hn.
      assert (lane_cond x y 0 = true) as Hc by (apply lane_cond_spec; lia).
      pose proof (lane_present x y 0 Hx Hy ltac:(lia) Hc) as Hm. simpl in Hm.
      rewrite Hn in Hm. by apply elem_of_nil in Hm.
    + intros ei Hm. by destruct (vertical_edges x y ei Hx Hs Hm) as (_ & ?).
Qed.

(** The shape of a router graph: every edge slot listed at a node joins
    that node to a different one, costs at least 1, and is listed at both
    of its ends. *)
Definition rgraph_ok (rn : list RNode) (re : list REdge) : Prop :=
  forall v ei, ei ∈ r_edges (rn !!! v) ->
    (ea (re !!! ei) = v \/ eb (re !!! ei) = v) /\ ea (re !!! ei) <> eb (re !!! ei) /\
    (1 <= weight (re !!! ei))%Z /\
    ei ∈ r_edges (rn !!! ea (re !!! ei)) /\ ei ∈ r_edges (rn !!! eb (re !!! ei)).

Lemma lane_a_ne_b x y l : x < w -> y < h -> l < 3 -> lane_a x y l <> lane_b x y l.
Proof. intros Hx Hy Hl. unfold lane_a, lane_b, index. destruct l as [|[|[|l]]]; try lia; nia. Qed.

Lemma lane_wt_pos y l : (1 <= lane_wt y l)%Z.
Proof.
  unfold lane_wt. destruct l as [|[|l]]; [lia|lia|].
  generalize (Z.quot (Z.of_nat h) 2 - Z.of_nat y)%Z. intros d. nia.
Qed.

Lemma build_graph_rgraph : rgraph_ok (build_graph w h).1 (build_graph w h).2.
Proof.
  destruct build_graph_inv as (_ & _ & H3 & H4).
  intros v ei Hei. pose proof Hei as Hei'.
  apply H4 in Hei' as (x & y & l & Hx & Hy & Hl & -> & _ & Hc & Hv).
  rewrite H3 by done. rewrite Hc. cbn.
  pose proof (lane_a_ne_b x y l Hx Hy Hl). pose proof (lane_wt_pos y l).
  split_and!; try done.
  - destruct Hv as [->| ->]; [by left|by right].
  - apply H4. exists x, y, l. split_and!; try done. by left.
  - apply H4. exists x, y, l. split_and!; try done. by right.
Qed.

End Grid.

Section Complete.

Variable hs_iter : gset nat -> list nat.
Hypothesis hs_iter_perm : forall s, hs_iter s ≡ₚ elements s.

Open Scope nat_scope.

Lemma lookup_total_ge {A} `{Inhabited A} (l : list A) i : length l <= i -> l !!! i = inhabitant.
Proof. intros Hi. by rewrite list_lookup_total_alt, lookup_ge_None_2. Qed.

Lemma layer_alter (f : Node -> Node) k (l : list Node) i :
  (forall n, layer (f n) = layer n) -> layer (alter f k l !!! i) = layer (l !!! i).
Proof.
  intros Hf. rewrite list_lookup_total_alter. case_decide as E; [|done].
  destruct E as [-> _]. apply Hf.
Qed.

(** The vertices after splicing a connector into the edge [a -> b]. *)
Lemma add_connector_down ctx a b i :
  a < length (nodes ctx) -> b < length (nodes ctx) -> a <> b ->
  downward (nodes (add_connector ctx a b) !!! i) =
    if decide (i = a) then {[length (nodes ctx)]} ∪ (downward (nodes ctx !!! a) ∖ {[b]})
    else if decide (i = length (nodes ctx)) then {[b]} ∪ ∅
    else downward (nodes ctx !!! i).
Proof.
  intros Ha Hb Hab. unfold add_connector. cbn [nodes].
  rewrite down_alter_up, down_alter_down, down_alter_up, down_alter_down,
    down_alter_upr, down_alter_downr.
  rewrite !length_alter, length_app. simpl.
  rewrite !lookup_snoc_total.
  repeat case_decide; split_conj; subst; try lia; simpl; try done.
  rewrite lookup_total_ge by lia. done.
Qed.

Lemma add_connector_layer ctx a b i :
  layer (nodes (add_connector ctx a b) !!! i) =
    if decide (i = length (nodes ctx)) then S (layer (nodes ctx !!! a))
    else layer (nodes ctx !!! i).
Proof.
  unfold add_connector. cbn [nodes].
  rewrite !layer_alter by done. rewrite lookup_snoc_total.
  repeat case_decide; try lia; try done.
  rewrite lookup_total_ge by lia. done.
Qed.

Lemma add_connector_length ctx a b :
  length (nodes (add_connector ctx a b)) = S (length (nodes ctx)).
Proof. unfold add_connector. cbn [nodes]. rewrite !length_alter, length_app. simpl. lia. Qed.

Lemma sum_map_perm {A} (F : A -> nat) l1 l2 :
  l1 ≡ₚ l2 -> sum_list (map F l1) = sum_list (map F l2).
Proof. intros H. apply sum_list_with_Permutation_proper. by apply Permutation_map. Qed.

Lemma sum_map_ext {A} (F G : A -> nat) l :
  (forall i, i ∈ l -> F i = G i) -> sum_list (map F l) = sum_list (map G l).
Proof.
  induction l as [|v l IH]; simpl; intros H; [done|].
  rewrite (H v) by left. rewrite IH; [done|]. intros i Hi. apply H. by right.
Qed.

Lemma sum_map_seq {A} `{Inhabited A} (F : A -> nat) l :
  sum_list (map F l) = sum_list (map (fun i => F (l !!! i)) (seq 0 (length l))).
Proof.
  induction l as [|v l IH]; simpl; [done|]. f_equal.
  rewrite <- seq_shift, map_map. rewrite IH. done.
Qed.

Lemma sum_seq_change (F G : nat -> nat) a d l :
  NoDup l -> a ∈ l -> (forall i, i ∈ l -> i <> a -> F i = G i) -> G a + d = F a ->
  sum_list (map G l) + d = sum_list (map F l).
Proof.
  induction l as [|v l IH]; simpl; intros Hnd Ha Hfg Hd; [by apply elem_of_nil in Ha|].
  apply NoDup_cons in Hnd as [Hv Hnd].
  destruct (decide (v = a)) as [->|Hva].
  - rewrite (sum_map_ext G F l); [lia|]. intros i Hi. symmetry. apply Hfg; [by right|].
    intros ->. done.
  - apply elem_of_cons in Ha as [->|Ha]; [done|].
    rewrite (Hfg v) by (by left || done).
    rewrite <- (IH Hnd Ha); [lia| |done]. intros i Hi. apply Hfg. by right.
Qed.

Definition down_ok (ctx : Context) : Prop :=
  forall i j, i < length (nodes ctx) -> j ∈ downward (nodes ctx !!! i) -> j < length (nodes ctx).

Definition complete_inv (ctx : Context) : Prop :=
  down_ok ctx /\
  forall a b, edge_rel (nodes ctx) a b -> layer (nodes ctx !!! a) < layer (nodes ctx !!! b).

(** The excess of the edges leaving [n]. *)
Definition excess_of (ns : list Node) (n : Node) : nat :=
  sum_list (map (fun b => layer (ns !!! b) - layer n - 1) (elements (downward n))).

Lemma span_excess_seq ns :
  span_excess ns = sum_list (map (fun i => excess_of ns (ns !!! i)) (seq 0 (length ns))).
Proof. apply (sum_map_seq (excess_of ns)). Qed.

(** Each splice shortens the total span by one. *)
Lemma span_add_connector ctx a b :
  complete_inv ctx -> a < length (nodes ctx) -> b ∈ downward (nodes ctx !!! a) ->
  S (layer (nodes ctx !!! a)) <> layer (nodes ctx !!! b) ->
  S (span_excess (nodes (add_connector ctx a b))) = span_excess (nodes ctx).
Proof.
  intros [Hok Hlt] Ha Hb Hne.
  pose proof (Hok a b Ha Hb) as Hbl.
  pose proof (Hlt a b (conj Ha Hb)) as Hab.
  assert (a <> b) as Hab' by (intros ->; lia).
  set (c := length (nodes ctx)).
  set (ns' := nodes (add_connector ctx a b)).
  assert (forall i, layer (ns' !!! i) = if decide (i = c) then S (layer (nodes ctx !!! a))
    else layer (nodes ctx !!! i)) as HL by (intros; apply add_connector_layer).
  assert (forall i, downward (ns' !!! i) =
    if decide (i = a) then {[c]} ∪ (downward (nodes ctx !!! a) ∖ {[b]})
    else if decide (i = c) then {[b]} ∪ ∅ else downward (nodes ctx !!! i)) as HD
    by (intros; by apply add_connector_down).
  rewrite !span_excess_seq.
  assert (length ns' = S c) as -> by apply add_connector_length.
  rewrite seq_S, map_app, sum_list_with_app. simpl.
  (* the new connector *)
  assert (excess_of ns' (ns' !!! c) =
    layer (nodes ctx !!! b) - layer (nodes ctx !!! a) - 2) as ->.
  { unfold excess_of. rewrite HD, decide_False, decide_True by (unfold c; lia).
    rewrite union_empty_r_L, elements_singleton. simpl.
    rewrite !HL, decide_False, decide_True by (unfold c; lia). lia. }
  (* the other vertices, and [a] *)
  set (d := layer (nodes ctx !!! b) - layer (nodes ctx !!! a) - 1).
  enough (sum_list (map (fun i => excess_of ns' (ns' !!! i)) (seq 0 c)) + d =
          sum_list (map (fun i => excess_of (nodes ctx) (nodes ctx !!! i)) (seq 0 c))) by (unfold d, c in *; lia).
  apply (sum_seq_change _ _ a); [apply NoDup_seq|apply elem_of_seq; lia| |].
  all: unfold c in *.
  - intros i Hi Hia. apply elem_of_seq in Hi.
    unfold excess_of. rewrite HD, HL, decide_False, decide_False, decide_False by lia.
    apply sum_map_ext. intros j Hj. apply elem_of_elements in Hj.
    pose proof (Hok i j ltac:(lia) Hj). rewrite HL, decide_False by lia. done.
  - unfold excess_of. rewrite HD, HL. repeat case_decide; try lia.
    assert (c ∉ downward (nodes ctx !!! a) ∖ {[b]}) as Hc.
    { intros Hc. apply elem_of_difference in Hc as [Hc _].
      pose proof (Hok a c Ha Hc). unfold c in *. lia. }
    rewrite (sum_map_perm _ _ _ (elements_union_singleton _ _ Hc)).
    assert (elements (downward (nodes ctx !!! a)) ≡ₚ
      b :: elements (downward (nodes ctx !!! a) ∖ {[b]})) as Hp.
    { rewrite (union_difference_singleton_L b (downward (nodes ctx !!! a))) at 1 by done.
      apply elements_union_singleton. set_solver. }
    rewrite (sum_map_perm _ _ _ Hp).
    simpl. rewrite (HL c), decide_True by (unfold c; done).
    rewrite (sum_map_ext (fun b0 => layer (ns' !!! b0) - layer (nodes ctx !!! a) - 1)
      (fun b0 => layer (nodes ctx !!! b0) - layer (nodes ctx !!! a) - 1)); [unfold d; lia|].
    intros j Hj. apply elem_of_elements, elem_of_difference in Hj as [Hj _].
    pose proof (Hok a j Ha Hj). rewrite HL, decide_False by (unfold c; lia). done.
Qed.

Lemma complete_inv_add ctx a b :
  complete_inv ctx -> a < length (nodes ctx) -> b ∈ downward (nodes ctx !!! a) ->
  S (layer (nodes ctx !!! a)) <> layer (nodes ctx !!! b) ->
  complete_inv (add_connector ctx a b).
Proof.
  intros [Hok Hlt] Ha Hb Hne.
  pose proof (Hok a b Ha Hb) as Hbl.
  pose proof (Hlt a b (conj Ha Hb)) as Hab.
  assert (a <> b) as Hab' by (intros ->; lia).
  unfold complete_inv, down_ok, edge_rel. rewrite add_connector_length.
  split.
  - intros i j Hi Hj. rewrite add_connector_down in Hj by done.
    repeat case_decide; subst.
    + apply elem_of_union in Hj as [Hj|Hj]; [set_solver by lia|].
      apply elem_of_difference in Hj as [Hj _]. pose proof (Hok a j Ha Hj). lia.
    + set_solver by lia.
    + pose proof (Hok i j ltac:(lia) Hj). lia.
  - intros i j [Hi Hj]. rewrite add_connector_down in Hj by done.
    rewrite !add_connector_layer.
    destruct (decide (i = a)) as [->|Hia].
    + apply elem_of_union in Hj as [Hj|Hj].
      * apply elem_of_singleton in Hj as ->. repeat case_decide; lia.
      * apply elem_of_difference in Hj as [Hj _]. pose proof (Hok a j Ha Hj).
        repeat case_decide; try lia. by apply Hlt.
    + destruct (decide (i = length (nodes ctx))) as [->|Hic].
      * apply elem_of_union in Hj as [Hj|Hj]; [|set_solver].
        apply elem_of_singleton in Hj as ->. repeat case_decide; lia.
      * pose proof (Hok i j ltac:(lia) Hj). repeat case_decide; try lia. apply Hlt; split; [lia|done].
Qed.

Lemma complete_inner_spec a downs : forall ctx,
  complete_inv ctx -> a < length (nodes ctx) -> (forall b, b ∈ downs -> b ∈ downward (nodes ctx !!! a)) ->
  let r := complete_inner a (layer (nodes ctx !!! a)) downs ctx in
  (r.2 = true /\ complete_inv r.1 /\ S (span_excess (nodes r.1)) = span_excess (nodes ctx) /\
     length (nodes r.1) = S (length (nodes ctx))) \/
  (r.2 = false /\ r.1 = ctx /\
     forall b, b ∈ downs -> layer (nodes ctx !!! b) = S (layer (nodes ctx !!! a))).
Proof.
  induction downs as [|b downs IH]; intros ctx Hi Ha Hd; cbn [complete_inner].
  - right. split_and!; [done|done|]. intros b Hb. by apply elem_of_nil in Hb.
  - destruct (S (layer (nodes ctx !!! a)) =? layer (nodes ctx !!! b)) eqn:E; cbn [negb fst snd].
    + apply Nat.eqb_eq in E.
      destruct (IH ctx Hi Ha) as [H|(H1 & H2 & H3)].
      { intros b' Hb'. apply Hd. by right. }
      * by left.
      * right. split_and!; [done|done|]. intros b' Hb'.
        apply elem_of_cons in Hb' as [->|Hb']; [done|]. by apply H3.
    + apply Nat.eqb_neq in E. left.
      assert (b ∈ downward (nodes ctx !!! a)) as Hb by (apply Hd; left).
      split_and!; [done|by apply complete_inv_add|by apply span_add_connector|].
      apply add_connector_length.
Qed.

Lemma hs_elem s b : b ∈ hs_iter s <-> b ∈ s.
Proof. rewrite (hs_iter_perm s). apply elem_of_elements. Qed.

Lemma complete_fold as_ : forall ctx flag,
  complete_inv ctx -> (forall a, a ∈ as_ -> a < length (nodes ctx)) ->
  let r := foldl (complete_step hs_iter) (ctx, flag) as_ in
  complete_inv r.1 /\ length (nodes ctx) <= length (nodes r.1) /\
  ((r.1 = ctx /\ r.2 = flag /\
     forall a b, a ∈ as_ -> b ∈ downward (nodes ctx !!! a) ->
       layer (nodes ctx !!! b) = S (layer (nodes ctx !!! a))) \/
   (r.2 = true /\ span_excess (nodes r.1) < span_excess (nodes ctx))).
Proof.
  induction as_ as [|a as_ IH]; intros ctx flag Hi Ha; simpl.
  - split_and!; [done|done|]. left. split_and!; [done|done|]. intros a b Hb. by apply elem_of_nil in Hb.
  - assert (complete_step hs_iter (ctx, flag) a =
      let r := complete_inner a (layer (nodes ctx !!! a)) (hs_iter (downward (nodes ctx !!! a))) ctx in
      (r.1, flag || r.2)) as ->.
    { unfold complete_step. simpl. by destruct (complete_inner _ _ _ _). }
    destruct (complete_inner_spec a (hs_iter (downward (nodes ctx !!! a))) ctx Hi)
      as [(H1 & H2 & H3 & H4)|(H1 & H2 & H3)].
    { apply Ha. left. }
    { intros b. apply hs_elem. }
    + destruct (complete_inner a (layer (nodes ctx !!! a)) (hs_iter (downward (nodes ctx !!! a))) ctx)
        as [c' ag] eqn:E. simpl in *. subst ag.
      destruct (IH c' (flag || true) H2) as (J1 & J2 & J3).
      { intros a' Ha'. pose proof (Ha a' ltac:(by right)). lia. }
      split_and!; [done|lia|]. right.
      destruct J3 as [(-> & -> & _)|(J3 & J4)]; split; [by rewrite orb_true_r|lia|done|lia].
    + destruct (complete_inner a (layer (nodes ctx !!! a)) (hs_iter (downward (nodes ctx !!! a))) ctx)
        as [c' ag] eqn:E. simpl in *. subst ag c'. rewrite orb_false_r.
      destruct (IH ctx flag Hi) as (J1 & J2 & J3).
      { intros a' Ha'. apply Ha. by right. }
      split_and!; [done|done|].
      destruct J3 as [(J3 & J4 & J5)|J3]; [left|by right].
      split_and!; [done|done|]. intros a' b Ha' Hb.
      apply elem_of_cons in Ha' as [->|Ha']; [apply H3, hs_elem, Hb|by apply J5].
Qed.

Lemma complete_loop_spec fuel : forall ctx,
  complete_inv ctx -> span_excess (nodes ctx) < fuel ->
  exists ctx', complete_loop hs_iter fuel ctx = Some ctx' /\ complete_inv ctx' /\
    forall a b, a < length (nodes ctx') -> b ∈ downward (nodes ctx' !!! a) ->
      layer (nodes ctx' !!! b) = S (layer (nodes ctx' !!! a)).
Proof.
  induction fuel as [|f IH]; intros ctx Hi Hf; [lia|]. simpl.
  unfold complete_pass.
  destruct (complete_fold (seq 0 (length (nodes ctx))) ctx false Hi) as (J1 & J2 & J3).
  { intros a Ha. apply elem_of_seq in Ha. lia. }
  destruct (foldl (complete_step hs_iter) (ctx, false) (seq 0 (length (nodes ctx)))) as [c' ag].
  simpl in *. destruct J3 as [(-> & -> & J3)|(-> & J3)].
  - exists ctx. split_and!; [done|done|]. intros a b Ha Hb. apply J3; [|done].
    apply elem_of_seq. lia.
  - apply IH; [done|lia].
Qed.

End Complete.

(** ** Row order *)

Section Rows.

Variable hs_iter : gset nat -> list nat.
Open Scope nat_scope.

Lemma foldl_inv {A B} (P : A -> Prop) (f : A -> B -> A) (l : list B) acc :
  P acc -> (forall acc x, x ∈ l -> P acc -> P (f acc x)) -> P (foldl f acc l).
Proof.
  revert acc. induction l as [|x l IH]; intros acc H Hf; simpl; [done|].
  apply IH; [apply Hf; [left|done]|]. intros acc' y Hy. apply Hf. by right.
Qed.

(** A permutation of [0..w], as the swap search keeps it. *)
Definition perm_ok (w : nat) (p : list nat) : Prop :=
  NoDup p /\ length p = w /\ forall v, v ∈ p -> v < w.

Lemma swap_lookup a b p i : a < length p -> b < length p ->
  swap a b p !! i = p !! (if decide (i = b) then a else if decide (i = a) then b else i).
Proof.
  intros Ha Hb. unfold swap. destruct (decide (i = b)) as [->|Hib].
  - rewrite list_lookup_insert_eq by (rewrite length_insert; lia).
    symmetry. by apply list_lookup_lookup_total_lt.
  - rewrite list_lookup_insert_ne by done. destruct (decide (i = a)) as [->|Hia].
    + rewrite list_lookup_insert_eq by lia. symmetry. by apply list_lookup_lookup_total_lt.
    + by rewrite list_lookup_insert_ne.
Qed.

Lemma swap_perm_ok w a b p : a < w -> b < w -> perm_ok w p -> perm_ok w (swap a b p).
Proof.
  intros Ha Hb (Hnd & Hl & Hr).
  assert (forall i, swap a b p !! i =
    p !! (if decide (i = b) then a else if decide (i = a) then b else i)) as Hs.
  { intros i. apply swap_lookup; lia. }
  split_and!.
  - apply NoDup_alt. intros i j v Hi Hj. rewrite Hs in Hi, Hj.
    rewrite NoDup_alt in Hnd. specialize (Hnd _ _ _ Hi Hj). repeat case_decide; lia.
  - unfold swap. by rewrite !length_insert.
  - intros v Hv. apply list_elem_of_lookup in Hv as [i Hi]. rewrite Hs in Hi.
    apply Hr. by eapply list_elem_of_lookup_2.
Qed.

Lemma swap_pass_ok w sc st : perm_ok w st.1 -> perm_ok w ((swap_pass w sc st).1).1.
Proof.
  intros H. unfold swap_pass.
  apply (foldl_inv (fun acc : (list nat * Q) * bool => perm_ok w acc.1.1)); [exact H|].
  intros [[p c] im] a Ha Hp. apply elem_of_seq in Ha.
  apply (foldl_inv (fun acc : (list nat * Q) * bool => perm_ok w acc.1.1)); [exact Hp|].
  intros [[p' c'] im'] b Hb Hp'. apply elem_of_seq in Hb. simpl in *.
  destruct (f32_lt _ _); simpl; [apply swap_perm_ok; [lia|lia|done]|done].
Qed.

Lemma repeat_pow2_inv {A} (P : A -> Prop) (body : A -> A * bool) k st :
  (forall s, P s -> P (body s).1) -> P st -> P (repeat_pow2 k body st).1.
Proof.
  intros Hb. revert st. induction k as [|k IH]; intros st H; simpl; [by apply Hb|].
  pose proof (IH st H) as H1. destruct (repeat_pow2 k body st) as [st' again].
  destruct again; simpl in *; [by apply IH|done].
Qed.

Lemma unbounded_loop_inv {A} (P : A -> Prop) body (st r : A) :
  (forall s, P s -> P (body s).1) -> P st -> unbounded_loop body st = Some r -> P r.
Proof.
  intros Hb H. unfold unbounded_loop.
  pose proof (repeat_pow2_inv P body 64 st Hb H) as H1.
  destruct (repeat_pow2 64 body st) as [st' []]; simpl in *; [done|]. by intros [= <-].
Qed.

Lemma map_lookup_total_seq (l : list nat) : map (fun i => l !!! i) (seq 0 (length l)) = l.
Proof.
  induction l as [|v l IH]; [done|]. cbn [length seq map]. f_equal.
  rewrite <- seq_shift, map_map. exact IH.
Qed.

Lemma perm_ok_nodes w p (l : list nat) :
  length l = w -> perm_ok w p -> map (fun i => l !!! i) p ≡ₚ l.
Proof.
  intros Hl (Hnd & Hp & Hr).
  assert (p ≡ₚ seq 0 w) as E.
  { apply submseteq_length_Permutation; [|by rewrite length_seq, Hp].
    apply NoDup_submseteq; [done|]. intros v Hv. apply elem_of_seq. split; [lia|]. by apply Hr. }
  rewrite E. subst w. apply Permutation_refl'. apply map_lookup_total_seq.
Qed.

Lemma set_rows_length k l ns : length (set_rows k l ns) = length ns.
Proof.
  revert k ns. induction l as [|n l IH]; intros k ns; simpl; [done|].
  by rewrite IH, length_alter.
Qed.

Lemma set_rows_other k l ns v : v ∉ l -> set_rows k l ns !!! v = ns !!! v.
Proof.
  revert k ns. induction l as [|n l IH]; intros k ns Hv; simpl; [done|].
  rewrite IH by set_solver. rewrite list_lookup_total_alter_ne; [done|set_solver].
Qed.

Lemma set_rows_map k l ns : NoDup l -> (forall v, v ∈ l -> v < length ns) ->
  map (fun v => row (set_rows k l ns !!! v)) l = seq k (length l).
Proof.
  revert k ns. induction l as [|n l IH]; intros k ns Hnd Hr; simpl; [done|].
  apply NoDup_cons in Hnd as [Hn Hnd]. f_equal.
  - rewrite set_rows_other by done. rewrite list_lookup_total_alter_eq; [done|].
    apply Hr. left.
  - apply IH; [done|]. intros v Hv. rewrite length_alter. apply Hr. by right.
Qed.

(** Two arenas with the same [row] at every index. *)
Definition rows_same (ns ns' : list Node) : Prop := forall v, row (ns' !!! v) = row (ns !!! v).

Lemma map_rows_same (F : Node -> Node) ns v :
  (forall n, row (F n) = row n) -> row (map F ns !!! v) = row (ns !!! v).
Proof.
  intros HF. revert v. induction ns as [|n ns IH]; intros [|v]; simpl; by auto.
Qed.

Lemma alter_rows_same (f : Node -> Node) i ns :
  (forall n, row (f n) = row n) -> rows_same ns (alter f i ns).
Proof. intros Hf v. rewrite list_lookup_total_alter. case_decide as H; [|done]. destruct H as [-> _]. apply Hf. Qed.

Lemma closures_rows ns ls :
  length (closures hs_iter ns ls) = length ns /\ rows_same ns (closures hs_iter ns ls).
Proof.
  unfold closures.
  apply (foldl_inv (fun ns' => length ns' = length ns /\ rows_same ns ns')); [done|].
  intros ns1 y _ [H1 H2]. unfold closure_layer.
  apply (foldl_inv (fun ns' => length ns' = length ns /\ rows_same ns ns')); [done|].
  intros ns2 up _ [H3 H4]. split; [by rewrite length_alter|].
  intros v. rewrite (alter_rows_same _ up ns2); [apply H4|done].
Qed.

Lemma optimize_layer_spec ns l ns' l' :
  optimize_layer hs_iter ns l = Some (ns', l') ->
  NoDup (l_nodes l) -> (forall v, v ∈ l_nodes l -> v < length ns) ->
  (forall v, v ∈ l_nodes l -> row (ns !!! v) = 0) ->
  length ns' = length ns /\ l_nodes l' ≡ₚ l_nodes l /\
  map (fun v => row (ns' !!! v)) (l_nodes l') = seq 0 (length (l_nodes l')) /\
  forall v, v ∉ l_nodes l -> ns' !!! v = ns !!! v.
Proof.
  unfold optimize_layer. intros H Hnd Hr H0.
  destruct (length (l_nodes l) <=? 1) eqn:Ew.
  - injection H as <- <-. split_and!; [done|done| |done].
    apply Nat.leb_le in Ew. destruct (l_nodes l) as [|v [|v' rest]] eqn:E; simpl in *; [done| |lia].
    by rewrite (H0 v ltac:(left)).
  - destruct (unbounded_loop _ _) as [[perm c]|] eqn:EL; simpl in H; [|discriminate].
    injection H as <- <-. simpl.
    assert (perm_ok (length (l_nodes l)) perm) as Hp.
    { apply (unbounded_loop_inv (fun s : list nat * Q => perm_ok (length (l_nodes l)) s.1)
        _ _ _ (fun s => swap_pass_ok _ _ s)) in EL; [exact EL|].
      split_and!; [apply NoDup_seq|apply length_seq|].
      intros v Hv. apply elem_of_seq in Hv. lia. } pose proof (perm_ok_nodes _ _ (l_nodes l) eq_refl Hp) as Hperm.
    split_and!; [apply set_rows_length|done| |].
    + apply set_rows_map; [by rewrite Hperm|]. intros v Hv. apply Hr. by rewrite <- Hperm.
    + intros v Hv. apply set_rows_other. by rewrite Hperm.
Qed.

(** The vertices of all layers, in order. *)
Definition conc (ls : list Layer) : list nat := concat (map l_nodes ls).

Lemma optimize_layers_spec ls : forall ns ns' ls',
  optimize_layers hs_iter ns ls = Some (ns', ls') ->
  NoDup (conc ls) -> (forall v, v ∈ conc ls -> v < length ns) ->
  (forall v, v ∈ conc ls -> row (ns !!! v) = 0) ->
  length ns' = length ns /\ (forall v, v ∉ conc ls -> ns' !!! v = ns !!! v) /\
  forall y l', ls' !! y = Some l' ->
    map (fun v => row (ns' !!! v)) (l_nodes l') = seq 0 (length (l_nodes l')) /\ NoDup (l_nodes l').
Proof.
  induction ls as [|l ls IH]; intros ns ns' ls' H Hnd Hr H0; simpl in H.
  - injection H as <- <-. split_and!; [done|done|]. intros y l' Hy. by rewrite lookup_nil in Hy.
  - destruct (optimize_layer hs_iter ns l) as [[n1 l1]|] eqn:E1; simpl in H; [|discriminate].
    destruct (optimize_layers hs_iter n1 ls) as [[n2 ls2]|] eqn:E2; simpl in H; [|discriminate].
    injection H as <- <-. unfold conc in *. simpl in Hnd, Hr, H0.
    apply NoDup_app in Hnd as (Hnd1 & Hdis & Hnd2).
    destruct (optimize_layer_spec ns l n1 l1 E1 Hnd1) as (A1 & A2 & A3 & A4).
    { intros v Hv. apply Hr. set_solver. }
    { intros v Hv. apply H0. set_solver. }
    destruct (IH n1 n2 ls2 E2 Hnd2) as (B1 & B2 & B3).
    { intros v Hv. rewrite A1. apply Hr. set_solver. }
    { intros v Hv. rewrite A4 by (intros Hv'; by apply (Hdis v)). apply H0. set_solver. }
    split_and!; [lia| |].
    + intros v Hv. rewrite B2 by set_solver. apply A4. set_solver.
    + intros [|y] l' Hy; simpl in Hy; [|exact (B3 y l' Hy)].
      injection Hy as <-. split; [|by rewrite A2]. rewrite <- A3.
      apply map_ext_in. intros v Hv. apply list_elem_of_In in Hv. rewrite B2; [done|].
      intros Hc. apply (Hdis v); [by rewrite <- A2|done].
Qed.

Lemma conc_alter_push j i ls :
  conc (alter (fun l => set_l_nodes (l_nodes l ++ [i]) l) j ls) ≡ₚ
  conc ls ++ (if decide (j < length ls) then [i] else []).
Proof.
  revert j. unfold conc. induction ls as [|l ls IH]; intros j.
  { simpl. by repeat case_decide. }
  destruct j as [|j]; simpl.
  - rewrite <- !app_assoc. apply Permutation_app_head, Permutation_app_comm.
  - rewrite <- app_assoc. apply Permutation_app_head. etrans; [apply IH|].
    repeat case_decide; try lia; done.
Qed.

Lemma push_nodes_conc ns : forall i ls, NoDup (conc ls) -> (forall v, v ∈ conc ls -> v < i) ->
  NoDup (conc (push_nodes i ns ls)) /\
  forall v, v ∈ conc (push_nodes i ns ls) -> v < i + length ns.
Proof.
  induction ns as [|n ns IH]; intros i ls Hnd Hb; simpl.
  - split; [done|]. intros v Hv. specialize (Hb v Hv). lia.
  - destruct (IH (S i) (alter (fun l => set_l_nodes (l_nodes l ++ [i]) l) (layer n) ls)) as [H1 H2].
    + rewrite conc_alter_push. case_decide; [|by rewrite app_nil_r].
      apply NoDup_app. split_and!; [done| |apply NoDup_singleton].
      intros v Hv Hvi. apply list_elem_of_singleton in Hvi as ->. specialize (Hb _ Hv). lia.
    + intros v Hv. rewrite conc_alter_push in Hv. apply elem_of_app in Hv as [Hv|Hv].
      * specialize (Hb v Hv). lia.
      * case_decide; [apply list_elem_of_singleton in Hv; lia|by apply elem_of_nil in Hv].
    + split; [done|]. intros v Hv. specialize (H2 v Hv). lia.
Qed.

Lemma conc_replicate k : conc (replicate k layer_default) = [].
Proof. unfold conc. induction k as [|k IH]; [done|]. exact IH. Qed.

Lemma lookup_map_Some {A B} (f : A -> B) l i b :
  map f l !! i = Some b -> exists a, l !! i = Some a /\ b = f a.
Proof.
  revert i. induction l as [|a l IH]; intros [|i] H; simpl in H; try discriminate.
  - injection H as <-. by exists a.
  - by apply IH.
Qed.

Lemma map_seq_nth (f : nat -> nat) l k :
  map f l = seq k (length l) -> forall i, i < length l -> f (l !!! i) = k + i.
Proof.
  revert k. induction l as [|v l IH]; intros k H i Hi; simpl in *; [lia|].
  injection H as H1 H2. destruct i as [|i]; simpl; [lia|].
  rewrite (IH (S k) H2 i); lia.
Qed.

(** C6: on a registry in the state the pipeline hands to [build_layers]
    (no layers yet, every [row] 0), every layer of the result lists each
    vertex once, and the rows of its vertices, read in layer order, are
    exactly [0, 1, ..., size - 1]: [layer.nodes[i]] has row [i]. *)
Theorem build_layers_rows_permutation (ctx ctx' : Context) :
  layers ctx = [] -> (forall i, row (nodes ctx !!! i) = 0) ->
  build_layers hs_iter ctx = Some ctx' ->
  forall y l, layers ctx' !! y = Some l ->
    NoDup (l_nodes l) /\
    map (fun v => row (nodes ctx' !!! v)) (l_nodes l) = seq 0 (length (l_nodes l)) /\
    forall i, i < length (l_nodes l) -> row (nodes ctx' !!! (l_nodes l !!! i)) = i.
Proof.
  intros Hl H0 Hb y l Hy. unfold build_layers in Hb. rewrite Hl in Hb.
  destruct (optimize_row_order hs_iter _) as [c|] eqn:Eo; simpl in Hb; [|discriminate].
  injection Hb as <-. unfold optimize_row_order in Eo. cbn [layers nodes labels id] in Eo.
  set (ls0 := push_nodes 0 (nodes ctx) (resize_layers _ [])) in Eo.
  destruct (push_nodes_conc (nodes ctx) 0 (resize_layers (S (foldr (fun n m => Nat.max (layer n) m) 0
    (nodes ctx))) [])) as [P1 P2].
  { unfold resize_layers. rewrite take_nil, app_nil_l, conc_replicate. constructor. }
  { unfold resize_layers. rewrite take_nil, app_nil_l, conc_replicate. intros v Hv. by apply elem_of_nil in Hv. }
  destruct (closures_rows (nodes ctx) ls0) as [C1 C2].
  destruct (optimize_layers hs_iter _ _) as [[ns2 ls2]|] eqn:El; simpl in Eo; [|discriminate].
  injection Eo as <-.
  destruct (optimize_layers_spec ls0 _ ns2 ls2 El P1) as (_ & _ & Q3).
  { intros v Hv. rewrite C1. specialize (P2 v Hv). lia. }
  { intros v _. rewrite C2. apply H0. }
  cbn [layers nodes] in Hy |- *.
  apply lookup_map_Some in Hy as (l0 & Hy & ->). cbn [set_l_edges l_nodes].
  set (ns3 := map _ ns2).
  assert (forall v, row (ns3 !!! v) = row (ns2 !!! v)) as Hrow.
  { intros v. unfold ns3. by apply map_rows_same. }
  destruct (Q3 y l0 Hy) as [Hm Hnd].
  rewrite (map_ext (fun v => row (ns3 !!! v)) (fun v => row (ns2 !!! v)) Hrow).
  split_and!; [done|done|]. intros i Hi. rewrite Hrow.
  apply (map_seq_nth (fun v => row (ns2 !!! v)) _ 0 Hm i Hi).
Qed.
End Rows.

(** ** The bus router terminates *)

Section Router.

Variable hs_iter : gset nat -> list nat.
Hypothesis hs_iter_perm : forall s, hs_iter s ≡ₚ elements s.

(** Router arenas with the same adjacency lists. *)
Definition same_edges (rn rn' : list RNode) : Prop :=
  length rn' = length rn /\ forall v, r_edges (rn' !!! v) = r_edges (rn !!! v).

(** Edge arenas with the same ends and weights. *)
Definition same_shape (re re' : list REdge) : Prop :=
  forall ei, ea (re' !!! ei) = ea (re !!! ei) /\ eb (re' !!! ei) = eb (re !!! ei) /\
    weight (re' !!! ei) = weight (re !!! ei).

(** Edge arenas with the same ends, where a weight of at least 1 stays so. *)
Definition shape_le (re re' : list REdge) : Prop :=
  forall ei, ea (re' !!! ei) = ea (re !!! ei) /\ eb (re' !!! ei) = eb (re !!! ei) /\
    ((1 <= weight (re !!! ei)) -> (1 <= weight (re' !!! ei)))%Z.

Lemma rgraph_ok_mono rn rn' re re' :
  same_edges rn rn' -> shape_le re re' -> rgraph_ok rn re -> rgraph_ok rn' re'.
Proof.
  intros [_ Hs] Hr H v ei Hei. rewrite Hs in Hei.
  destruct (Hr ei) as (E1 & E2 & E3). rewrite E1, E2, !Hs.
  destruct (H v ei Hei) as (H1 & H2 & H3 & H4 & H5). split_and!; auto.
Qed.

Lemma same_shape_le re re' : same_shape re re' -> shape_le re re'.
Proof. intros H ei. destruct (H ei) as (-> & -> & ->). auto. Qed.

Lemma shape_le_trans re1 re2 re3 : shape_le re1 re2 -> shape_le re2 re3 -> shape_le re1 re3.
Proof.
  intros H1 H2 ei. destruct (H1 ei) as (A1 & A2 & A3), (H2 ei) as (B1 & B2 & B3).
  rewrite B1, B2. auto.
Qed.

Lemma alter_shape_le f ei0 re :
  (forall e, ea (f e) = ea e /\ eb (f e) = eb e /\ ((1 <= weight e) -> (1 <= weight (f e)))%Z) ->
  shape_le re (alter f ei0 re).
Proof. intros Hf ei. rewrite list_lookup_total_alter. case_decide as H; [destruct H as [-> _]; apply Hf|auto]. Qed.

Lemma alter_same_shape f ei0 re :
  (forall e, ea (f e) = ea e /\ eb (f e) = eb e /\ weight (f e) = weight e) ->
  same_shape re (alter f ei0 re).
Proof. intros Hf ei. rewrite list_lookup_total_alter. case_decide as H; [destruct H as [-> _]; apply Hf|auto]. Qed.

(** The popped entry comes from the heap, which loses exactly it. *)
Lemma remove_one_spec v l :
  v ∈ l -> S (length (remove_one v l)) = length l /\ forall q, q ∈ remove_one v l -> q ∈ l.
Proof.
  induction l as [|u l IH]; intros Hv; [by apply elem_of_nil in Hv|]. simpl.
  case_decide as E.
  - split; [done|]. intros q Hq. by right.
  - apply elem_of_cons in Hv as [->|Hv]; [done|].
    destruct (IH Hv) as [H1 H2]. split; [simpl; lia|].
    intros q Hq. apply elem_of_cons in Hq as [->|Hq]; [left|right; by apply H2].
Qed.

Lemma pq_pop_spec pq m pq' :
  pq_pop pq = Some (m, pq') ->
  m ∈ pq /\ length pq = S (length pq') /\ forall q, q ∈ pq' -> q ∈ pq.
Proof.
  unfold pq_pop. destruct pq as [|p pq]; [discriminate|]. intros [= Hm Hq].
  assert (m ∈ p :: pq) as Hin.
  { rewrite <- Hm. apply (foldl_inv (fun m => m ∈ p :: pq)); [left|].
    intros m' q Hq' Hm'. destruct (pq_gt q m'); [by right|done]. }
  assert (remove_one m (p :: pq) = pq') as <- by (rewrite <- Hq, Hm; reflexivity).
  destruct (remove_one_spec m (p :: pq) Hin) as [H1 H2]. split_and!; [done|lia|done].
Qed.

Definition other_end (re : list REdge) (cur ei : nat) : nat :=
  if (cur =? ea (re !!! ei))%nat then eb (re !!! ei) else ea (re !!! ei).

Lemma relax_fold rn re v c eis : forall pq,
  (length (foldl (relax rn re v c) pq eis) <= length pq + length eis)%nat /\
  forall q, q ∈ foldl (relax rn re v c) pq eis ->
    q ∈ pq \/ exists ei, ei ∈ eis /\ q = (c + weight (re !!! ei),
      if (ea (re !!! ei) =? v)%nat then eb (re !!! ei) else ea (re !!! ei)).
Proof.
  induction eis as [|ei eis IH]; intros pq; simpl.
  - split; [lia|]. by left.
  - destruct (IH (relax rn re v c pq ei)) as [H1 H2].
    assert ((length (relax rn re v c pq ei) <= S (length pq))%nat /\
      forall q, q ∈ relax rn re v c pq ei -> q ∈ pq \/ q = (c + weight (re !!! ei),
        if (ea (re !!! ei) =? v)%nat then eb (re !!! ei) else ea (re !!! ei))) as [R1 R2].
    { unfold relax. destruct (negb _); [split; [lia|by left]|].
      destruct (visited _); [split; [lia|by left]|]. split; [simpl; lia|].
      intros q Hq. apply elem_of_cons in Hq as [->|Hq]; [by right|by left]. }
    split; [lia|]. intros q Hq. apply H2 in Hq as [Hq|(ei' & Hei' & ->)].
    + apply R2 in Hq as [Hq| ->]; [by left|]. right. exists ei. split; [left|done].
    + right. exists ei'. split; [by right|done].
Qed.

(** The unvisited router nodes. *)
Definition unv (rn : list RNode) : nat := length (filter (fun n => visited n = false) rn).

Lemma unv_le rn : (unv rn <= length rn)%nat.
Proof. unfold unv. apply length_filter. Qed.

Lemma unv_alter f v rn :
  (v < length rn)%nat -> visited (rn !!! v) = false -> visited (f (rn !!! v)) = true ->
  S (unv (alter f v rn)) = unv rn.
Proof.
  unfold unv. revert v. induction rn as [|n rn IH]; intros v Hv H1 H2; simpl in *; [lia|].
  destruct v as [|v]; simpl in *.
  - rewrite !filter_cons. rewrite decide_False by congruence. rewrite decide_True by done. done.
  - rewrite !filter_cons. case_decide; simpl; [|apply IH; [lia|done|done]].
    f_equal. apply IH; [lia|done|done].
Qed.

(** [u] was reached over an edge from a visited node, at cost [c]. *)
Definition pred_at (rn : list RNode) (re : list REdge) (u : nat) (c : Z) : Prop :=
  exists ei, ei ∈ r_edges (rn !!! u) /\ visited (rn !!! other_end re u ei) = true /\
    cost (rn !!! other_end re u ei) + weight (re !!! ei) = c.

(** The invariant of the [while let Some(..) = pq.pop()] loop from the
    start set [st]. *)
Definition dij_inv (st : gset nat) (rn : list RNode) (re : list REdge) (pq : list (Z * nat)) : Prop :=
  (forall v, (v < length rn)%nat -> visited (rn !!! v) = false -> cost (rn !!! v) = BIG) /\
  (forall v, visited (rn !!! v) = true ->
     0 <= cost (rn !!! v) /\ (v ∈ st \/ pred_at rn re v (cost (rn !!! v)))) /\
  (forall c u, (c, u) ∈ pq -> 0 <= c /\ (u ∈ st \/ pred_at rn re u c)).

Definition visit (c : Z) (n : RNode) : RNode := mkRNode true c (r_edges n).

Lemma visit_edges c (v : nat) (rn : list RNode) (u : nat) : r_edges (alter (visit c) v rn !!! u) = r_edges (rn !!! u).
Proof. rewrite list_lookup_total_alter. case_decide as H; [by destruct H as [-> _]|done]. Qed.

Lemma pred_at_visit rn re (v : nat) c u c' :
  visited (rn !!! v) = false -> pred_at rn re u c' -> pred_at (alter (visit c) v rn) re u c'.
Proof.
  intros Hv (ei & Hei & Hp & Hc). exists ei. rewrite visit_edges.
  assert (v <> other_end re u ei) as Hne by (intros E; rewrite <- E in Hp; congruence).
  rewrite list_lookup_total_alter_ne by done. done.
Qed.

Lemma other_end_back re v ei :
  (ea (re !!! ei) = v \/ eb (re !!! ei) = v) -> ea (re !!! ei) <> eb (re !!! ei) ->
  let u := if (ea (re !!! ei) =? v)%nat then eb (re !!! ei) else ea (re !!! ei) in
  other_end re u ei = v /\ (u = ea (re !!! ei) \/ u = eb (re !!! ei)).
Proof.
  intros Hv Hne. unfold other_end. simpl.
  destruct (ea (re !!! ei) =? v)%nat eqn:E.
  - apply Nat.eqb_eq in E. rewrite (proj2 (Nat.eqb_neq _ _)) by congruence. split; [done|by right].
  - apply Nat.eqb_neq in E. rewrite Nat.eqb_refl. split; [|by left]. destruct Hv; congruence.
Qed.

Lemma edges_in_range (rn : list RNode) v ei : ei ∈ r_edges (rn !!! v) -> (v < length rn)%nat.
Proof.
  intros H. destruct (decide (v < length rn)%nat) as [|Hv]; [done|].
  rewrite lookup_total_ge in H by lia. by apply elem_of_nil in H.
Qed.

Lemma dijkstra_some st re D fuel : forall rn pq,
  rgraph_ok rn re -> dij_inv st rn re pq -> (forall v, length (r_edges (rn !!! v)) <= D)%nat ->
  (unv rn * S D + length pq < fuel)%nat ->
  exists rn', dijkstra fuel re rn pq = Some rn' /\ same_edges rn rn' /\ dij_inv st rn' re [].
Proof.
  induction fuel as [|f IH]; intros rn pq Hg (I1 & I2 & I3) HD Hf; [lia|]. simpl.
  destruct (pq_pop pq) as [[[c v] pq']|] eqn:Ep.
  2: { exists rn. split_and!; [done|by split|]. split_and!; [done|done|].
       intros c u Hc. by apply elem_of_nil in Hc. }
  destruct (pq_pop_spec _ _ _ Ep) as (Hm & Hl & Hsub).
  destruct (visited (rn !!! v)) eqn:Hv.
  { apply IH; [done| |done|lia]. split_and!; [done|done|]. intros c' u Hu. apply I3, Hsub, Hu. }
  change (alter (fun n => mkRNode true c (r_edges n)) v rn) with (alter (visit c) v rn).
  set (rn1 := alter (visit c) v rn).
  assert (same_edges rn rn1) as Hs1.
  { split; [apply length_alter|]. intros u. apply visit_edges. }
  destruct (I3 c v Hm) as [Hc0 Hcv].
  destruct (relax_fold rn1 re v c (r_edges (rn1 !!! v)) pq') as [R1 R2].
  assert (unv rn1 * S D + length (foldl (relax rn1 re v c) pq' (r_edges (rn1 !!! v))) < f)%nat
    as Hf'.
  { pose proof (HD v). rewrite (proj2 Hs1) in R1 |- *.
    destruct (decide (v < length rn)%nat) as [Hvl|Hvl].
    - pose proof (unv_alter (visit c) v rn Hvl Hv eq_refl). fold rn1 in H0. nia.
    - rewrite lookup_total_ge by lia. simpl.
      assert (rn1 = rn) as E1.
      { apply list_eq. intros j. unfold rn1. rewrite list_lookup_alter. case_decide; [|done].
        subst. by rewrite lookup_ge_None_2 by lia. }
      rewrite E1. nia. }
  destruct (IH rn1 (foldl (relax rn1 re v c) pq' (r_edges (rn1 !!! v)))) as (rn' & H1 & [H2 H2'] & H3).
  - eapply rgraph_ok_mono; [exact Hs1| |exact Hg]. intros ei. auto.
  - split_and!.
    + intros u Hu Hvu. unfold rn1 in *. rewrite length_alter in Hu.
      rewrite list_lookup_total_alter in Hvu |- *. case_decide; [done|]. by apply I1.
    + intros u Hvu. unfold rn1 in *. rewrite list_lookup_total_alter in Hvu |- *.
      case_decide as E.
      * destruct E as [<- _]. simpl. split; [done|].
        destruct Hcv as [Hcv|Hcv]; [by left|right]. by apply pred_at_visit.
      * destruct (I2 u Hvu) as [H0 Hp]. split; [done|].
        destruct Hp as [Hp|Hp]; [by left|right]. by apply pred_at_visit.
    + intros c' u Hu. apply R2 in Hu as [Hu|(ei & Hei & Hq)].
      * destruct (I3 c' u (Hsub _ Hu)) as [H0 Hp]. split; [done|].
        destruct Hp as [Hp|Hp]; [by left|right]. by apply pred_at_visit.
      * injection Hq as -> ->. rewrite (proj2 Hs1) in Hei.
        destruct (Hg v ei Hei) as (G1 & G2 & G3 & G4 & G5).
        split; [lia|right].
        destruct (other_end_back re v ei G1 G2) as [Ho Hu].
        exists ei. rewrite Ho. pose proof (edges_in_range _ _ _ Hei) as Hvl.
        unfold rn1. rewrite visit_edges, list_lookup_total_alter_eq by done. simpl.
        split_and!; [|done|done]. destruct Hu as [-> | ->]; done.
  - intros u. rewrite (proj2 Hs1). apply HD.
  - exact Hf'.
  - exists rn'. split_and!; [done| |done]. split.
    + rewrite H2. apply length_alter.
    + intros u. rewrite H2'. apply (proj2 Hs1).
Qed.

Lemma same_shape_refl re : same_shape re re.
Proof. intros ei. auto. Qed.

Lemma same_shape_trans re1 re2 re3 : same_shape re1 re2 -> same_shape re2 re3 -> same_shape re1 re3.
Proof.
  intros H1 H2 ei. destruct (H1 ei) as (A1 & A2 & A3), (H2 ei) as (B1 & B2 & B3).
  split_and!; congruence.
Qed.

Lemma find_pred_some rn re cur eis :
  (exists ei, ei ∈ eis /\
     cost (rn !!! other_end re cur ei) + weight (re !!! ei) = cost (rn !!! cur)) ->
  exists ei p, find_pred rn re cur eis = Some (ei, p) /\ ei ∈ eis /\ p = other_end re cur ei /\
    cost (rn !!! p) + weight (re !!! ei) = cost (rn !!! cur).
Proof.
  induction eis as [|ei eis IH]; intros (ei0 & Hin & Hc); [by apply elem_of_nil in Hin|].
  cbn [find_pred].
  destruct (Z.eqb_spec (cost (rn !!! other_end re cur ei) + weight (re !!! ei))
    (cost (rn !!! cur))) as [E|E].
  - exists ei, (other_end re cur ei). split_and!; [|left|done|done].
    unfold other_end in E. rewrite (proj2 (Z.eqb_eq _ _) E). reflexivity.
  - assert ((cost (rn !!! other_end re cur ei) + weight (re !!! ei) =? cost (rn !!! cur)) = false)
      as E' by (by apply Z.eqb_neq).
    unfold other_end in E'. rewrite E'.
    apply elem_of_cons in Hin as [->|Hin]; [contradiction|].
    destruct IH as (ei' & p & H1 & H2 & H3 & H4); [by exists ei0|].
    exists ei', p. split_and!; [done|by right|done|done].
Qed.

(** The back-trace from a reached node [cur] ends: each step moves to a
    node of smaller, non-negative cost, and the fuel is [1 + cost(cur)]. *)
Lemma backtrace_some st rn re0 conn fuel : forall cur re,
  rgraph_ok rn re0 -> dij_inv st rn re0 [] -> same_shape re0 re ->
  (cur < length rn)%nat -> cost (rn !!! cur) < BIG -> (Z.to_nat (cost (rn !!! cur)) < fuel)%nat ->
  exists re', backtrace fuel rn st conn cur re = Some re' /\ same_shape re0 re'.
Proof.
  induction fuel as [|f IH]; intros cur re Hg Hinv Hsh Hcur Hb Hf; [lia|].
  pose proof Hinv as (I1 & I2 & _). cbn [backtrace].
  case_decide as Hst; [by exists re|].
  assert (visited (rn !!! cur) = true) as Hvis.
  { destruct (visited (rn !!! cur)) eqn:E; [done|]. rewrite (I1 cur Hcur E) in Hb. lia. }
  destruct (I2 cur Hvis) as [Hc0 [Hin|(ei & Hei & Hpv & Hpc)]]; [done|].
  assert (forall ei, other_end re cur ei = other_end re0 cur ei) as Hoe.
  { intros ei'. unfold other_end. by destruct (Hsh ei') as (-> & -> & _). }
  destruct (find_pred_some rn re cur (r_edges (rn !!! cur))) as (ei' & p & Hfp & Hei' & Hp & Hpc').
  { exists ei. split; [done|]. rewrite Hoe. by destruct (Hsh ei) as (_ & _ & ->). }
  rewrite Hfp.
  destruct (Hg cur ei' Hei') as (G1 & G2 & G3 & G4 & G5).
  destruct (Hsh ei') as (_ & _ & Hw). rewrite Hw in Hpc'.
  assert (p < length rn)%nat as Hpl.
  { apply (edges_in_range rn p ei'). rewrite Hp, Hoe. unfold other_end.
    destruct (cur =? ea (re0 !!! ei'))%nat; done. }
  assert (visited (rn !!! p) = true) as Hpv'.
  { destruct (visited (rn !!! p)) eqn:E; [done|]. rewrite (I1 p Hpl E) in Hpc'. lia. }
  destruct (I2 p Hpv') as [Hp0 _].
  destruct (IH p (alter (set_assigned conn) ei' re)) as (re' & H1 & H2); try done; try lia.
  - eapply same_shape_trans; [exact Hsh|]. apply alter_same_shape. intros e. auto.
  - exists re'. split; [exact H1|exact H2].
Qed.

Lemma pick_spec rn ends cur : pick rn ends = Some cur -> cur ∈ ends /\ cost (rn !!! cur) < BIG.
Proof.
  unfold pick. intros H.
  assert (forall bc : Z * option nat, bc = foldl (fun '(best, cur) e =>
    if cost (rn !!! e) <? best then (cost (rn !!! e), Some e) else (best, cur)) (BIG, None) ends ->
    bc.1 <= BIG /\ forall e, bc.2 = Some e -> e ∈ ends /\ cost (rn !!! e) = bc.1 /\ bc.1 < BIG)
    as Hinv.
  { intros bc ->. apply (foldl_inv (fun bc : Z * option nat => bc.1 <= BIG /\
      forall e, bc.2 = Some e -> e ∈ ends /\ cost (rn !!! e) = bc.1 /\ bc.1 < BIG)).
    - split; [simpl; lia|]. discriminate.
    - intros [best c] e He [Hb Hc]. simpl in *.
      destruct (Z.ltb_spec (cost (rn !!! e)) best) as [E|E]; simpl.
      + split; [lia|]. intros e' [= <-]. split_and!; [done|done|lia].
      + split; [done|exact Hc]. }
  destruct (Hinv _ eq_refl) as [_ H2]. destruct (H2 cur H) as (H3 & H4 & H5). split; [done|lia].
Qed.

Lemma foldlM_inv {A B} (P : A -> Prop) (f : A -> B -> option A) (l : list B) a :
  P a -> (forall a b, b ∈ l -> P a -> exists a', f a b = Some a' /\ P a') ->
  exists r, foldlM f a l = Some r /\ P r.
Proof.
  revert a. induction l as [|b l IH]; intros a Ha Hf; simpl; [by exists a|].
  destruct (Hf a b ltac:(left) Ha) as (a' & E & Ha'). rewrite E. simpl.
  apply IH; [done|]. intros a0 b0 Hb0. apply Hf. by right.
Qed.

Lemma start_end_spec a width height conn : (width <= length (outputs a))%nat ->
  exists st en, start_end a width height conn = Some (st, en) /\
    forall e, e ∈ en -> exists x, (x < width)%nat /\ e = index width height x (height - 1) 0.
Proof.
  intros Hw. unfold start_end.
  match goal with |- context [foldlM ?f ?a0 ?l] =>
  destruct (foldlM_inv (fun se : gset nat * gset nat => forall e, e ∈ se.2 ->
      exists x, (x < width)%nat /\ e = index width height x (height - 1) 0) f l a0)
    as ([st en] & E & H) end.
  - intros e He. simpl in He. set_solver.
  - intros [st en] x Hx Hse. apply elem_of_seq in Hx.
    destruct (lookup_lt_is_Some_2 (outputs a) x) as [o Ho]; [lia|]. rewrite Ho. simpl.
    eexists; split; [reflexivity|]. intros e He. simpl in *. case_decide; [|by apply Hse].
    apply elem_of_union in He as [He|He]; [|by apply Hse].
    apply elem_of_singleton in He as ->. exists x. split; [lia|done].
  - exists st, en. split; [exact E|exact H].
Qed.

Lemma cond_alter_shape_le (b : bool) ei re :
  shape_le re (if b then alter (set_weight 20) ei re else re).
Proof.
  destruct b.
  - apply alter_shape_le. intros e. simpl. split_and!; [done|done|lia].
  - intros e. auto.
Qed.

Lemma penalise_shape width height re : shape_le re (penalise width height re).
Proof.
  unfold penalise.
  apply (foldl_inv (fun re' => shape_le re re')); [intros e; auto|].
  intros re1 y _ H1.
  apply (foldl_inv (fun re' => shape_le re re')); [done|].
  intros re2 x _ H2. cbv zeta.
  eapply shape_le_trans; [exact H2|].
  eapply shape_le_trans; [|apply cond_alter_shape_le]. apply cond_alter_shape_le.
Qed.

Definition reset (n : RNode) : RNode := mkRNode false BIG (r_edges n).

Lemma reset_lookup (rn : list RNode) v :
  map reset rn !!! v = if decide (v < length rn)%nat then reset (rn !!! v) else rnode_default.
Proof.
  revert v. induction rn as [|n rn IH]; intros v; [done|].
  destruct v as [|v]; simpl; [done|]. rewrite IH. repeat case_decide; done || lia.
Qed.

Lemma reset_same_edges rn : same_edges rn (map reset rn).
Proof.
  split; [apply length_map|]. intros v. rewrite reset_lookup. case_decide; [done|].
  by rewrite lookup_total_ge by lia.
Qed.

Lemma same_edges_trans rn1 rn2 rn3 : same_edges rn1 rn2 -> same_edges rn2 rn3 -> same_edges rn1 rn3.
Proof. intros [A1 B1] [A2 B2]. split; [lia|]. intros v. by rewrite B2, B1. Qed.

Lemma max_degree_ge (rn : list RNode) v : (length (r_edges (rn !!! v)) <= max_degree rn)%nat.
Proof.
  revert v. induction rn as [|n rn IH]; intros v; [simpl; lia|].
  destruct v as [|v]; simpl; [lia|]. specialize (IH v). lia.
Qed.

Lemma hs_iter_in s b : b ∈ hs_iter s <-> b ∈ s.
Proof. rewrite (hs_iter_perm s). apply elem_of_elements. Qed.

(** One round of the connector loop returns, and keeps the lane graph
    well formed. *)
Lemma construct_route_some a width height rn re conn :
  (width <= length (outputs a))%nat -> (1 <= height)%nat -> length rn = (width * height * 2)%nat ->
  rgraph_ok rn re ->
  exists re' b, construct_route hs_iter a width height rn re conn = Some (re', b) /\ rgraph_ok rn re'.
Proof.
  intros Hw Hh Hl Hg. unfold construct_route.
  destruct (start_end_spec a width height conn Hw) as (st & en & Hse & Hen). rewrite Hse.
  cbn [mbind option_bind].
  set (rn0 := map reset rn). change (map (fun n => mkRNode false BIG (r_edges n)) rn) with rn0.
  set (pq0 := map (fun s => (0, s)) (hs_iter st)).
  assert (same_edges rn rn0) as Hs0 by apply reset_same_edges.
  assert (dij_inv st rn0 re pq0) as Hinv.
  { unfold rn0, pq0. split_and!.
    - intros v Hv _. rewrite length_map in Hv. rewrite reset_lookup. by case_decide.
    - intros v Hv. rewrite reset_lookup in Hv. by case_decide.
    - intros c u Hu. apply list_elem_of_In, in_map_iff in Hu as (s0 & [= <- <-] & Hs).
      split; [lia|left]. apply hs_iter_in, list_elem_of_In, Hs. }
  destruct (dijkstra_some st re (max_degree rn0) (dijkstra_fuel rn0 pq0) rn0 pq0)
    as (rn' & Hd & Hs' & Hinv').
  { eapply rgraph_ok_mono; [exact Hs0| |exact Hg]. intros ei. auto. }
  { done. }
  { intros v. apply max_degree_ge. }
  { unfold dijkstra_fuel. pose proof (unv_le rn0). nia. }
  rewrite Hd. cbn [mbind option_bind].
  assert (same_edges rn rn') as Hs by (eapply same_edges_trans; eauto).
  destruct (pick rn' (hs_iter en)) as [cur|] eqn:Hp.
  - destruct (pick_spec _ _ _ Hp) as [Hc Hb].
    apply hs_iter_in, Hen in Hc as (x & Hx & ->).
    destruct (backtrace_some st rn' re conn (S (Z.to_nat (cost (rn' !!! index width height x (height - 1) 0))))
      (index width height x (height - 1) 0) re) as (re' & Hbt & Hsh).
    { eapply rgraph_ok_mono; [exact Hs| |exact Hg]. intros ei. auto. }
    { done. }
    { apply same_shape_refl. }
    { destruct Hs as [Hsl _]. rewrite Hsl, Hl. unfold index. nia. }
    { done. }
    { lia. }
    rewrite Hbt. cbn [mbind option_bind]. eexists _, true. split; [reflexivity|].
    eapply rgraph_ok_mono; [by split| |exact Hg].
    eapply shape_le_trans; [apply same_shape_le, Hsh|apply penalise_shape].
  - by exists re, false.
Qed.

Lemma route_all_some a width height rn cs : forall re,
  (width <= length (outputs a))%nat -> (1 <= height)%nat -> length rn = (width * height * 2)%nat ->
  rgraph_ok rn re -> exists re' b, route_all hs_iter a width height rn cs re = Some (re', b).
Proof.
  induction cs as [|c cs IH]; intros re Hw Hh Hl Hg; simpl; [by eexists _, _|].
  destruct (construct_route_some a width height rn re c Hw Hh Hl Hg) as (re' & b & E & Hg').
  rewrite E. destruct b; [by apply IH|by eexists _, _].
Qed.

(** The height search returns, at a height of at most 31: from height 31
    on, [30 < height] accepts the routing. *)
Lemma construct_loop_some a width clen fuel : forall height,
  (width <= length (outputs a))%nat -> (3 <= height <= 31)%nat -> (32 <= height + fuel)%nat ->
  exists hgt re, construct_loop hs_iter a width clen fuel height = Some (hgt, re) /\ (height <= hgt <= 31)%nat.
Proof.
  induction fuel as [|f IH]; intros height Hw Hh Hf; [lia|]. cbn [construct_loop].
  pose proof (build_graph_rgraph width height) as Hg.
  destruct (build_graph_inv width height) as [Hl _].
  destruct (build_graph width height) as [rn re] eqn:E. simpl in Hg, Hl.
  destruct (route_all_some a width height rn (zrange 1 (clen + 1)) re Hw ltac:(lia) Hl Hg)
    as (re' & b & Hr).
  rewrite Hr. cbn [mbind option_bind].
  destruct b; simpl.
  { exists height, re'. split; [done|lia]. }
  destruct (Nat.ltb_spec 30 height) as [H30|H30].
  { exists height, re'. split; [done|lia]. }
  destruct (IH (S height)) as (hgt & re'' & H1 & H2); [done|lia|lia|].
  exists hgt, re''. split; [done|lia].
Qed.

Lemma construct_some a : (length (inputs a) <= length (outputs a))%nat ->
  exists a', construct hs_iter a = Some a' /\ (3 <= a_height a' <= 31)%Z.
Proof.
  intros Hw. unfold construct.
  destruct (construct_loop_some a (length (inputs a)) (highest_connector_id a (length (inputs a))) 29 3)
    as (hgt & re & E & Hh); [done|lia|lia|].
  rewrite E. cbn [mbind option_bind]. eexists. split; [reflexivity|]. simpl. lia.
Qed.

Lemma foldlM_some_inv {A B} (P : A -> Prop) (f : A -> B -> option A) (l : list B) a r :
  P a -> (forall a b a', b ∈ l -> f a b = Some a' -> P a -> P a') -> foldlM f a l = Some r -> P r.
Proof.
  revert a. induction l as [|b l IH]; intros a Ha Hf; simpl; [by intros [= <-]|].
  destruct (f a b) as [a'|] eqn:E; simpl; [|discriminate].
  apply IH; [exact (Hf a b a' ltac:(left) E Ha)|]. intros a0 b0 a0' Hb0. apply Hf. by right.
Qed.

(** Filling the ports never changes the length of the port list. *)
Lemma fill_ports_length d ns vs st st' :
  fill_ports hs_iter d ns vs st = Some st' -> length st'.1 = length st.1.
Proof.
  unfold fill_ports. set (P := fun s : list (gset Z) * (gmap (nat * nat) Z * Z) => length s.1 = length st.1).
  intros H. apply (foldlM_some_inv P) in H; [exact H|done|].
  intros a v a' _ Ha Hpa. apply (foldlM_some_inv P) in Ha; [exact Ha|exact Hpa|].
  intros a1 xx a1' _ Ha1 Hpa1. apply (foldlM_some_inv P) in Ha1; [exact Ha1|exact Hpa1|].
  intros [ports m] o a2 _ Ha2 Hp. cbv beta iota in Ha2.
  destruct (if d then get_id m o v else get_id m v o) as [i m'].
  unfold insert_at in Ha2. destruct (_ && _); simpl in Ha2; [|discriminate].
  injection Ha2 as <-. unfold P in *. simpl. rewrite length_alter. exact Hp.
Qed.

(** In [Context::layout], [Adapter::construct] never fails: only the port
    filling before it can. *)
Lemma layout_adapter_none ns ls yy : layout_adapter hs_iter ns ls yy = None ->
  exists d vs st, fill_ports hs_iter d ns vs st = None.
Proof.
  unfold layout_adapter. destruct (negb _); [discriminate|].
  match goal with |- context [fill_ports hs_iter false ns ?vs ?st] =>
    destruct (fill_ports hs_iter false ns vs st) as [[ins m]|] eqn:E1; [|intros _; by exists false, vs, st] end.
  cbn [mbind option_bind].
  match goal with |- context [fill_ports hs_iter true ns ?vs ?st] =>
    destruct (fill_ports hs_iter true ns vs st) as [st2|] eqn:E2; [|intros _; by exists true, vs, st] end.
  cbn [mbind option_bind].
  apply fill_ports_length in E1, E2. simpl in E1, E2.
  destruct (construct_some (set_ports ins st2.1 (l_adapter (ls !!! yy)))) as (ad & -> & _).
  { simpl. lia. }
  discriminate.
Qed.

(** [layout_relax k] performs at most [k] rounds of [layout_step]. *)
Lemma layout_relax_iter k : forall st, exists j, (j <= k)%nat /\
  layout_relax k st = Nat.iter j (fun s => (layout_step s).1) st.
Proof.
  induction k as [|k IH]; intros st; [by exists 0%nat|]. cbn [layout_relax].
  destruct (layout_step st) as [st' stable] eqn:E. destruct stable.
  - exists 1%nat. split; [lia|]. simpl. by rewrite E.
  - destruct (IH st') as (j & Hj & ->). exists (S j). split; [lia|].
    rewrite Nat.iter_succ_r. by rewrite E.
Qed.
(** Claim C8: both bounded loops terminate on every input.
    [Adapter::construct] always returns (when, as in [Context::layout],
    there are at least as many output as input port sets), at a final
    height between 3 and 31: a height above 30 accepts whatever was routed.
    The [Some] includes that every Dijkstra search ends within its fuel
    and that every back-trace ends within [1 + cost] steps, the cost
    decreasing by at least 1 per step.  Inside [Context::layout] the call
    of [construct] never fails, and the relaxation loop of [layout]
    performs at most 1000 rounds of [layout_step]. *)
Theorem construct_and_relaxation_bounded :
  (forall a, (length (inputs a) <= length (outputs a))%nat ->
     exists a', construct hs_iter a = Some a' /\ (3 <= a_height a' <= 31)%Z) /\
  (forall ns ls yy, layout_adapter hs_iter ns ls yy = None ->
     exists d vs st, fill_ports hs_iter d ns vs st = None) /\
  (forall st, exists j, (j <= 1000)%nat /\
     layout_relax 1000 st = Nat.iter j (fun s => (layout_step s).1) st).
Proof.
  split_and!.
  - apply construct_some.
  - apply layout_adapter_none.
  - apply layout_relax_iter.
Qed.

End Router.


Section Geometry.

Variable hs_iter : gset nat -> list nat.

Fixpoint touch_ok (ns : list Node) (xx : Z) (vs : list nat) : Prop :=
  match vs with
  | [] => True
  | v :: vs' => xx <= x (ns !!! v) /\ touch_ok ns (x (ns !!! v) + width (ns !!! v)) vs'
  end.

Lemma touch_ok_no_overlap ns xx vs : touch_ok ns xx vs -> forall i, (S i < length vs)%nat ->
  x (ns !!! (vs !!! i)) + width (ns !!! (vs !!! i)) <= x (ns !!! (vs !!! S i)).
Proof.
  revert xx. induction vs as [|v vs IH]; intros xx H i Hi; [simpl in Hi; lia|].
  destruct H as [_ H]. destruct vs as [|v' vs]; [simpl in Hi; lia|].
  destruct i as [|i]; [exact (proj1 H)|]. apply (IH _ H). simpl in *. lia.
Qed.

Lemma touch_fold_false vs : forall ns xx ns' b xx',
  foldl touch_step (ns, false, xx) vs = (ns', b, xx') -> b = false.
Proof.
  induction vs as [|v vs IH]; intros ns xx ns' b xx' H; simpl in H; [congruence|].
  destruct (x (ns !!! v) <? xx); eapply IH; exact H.
Qed.

Lemma touch_fold_true vs : forall ns b xx ns' xx',
  foldl touch_step (ns, b, xx) vs = (ns', true, xx') -> b = true /\ ns' = ns /\ touch_ok ns xx vs.
Proof.
  induction vs as [|v vs IH]; intros ns b xx ns' xx' H; simpl in H.
  - injection H as -> -> ->. done.
  - destruct (Z.ltb_spec (x (ns !!! v)) xx) as [Hl|Hl].
    + apply touch_fold_false in H. discriminate.
    + apply IH in H as (-> & -> & H). split_and!; [done|done|]. simpl. split; [lia|exact H].
Qed.

Lemma layers_touch_false ls : forall ns ns' b,
  foldl (fun '(ns, stable) l =>
    let '(ns, stable, _) := foldl touch_step (ns, stable, 0) (l_nodes l) in (ns, stable))
    (ns, false) ls = (ns', b) -> b = false.
Proof.
  induction ls as [|l ls IH]; intros ns ns' b H; simpl in H; [congruence|].
  destruct (foldl touch_step (ns, false, 0) (l_nodes l)) as [[ns1 b1] xx1] eqn:E.
  apply touch_fold_false in E. subst b1. eapply IH. exact H.
Qed.

Lemma nodes_touch_true ns ls ns' :
  layout_nodes_do_not_touch ns ls = (ns', true) -> ns' = ns /\ forall l, l ∈ ls -> no_overlap ns l.
Proof.
  unfold layout_nodes_do_not_touch. revert ns ns'.
  induction ls as [|l ls IH]; intros ns ns' H; simpl in H.
  - injection H as ->. split; [done|]. intros l Hl. by apply elem_of_nil in Hl.
  - destruct (foldl touch_step (ns, true, 0) (l_nodes l)) as [[ns1 b1] xx1] eqn:E.
    destruct b1; [|apply layers_touch_false in H; discriminate].
    apply touch_fold_true in E as (_ & -> & Ht).
    apply IH in H as [-> H]. split; [done|].
    intros l' Hl'. apply elem_of_cons in Hl' as [->|Hl']; [|by apply H].
    intros i Hi. eapply touch_ok_no_overlap; [exact Ht|exact Hi].
Qed.

Lemma grow_edges_none ns es : grow_edges ns es = None ->
  forall e, e ∈ es -> grow_one ns e (e_up e) = None /\ grow_one ns e (e_down e) = None.
Proof.
  induction es as [|e es IH]; intros H e' He'; [by apply elem_of_nil in He'|]. simpl in H.
  destruct (grow_one ns e (e_up e)) eqn:E1; [discriminate|].
  destruct (grow_one ns e (e_down e)) eqn:E2; [discriminate|].
  apply elem_of_cons in He' as [->|He']; [done|]. by apply IH.
Qed.

Lemma grow_one_none ns e v : grow_one ns e v = None ->
  is_connector (ns !!! v) = false -> e_x e <= x (ns !!! v) + width (ns !!! v) - 2.
Proof.
  unfold grow_one. intros H Hc. rewrite Hc in H. simpl in H.
  destruct (Z.ltb_spec (x (ns !!! v) + width (ns !!! v) - 1 - 1) (e_x e)); [discriminate|lia].
Qed.

Lemma shift_in_none ns es : shift_edges_in ns es = None -> forall e, e ∈ es ->
  x (ns !!! e_up e) + padding (ns !!! e_up e) <= e_x e /\
  x (ns !!! e_down e) + padding (ns !!! e_down e) <= e_x e.
Proof.
  induction es as [|e es IH]; intros H e' He'; [by apply elem_of_nil in He'|]. simpl in H.
  destruct (Z.ltb_spec (e_x e) (Z.max (x (ns !!! e_up e) + padding (ns !!! e_up e))
    (x (ns !!! e_down e) + padding (ns !!! e_down e)))) as [Hl|Hl]; [discriminate|].
  destruct (shift_edges_in ns es) eqn:E; [discriminate|].
  apply elem_of_cons in He' as [->|He']; [lia|]. by apply IH.
Qed.

Lemma shift_layers_none ns ls : shift_edges_layers ns ls = None -> forall l, l ∈ ls ->
  shift_edges_in ns (l_edges l) = None.
Proof.
  induction ls as [|l ls IH]; intros H l' Hl'; [by apply elem_of_nil in Hl'|]. simpl in H.
  destruct (shift_edges_in ns (l_edges l)) eqn:E; [discriminate|].
  destruct (shift_edges_layers ns ls) eqn:E'; [discriminate|].
  apply elem_of_cons in Hl' as [->|Hl']; [done|]. by apply IH.
Qed.

(** A round of the relaxation that reports no change leaves the state as
    it is, and the state satisfies the geometry invariant. *)
Lemma layout_step_stable ns ls st' :
  layout_step (ns, ls) = (st', true) -> st' = (ns, ls) /\ geom_ok ns ls.
Proof.
  unfold layout_step.
  destruct (layout_nodes_do_not_touch ns ls) as [ns1 b1] eqn:E1. destruct b1; [|discriminate]. simpl.
  apply nodes_touch_true in E1 as [-> Hov].
  unfold layout_edges_do_not_touch. rewrite (surjective_pairing (layout_nodes_do_not_touch ns ls)).
  destruct (layout_nodes_do_not_touch ns ls) as [ns2 b2] eqn:E2. simpl. destruct b2; [|discriminate]. simpl.
  apply nodes_touch_true in E2 as [-> _].
  destruct (layout_grow_nodes ns ls) as [ns3 b3] eqn:E3. destruct b3; [|discriminate]. simpl.
  unfold layout_grow_nodes in E3. destruct (grow_edges ns (concat (map l_edges ls))) eqn:G; [discriminate|].
  injection E3 as <-.
  destruct (layout_shift_edges ns ls) as [ls4 b4] eqn:E4. destruct b4; [|discriminate]. simpl.
  unfold layout_shift_edges in E4. destruct (shift_edges_layers ns ls) eqn:Sh; [discriminate|].
  injection E4 as <-.
  destruct (layout_shift_connector_nodes ns ls) as [ns5 b5] eqn:E5. intros [= <- ->].
  unfold layout_shift_connector_nodes in E5. destruct (shift_connectors ns ls _); [discriminate|].
  injection E5 as <-. split; [done|].
  intros l Hl. split; [by apply Hov|]. intros e He.
  assert (e ∈ concat (map l_edges ls)) as Hc.
  { apply list_elem_of_In, in_concat. exists (l_edges l). split; [|by apply list_elem_of_In].
    apply in_map, list_elem_of_In, Hl. }
  destruct (grow_edges_none _ _ G e Hc) as [G1 G2].
  destruct (shift_in_none ns (l_edges l) (shift_layers_none _ _ Sh l Hl) e He) as [S1 S2].
  split; split; try done; intros Hn; eapply grow_one_none; eauto.
Qed.

(** When one of the first [k] rounds reports no change, [layout_relax k]
    ends in a state whose next round reports no change. *)
Lemma layout_relax_stable k : forall st,
  (exists j, (j < k)%nat /\ (layout_step (Nat.iter j (fun s => (layout_step s).1) st)).2 = true) ->
  layout_step (layout_relax k st) = (layout_relax k st, true).
Proof.
  induction k as [|k IH]; intros st (j & Hj & Hs); [lia|]. cbn [layout_relax].
  destruct (layout_step st) as [st' b] eqn:E. destruct b.
  - destruct st as [ns ls]. apply layout_step_stable in E as E'. destruct E' as [-> _]. exact E.
  - destruct j as [|j]; [simpl in Hs; rewrite E in Hs; discriminate|].
    apply IH. exists j. split; [lia|]. rewrite Nat.iter_succ_r, E in Hs. exact Hs.
Qed.

Lemma layout_adapter_keep ns ls yy ls' : layout_adapter hs_iter ns ls yy = Some ls' ->
  ls' = ls \/ exists ad, ls' = alter (set_l_adapter ad) yy ls.
Proof.
  unfold layout_adapter. destruct (negb _); [intros [= <-]; by left|].
  match goal with |- context [fill_ports hs_iter false ns ?vs ?st] =>
    destruct (fill_ports hs_iter false ns vs st) as [[ins m]|]; cbn [mbind option_bind]; [|discriminate] end.
  match goal with |- context [fill_ports hs_iter true ns ?vs ?st] =>
    destruct (fill_ports hs_iter true ns vs st) as [st2|]; cbn [mbind option_bind]; [|discriminate] end.
  match goal with |- context [construct hs_iter ?a] =>
    destruct (construct hs_iter a) as [ad|]; cbn [mbind option_bind]; [|discriminate] end.
  intros [= <-]. right. by exists ad.
Qed.

Definition layers_keep (ls ls' : list Layer) : Prop :=
  length ls' = length ls /\
  forall j, l_nodes (ls' !!! j) = l_nodes (ls !!! j) /\ l_edges (ls' !!! j) = l_edges (ls !!! j).

Lemma adapters_keep ns ls yys ls' :
  foldlM (layout_adapter hs_iter ns) ls yys = Some ls' -> layers_keep ls ls'.
Proof.
  intros H. apply (foldlM_some_inv (layers_keep ls)) in H; [exact H|by split|].
  intros a yy a' _ Ha [Hl Hk].
  destruct (layout_adapter_keep _ _ _ _ Ha) as [->|[ad ->]]; [by split|].
  split; [by rewrite length_alter|].
  intros j. rewrite list_lookup_total_alter. case_decide as Hd; [|apply Hk].
  destruct Hd as [-> _]. apply Hk.
Qed.

Definition node_geom (n : Node) : Z * Z * Z * bool := (x n, padding n, width n, is_connector n).
Definition edge_key (e : Edge) : nat * nat * Z := (e_up e, e_down e, e_x e).

Lemma set_y_fold ypos (vs : list nat) : forall (ns : list Node) (i : nat),
  node_geom (foldl (fun ns n => alter (set_y ypos) n ns) ns vs !!! i) = node_geom (ns !!! i).
Proof.
  induction vs as [|v vs IH]; intros ns i; [done|]. simpl. rewrite IH.
  rewrite list_lookup_total_alter. case_decide as Hd; [|done]. by destruct Hd as [-> _].
Qed.

Lemma place_keep ls : forall ypos ns ns' ls', place ypos ns ls = (ns', ls') ->
  length ls' = length ls /\ (forall i, node_geom (ns' !!! i) = node_geom (ns !!! i)) /\
  forall j, l_nodes (ls' !!! j) = l_nodes (ls !!! j) /\
    map edge_key (l_edges (ls' !!! j)) = map edge_key (l_edges (ls !!! j)).
Proof.
  induction ls as [|l ls IH]; intros ypos ns ns' ls' H; cbn [place] in H.
  - injection H as <- <-. done.
  - destruct (if enabled (l_adapter l) then _ else _) as [ad ypos'].
    destruct (place (ypos' + 3) _ ls) as [ns2 ls2] eqn:E. injection H as <- <-.
    apply IH in E as (E1 & E2 & E3). split_and!.
    + simpl. lia.
    + intros i. rewrite E2. apply set_y_fold.
    + intros [|j]; [|apply E3]. simpl. split; [done|].
      rewrite map_map. apply map_ext. intros e. reflexivity.
Qed.

Lemma node_geom_parts a b : node_geom a = node_geom b ->
  x a = x b /\ padding a = padding b /\ width a = width b /\ is_connector a = is_connector b.
Proof. unfold node_geom. intros H. injection H. auto. Qed.

(** Claim C9, amended: the geometry invariant holds after [layout] when
    its relaxation converged, i.e. one of the first 1000 rounds reported
    no change.  The ceiling alone does not give it: a chain of 1002
    vertices still has an unshifted edge after the 1000 rounds. *)
Theorem layout_geometry_if_converged (ctx ctx' : Context) :
  relax_converged (imap (node_size ctx) (nodes ctx), layers ctx) ->
  layout hs_iter ctx = Some ctx' -> geometry_ok ctx'.
Proof.
  intros Hc. unfold layout.
  pose proof (layout_relax_stable 1000 _ Hc) as Hs.
  destruct (layout_relax 1000 (imap (node_size ctx) (nodes ctx), layers ctx)) as [ns ls].
  apply layout_step_stable in Hs as [_ Hg].
  destruct (foldlM (layout_adapter hs_iter ns) ls _) as [ls2|] eqn:F; cbn [mbind option_bind]; [|discriminate].
  destruct (place 0 ns ls2) as [ns3 ls3] eqn:P. intros [= <-]. unfold geometry_ok. simpl.
  apply adapters_keep in F as [FL FK]. apply place_keep in P as (PL & PG & PK).
  assert (forall v, x (ns3 !!! v) = x (ns !!! v) /\ padding (ns3 !!! v) = padding (ns !!! v) /\
    width (ns3 !!! v) = width (ns !!! v) /\ is_connector (ns3 !!! v) = is_connector (ns !!! v)) as PG'
    by (intros v; apply node_geom_parts, PG).
  intros l Hl. apply list_elem_of_lookup_1 in Hl as [j Hj].
  pose proof (lookup_lt_Some _ _ _ Hj) as Hjl. apply list_lookup_total_correct in Hj. subst l.
  assert (ls !!! j ∈ ls) as Hl0.
  { apply list_elem_of_lookup_2 with j. apply list_lookup_lookup_total_lt. lia. }
  destruct (Hg _ Hl0) as [Hov He].
  destruct (PK j) as [PN PE]. destruct (FK j) as [FN FE].
  split.
  - intros i Hi. rewrite PN, FN in *.
    destruct (PG' (l_nodes (ls !!! j) !!! i)) as (-> & _ & -> & _).
    destruct (PG' (l_nodes (ls !!! j) !!! S i)) as (-> & _).
    by apply Hov.
  - intros e He3.
    assert (In (edge_key e) (map edge_key (l_edges (ls !!! j)))) as Hk.
    { rewrite <- FE, <- PE. apply in_map, list_elem_of_In, He3. }
    apply in_map_iff in Hk as (e0 & Hk & He0). apply list_elem_of_In in He0.
    unfold edge_key in Hk. injection Hk as Hup Hdown Hx.
    destruct (He e0 He0) as [[U1 U2] [D1 D2]].
    destruct (PG' (e_up e)) as (X1 & P1 & W1 & C1). destruct (PG' (e_down e)) as (X2 & P2 & W2 & C2).
    unfold span_ok. rewrite X1, P1, W1, C1, X2, P2, W2, C2, <- Hup, <- Hdown, <- Hx.
    split_and!; done.
Qed.

(** ** A chain of vertices: one edge shifted per round *)

Definition chain_state (n k : nat) (ls : list Layer) : Prop :=
  length ls = S n /\ forall j, (j < S n)%nat ->
    l_nodes (ls !!! j) = [j] /\ enabled (l_adapter (ls !!! j)) = false /\
    exists ey, l_edges (ls !!! j) =
      if (j <? n)%nat then [mkEdge j (S j) (if (j <? k)%nat then 1 else 0) ey] else [].

Definition chain_nodes_ok (n : nat) (ns : list Node) : Prop :=
  forall i, (i < S n)%nat -> x (ns !!! i) = 0 /\ padding (ns !!! i) = 1 /\ 3 <= width (ns !!! i).

Lemma chain_member n k ls l : chain_state n k ls -> l ∈ ls ->
  exists j, (j < S n)%nat /\ l = ls !!! j.
Proof.
  intros [Hl _] Hm. apply list_elem_of_lookup_1 in Hm as [j Hj].
  exists j. split; [apply lookup_lt_Some in Hj; lia|]. symmetry. by apply list_lookup_total_correct.
Qed.

Lemma touch_single ns ls : (forall l, l ∈ ls -> exists v, l_nodes l = [v] /\ 0 <= x (ns !!! v)) ->
  layout_nodes_do_not_touch ns ls = (ns, true).
Proof.
  unfold layout_nodes_do_not_touch. induction ls as [|l ls IH]; intros H; [done|].
  cbn [foldl]. destruct (H l ltac:(left)) as (v & Hv & Hx). rewrite Hv. cbn [foldl touch_step].
  destruct (Z.ltb_spec (x (ns !!! v)) 0); [lia|]. apply IH. intros l' Hl'. apply H. by right.
Qed.

Lemma grow_edges_all_none ns es :
  (forall e, e ∈ es -> grow_one ns e (e_up e) = None /\ grow_one ns e (e_down e) = None) ->
  grow_edges ns es = None.
Proof.
  induction es as [|e es IH]; intros H; [done|]. simpl.
  destruct (H e ltac:(left)) as [-> ->]. apply IH. intros e' He'. apply H. by right.
Qed.

Lemma grow_one_within ns e v : e_x e <= x (ns !!! v) + width (ns !!! v) - 2 -> grow_one ns e v = None.
Proof.
  unfold grow_one. intros H.
  destruct (Z.ltb_spec (x (ns !!! v) + width (ns !!! v) - 1 - 1) (e_x e)); [lia|done].
Qed.

Lemma shift_split ns ls1 l ls2 es :
  (forall l', l' ∈ ls1 -> shift_edges_in ns (l_edges l') = None) ->
  shift_edges_in ns (l_edges l) = Some es ->
  shift_edges_layers ns (ls1 ++ l :: ls2) = Some (ls1 ++ set_l_edges es l :: ls2).
Proof.
  induction ls1 as [|l1 ls1 IH]; intros H1 H2; simpl; [by rewrite H2|].
  rewrite (H1 l1 ltac:(left)), IH; [done| |done]. intros l' Hl'. apply H1. by right.
Qed.

Lemma chain_step n k ns ls : chain_nodes_ok n ns -> chain_state n k ls -> (k < n)%nat ->
  exists ls', layout_step (ns, ls) = ((ns, ls'), false) /\ chain_state n (S k) ls'.
Proof.
  intros Hn Hc Hk. pose proof Hc as [Hlen Hj].
  assert (layout_nodes_do_not_touch ns ls = (ns, true)) as T.
  { apply touch_single. intros l Hl. destruct (chain_member _ _ _ _ Hc Hl) as (j & Hjl & ->).
    exists j. destruct (Hj j Hjl) as [-> _]. split; [done|]. destruct (Hn j Hjl) as [-> _]. lia. }
  assert (layout_grow_nodes ns ls = (ns, true)) as G.
  { unfold layout_grow_nodes. rewrite grow_edges_all_none; [done|].
    intros e He. apply list_elem_of_In, in_concat in He as (es & Hes & He).
    apply in_map_iff in Hes as (l & <- & Hl). apply list_elem_of_In in Hl, He.
    destruct (chain_member _ _ _ _ Hc Hl) as (j & Hjl & ->).
    destruct (Hj j Hjl) as (_ & _ & ey & E). rewrite E in He.
    destruct (Nat.ltb_spec j n) as [Hjn|Hjn]; [|by apply elem_of_nil in He].
    apply list_elem_of_singleton in He as ->. simpl.
    destruct (Hn j Hjl) as (X1 & _ & W1). destruct (Hn (S j) ltac:(lia)) as (X2 & _ & W2).
    split; apply grow_one_within; simpl; destruct (j <? k)%nat; lia. }
  destruct (Hj k ltac:(lia)) as (Nk & Ak & eyk & Ek).
  rewrite (proj2 (Nat.ltb_lt k n) Hk), Nat.ltb_irrefl in Ek.
  destruct (Hn k ltac:(lia)) as (Xk & Pk & _). destruct (Hn (S k) ltac:(lia)) as (XSk & PSk & _).
  set (l' := set_l_edges [mkEdge k (S k) 1 eyk] (ls !!! k)).
  assert (shift_edges_layers ns ls = Some (<[k := l']> ls)) as Sh.
  { assert (ls !! k = Some (ls !!! k)) as Hlk by (apply list_lookup_lookup_total_lt; lia).
    rewrite insert_take_drop by lia. rewrite <- (take_drop_middle ls k _ Hlk) at 1.
    apply shift_split.
    - intros l0 Hl0. apply list_elem_of_lookup_1 in Hl0 as [i Hi].
      apply lookup_take_Some in Hi as [Hi Hik]. apply list_lookup_total_correct in Hi. subst l0.
      destruct (Hj i ltac:(lia)) as (_ & _ & ey & E). rewrite E.
      rewrite (proj2 (Nat.ltb_lt i n)) by lia. rewrite (proj2 (Nat.ltb_lt i k)) by lia.
      destruct (Hn i ltac:(lia)) as (X1 & P1 & _). destruct (Hn (S i) ltac:(lia)) as (X2 & P2 & _).
      cbn [shift_edges_in e_up e_down e_x e_y]. rewrite X1, P1, X2, P2. reflexivity.
    - rewrite Ek. cbn [shift_edges_in e_up e_down e_x e_y]. rewrite Xk, Pk, XSk, PSk. reflexivity. }
  exists (<[k := l']> ls). split.
  - unfold layout_step. rewrite T. cbn [negb]. unfold layout_edges_do_not_touch. rewrite T. cbn [negb].
    rewrite G. cbn [negb]. unfold layout_shift_edges. rewrite Sh. reflexivity.
  - split; [by rewrite length_insert|]. intros j Hjl. rewrite list_lookup_total_insert.
    case_decide as D.
    + destruct D as [<- _]. unfold l'. simpl. split_and!; [done|done|]. exists eyk.
      rewrite (proj2 (Nat.ltb_lt k n) Hk), (proj2 (Nat.ltb_lt k (S k))) by lia. reflexivity.
    + destruct (Hj j Hjl) as (N & A & ey & E). split_and!; [done|done|]. exists ey. rewrite E.
      assert (j <> k) as Hne by (intros ->; apply D; split; [done|lia]).
      destruct (Nat.ltb_spec j k), (Nat.ltb_spec j (S k)); done || lia.
Qed.

Lemma chain_relax n ns m : chain_nodes_ok n ns -> forall k ls, chain_state n k ls -> (k + m <= n)%nat ->
  exists ls', layout_relax m (ns, ls) = (ns, ls') /\ chain_state n (k + m) ls'.
Proof.
  intros Hn. induction m as [|m IH]; intros k ls Hc Hk.
  - exists ls. rewrite Nat.add_0_r. done.
  - destruct (chain_step n k ns ls Hn Hc ltac:(lia)) as (ls1 & E & Hc1).
    cbn [layout_relax]. rewrite E.
    destruct (IH (S k) ls1 Hc1 ltac:(lia)) as (ls2 & E2 & Hc2).
    exists ls2. split; [exact E2|]. by rewrite Nat.add_succ_r.
Qed.

Lemma margin_loop_ge chars w : chars <= w -> chars + 2 <= margin_loop 2 chars w.
Proof.
  intros H. cbn [margin_loop].
  destruct (Z.ltb_spec (w - chars) 2); [|lia].
  destruct (Z.ltb_spec (w + 1 - chars) 2); lia.
Qed.

Lemma node_size_geom ctx i n :
  x (node_size ctx i n) = x n /\ padding (node_size ctx i n) = padding n /\
  (is_connector n = false -> 3 <= width (node_size ctx i n)).
Proof.
  unfold node_size. destruct (is_connector n) eqn:C; [simpl; split_and!; done|].
  cbn [set_height set_width x padding width is_connector].
  split_and!; [done|done|]. intros _.
  set (chars := Z.of_nat (length (labels ctx !!! i))).
  set (w := Z.max (Z.max chars (Z.of_nat (size (upward n)))) (Z.of_nat (size (downward n)))).
  assert (chars <= w) as Hw by (unfold w; lia).
  pose proof (margin_loop_ge chars w Hw) as Hm. assert (0 <= chars) by (unfold chars; lia).
  revert Hm. generalize (margin_loop 2 chars w). intros m Hm.
  destruct (negb _); cbn [width set_height set_width]; lia.
Qed.

Lemma imap_lookup_total {A B} `{Inhabited A} `{Inhabited B} (f : nat -> A -> B) (l : list A) i :
  (i < length l)%nat -> imap f l !!! i = f i (l !!! i).
Proof.
  intros Hi. apply list_lookup_total_correct. rewrite list_lookup_imap.
  rewrite (list_lookup_lookup_total_lt l i Hi). done.
Qed.

Lemma adapters_disabled ns ls yys : (forall j, enabled (l_adapter (ls !!! j)) = false) ->
  foldlM (layout_adapter hs_iter ns) ls yys = Some ls.
Proof.
  intros H. induction yys as [|yy yys IH]; [done|].
  assert (layout_adapter hs_iter ns ls yy = Some ls) as E.
  { unfold layout_adapter. rewrite H. reflexivity. }
  cbn [foldlM]. rewrite E. cbn [mbind option_bind]. exact IH.
Qed.

Lemma chain_ok_spec n ctx : chain_ok n ctx = true ->
  length (nodes ctx) = S n /\
  (forall i, (i < S n)%nat -> x (nodes ctx !!! i) = 0 /\ padding (nodes ctx !!! i) = 1 /\
     is_connector (nodes ctx !!! i) = false) /\
  chain_state n 0 (layers ctx).
Proof.
  unfold chain_ok. intros H. apply andb_true_iff in H as [H H4].
  apply andb_true_iff in H as [H H3]. apply andb_true_iff in H as [H1 H2].
  apply Nat.eqb_eq in H1, H2. rewrite forallb_forall in H3, H4.
  split_and!; [done| |split; [done|]].
  - intros i Hi. specialize (H3 i ltac:(apply in_seq; lia)). simpl in H3.
    apply andb_true_iff in H3 as [H3 C]. apply andb_true_iff in H3 as [X P].
    apply Z.eqb_eq in X, P. apply negb_true_iff in C. done.
  - intros j Hj. specialize (H4 j ltac:(apply in_seq; lia)). simpl in H4.
    apply andb_true_iff in H4 as [H4 E]. apply andb_true_iff in H4 as [N A].
    apply bool_decide_eq_true in N, E. apply negb_true_iff in A.
    split_and!; [done|done|].
    rewrite (proj2 (Nat.ltb_ge j 0)) by lia.
    destruct (j <? n)%nat.
    + destruct (l_edges (layers ctx !!! j)) as [|e [|e' es]]; try discriminate.
      injection E as Hu Hd Hx. exists (e_y e). destruct e; simpl in *. by subst.
    + exists 0. by apply map_eq_nil in E.
Qed.

(** On a chain of more than 1001 vertices the 1000 rounds end before the
    last edges are shifted: the edge of layer 1000 stays at [x = 0], left of
    the padded interior of its upper vertex. *)
Lemma chain_layout_breaks n ctx : (1000 < n)%nat -> chain_ok n ctx = true ->
  exists ctx', layout hs_iter ctx = Some ctx' /\ ~ geometry_ok ctx'.
Proof.
  intros Hn Hok. destruct (chain_ok_spec n ctx Hok) as (Hlen & Hnodes & Hc).
  set (ns0 := imap (node_size ctx) (nodes ctx)).
  assert (chain_nodes_ok n ns0) as Hn0.
  { intros i Hi. unfold ns0. rewrite (imap_lookup_total (node_size ctx) (nodes ctx) i) by lia.
    destruct (Hnodes i Hi) as (X & P & C). destruct (node_size_geom ctx i (nodes ctx !!! i)) as (X' & P' & W').
    split_and!; [congruence|congruence|by apply W']. }
  destruct (chain_relax n ns0 1000 Hn0 0 (layers ctx) Hc ltac:(lia)) as (ls1 & E1 & Hc1).
  unfold layout. fold ns0. rewrite E1.
  destruct Hc1 as [L1 J1].
  rewrite adapters_disabled.
  2: { intros j. destruct (decide (j < S n)%nat) as [Hj|Hj]; [by apply J1|].
       rewrite lookup_total_ge by lia. done. }
  cbn [mbind option_bind].
  destruct (place 0 ns0 ls1) as [ns3 ls3] eqn:P.
  eexists. split; [reflexivity|]. intros Hg.
  apply place_keep in P as (PL & PG & PK).
  assert (ls3 !!! 1000%nat ∈ ls3) as Hm.
  { apply list_elem_of_lookup_2 with 1000%nat. apply list_lookup_lookup_total_lt. lia. }
  destruct (Hg _ Hm) as [_ He]. cbn [nodes layers] in He.
  destruct (J1 1000%nat ltac:(lia)) as (_ & _ & ey & E).
  rewrite (proj2 (Nat.ltb_lt 1000 n) Hn) in E. cbn in E.
  destruct (PK 1000%nat) as [_ PE]. rewrite E in PE.
  destruct (l_edges (ls3 !!! 1000%nat)) as [|e [|e' es]] eqn:E3; try discriminate.
  injection PE as Hu Hd Hx.
  destruct (He e ltac:(first [rewrite E3; left | left])) as [[U _] _].
  destruct (node_geom_parts _ _ (PG (e_up e))) as (X & P & _).
  rewrite X, P, Hu, Hx in U. destruct (Hn0 1000%nat ltac:(lia)) as (X0 & P0 & _). lia.
Qed.

End Geometry.

Section Pipeline.

Variable hs_iter : gset nat -> list nat.
Hypothesis hs_iter_perm : forall s, hs_iter s ≡ₚ elements s.

(** ** Parsing never fails and leaves every vertex on layer 0 *)

Definition names_ok (ctx : Context) (prev : option rstring) : Prop :=
  forall p, prev = Some p -> is_Some (id ctx !! p).

Definition layers_zero (ctx : Context) : Prop :=
  forall i, layer (nodes ctx !!! i) = 0%nat.

Lemma add_node_id_self ctx name : is_Some (id (add_node ctx name) !! name).
Proof.
  unfold add_node. destruct (id ctx !! name) eqn:E; [by eexists|].
  simpl. rewrite lookup_insert_eq. by eexists.
Qed.

Lemma add_node_id_mono ctx name p :
  is_Some (id ctx !! p) -> is_Some (id (add_node ctx name) !! p).
Proof.
  unfold add_node. destruct (id ctx !! name) eqn:E; [done|].
  simpl. intros Hp. destruct (decide (name = p)) as [->|?].
  - rewrite lookup_insert_eq. by eexists.
  - by rewrite lookup_insert_ne.
Qed.

Lemma add_node_layers_zero ctx name :
  layers_zero ctx -> layers_zero (add_node ctx name).
Proof.
  intros H i. destruct (add_node_cases ctx name) as [-> | [_ ->]]; [apply H|].
  simpl. rewrite lookup_snoc_total. specialize (H i). repeat case_decide; done.
Qed.

Lemma add_vertex_some ctx a b :
  is_Some (id ctx !! a) -> is_Some (id ctx !! b) ->
  exists ctx', add_vertex ctx a b = Some ctx' /\ id ctx' = id ctx /\
    (layers_zero ctx -> layers_zero ctx').
Proof.
  intros [ia Ha] [ib Hb]. unfold add_vertex. rewrite Ha, Hb.
  eexists; split; [done|]. split; [done|].
  intros H i. simpl. rewrite !list_lookup_total_alter.
  repeat case_decide; simpl; try apply H; unfold up_insert, down_insert; simpl; rewrite ?list_lookup_total_alter; repeat case_decide; simpl; apply H.
Qed.

Lemma parse_parts_some parts : forall ctx prev,
  names_ok ctx prev -> layers_zero ctx ->
  exists ctx', parse_parts ctx prev parts = Some ctx' /\ layers_zero ctx'.
Proof.
  induction parts as [|part parts IH]; simpl; intros ctx prev Hn Hz.
  - by eexists.
  - case_decide; [by apply IH|].
    pose proof (add_node_layers_zero ctx (trim part) Hz) as Hz'.
    destruct prev as [p|].
    + destruct (add_vertex_some (add_node ctx (trim part)) p (trim part))
        as (c & -> & Hid & Hzc).
      { apply add_node_id_mono, Hn. done. }
      { apply add_node_id_self. }
      simpl. apply IH; [|by apply Hzc].
      intros q [= <-]. rewrite Hid. apply add_node_id_self.
    + apply IH; [|done]. intros q [= <-]. apply add_node_id_self.
Qed.

Lemma parse_lines_some lines : forall ctx,
  layers_zero ctx ->
  exists ctx', parse_lines ctx lines = Some ctx' /\ layers_zero ctx'.
Proof.
  induction lines as [|l lines IH]; simpl; intros ctx Hz.
  - by eexists.
  - case_decide; [by apply IH|].
    destruct (parse_parts_some (split (trim l) arrow) ctx None) as (c & -> & Hc);
      [by intros ? ?|done|].
    simpl. by apply IH.
Qed.

Lemma parse_default_some s :
  exists ctx, parse context_default s = Some ctx /\ layers_zero ctx /\ ctx_wf ctx.
Proof.
  destruct (parse_lines_some (split s newline) context_default) as (c & Hp & Hz).
  { intros i. simpl. reflexivity. }
  exists c. split_and!; [done|done|]. eapply parse_wf; [apply default_wf|done].
Qed.

(** Token-free lines leave the context untouched. *)
Lemma parse_parts_blank parts ctx prev :
  (forall part, part ∈ parts -> trim part = []) -> parse_parts ctx prev parts = Some ctx.
Proof.
  revert prev. induction parts as [|part parts IH]; simpl; intros prev H; [done|].
  rewrite decide_True by (apply H; left). apply IH. intros q Hq. apply H. by right.
Qed.

Lemma parse_lines_blank lines ctx :
  (forall line, line ∈ lines -> forall part, part ∈ split (trim line) arrow -> trim part = []) ->
  parse_lines ctx lines = Some ctx.
Proof.
  induction lines as [|l lines IH]; simpl; intros H; [done|].
  assert (parse_lines ctx lines = Some ctx) as E.
  { apply IH. intros q Hq. apply H. by right. }
  case_decide; [done|]. rewrite parse_parts_blank; [done|]. apply H. left.
Qed.

Lemma no_cycle_nil : ~ has_cycle [].
Proof. intros [v Hv]. destruct Hv as [? ? [Ha _]|? ? ? [Ha _] _]; simpl in Ha; lia. Qed.

(** ** C1 *)

Lemma bind_never_err {A B} (m : option A) (f : A -> option (result rstring B)) e :
  (forall a, f a <> Some (Err e)) -> m ≫= f <> Some (Err e).
Proof. intros H. destruct m; simpl; [apply H|discriminate]. Qed.

(** C1: for every input string, [process] returns the error [CycleFound]
    exactly when the graph described by the parsed edge set (the [downward]
    sets of the registry built by [parse], which always succeeds) contains a
    directed cycle.  The error carries no diagram: [result] holds either the
    string or the error. *)
Theorem process_cycle_found_iff_cycle (s : rstring) :
  exists ctx, parse context_default s = Some ctx /\
    (process hs_iter s = Some (Err CycleFound) <-> has_cycle (nodes ctx)).
Proof.
  destruct (parse_default_some s) as (ctx & Hp & Hz & [Hr _]).
  exists ctx. split; [done|]. unfold process. rewrite Hp. simpl.
  destruct (is_empty ctx) eqn:E.
  - assert (nodes ctx = []) as Hn by (unfold is_empty in E; by destruct (nodes ctx)).
    rewrite Hn. split; [discriminate|]. intros Hc. by destruct (no_cycle_nil Hc).
  - assert (0 < length (nodes ctx))%nat as Hl.
    { unfold is_empty in E. destruct (nodes ctx); simpl; [done|lia]. }
    destruct (toposort_spec hs_iter hs_iter_perm ctx Hr Hl Hz) as [Hiff _].
    destruct (toposort hs_iter ctx) as [c|[]].
    + split; [|intros Hc; by apply Hiff in Hc].
      intros Hs. exfalso. revert Hs.
      repeat (apply bind_never_err; intros ?; cbv beta). intros ?; congruence.
    + split; [intros _; by apply Hiff|done].
Qed.

(** ** C4 *)

(** C4: an input with zero vertices after parsing (the empty string, a
    whitespace-only string, or lines without a non-empty token between the
    arrows) makes [process] return [Ok] with the empty string. *)
Theorem zero_vertex_input_empty_output (s : rstring) :
  ((forall line, line ∈ split s newline ->
     forall part, part ∈ split (trim line) arrow -> trim part = []) \/
   exists ctx, parse context_default s = Some ctx /\ nodes ctx = []) ->
  process hs_iter s = Some (Ok []).
Proof.
  intros H.
  assert (exists ctx, parse context_default s = Some ctx /\ nodes ctx = []) as (ctx & Hp & Hn).
  { destruct H as [H|H]; [|done]. exists context_default. split; [|done].
    by apply parse_lines_blank. }
  unfold process. rewrite Hp. simpl. unfold is_empty. by rewrite Hn.
Qed.

(** C3: once [toposort] has succeeded on a parsed input, [complete]
    returns (within the fuel [1 + span_excess], so it terminates) a
    registry in which every [b] in the [downward] set of a vertex [a] lies on
    layer [layer a + 1]; and every splice of a connector into an edge that
    skips layers lowers the total number of skipped layers by one. *)
Theorem complete_layers_adjacent (s : rstring) (ctx ctx1 : Context) :
  parse context_default s = Some ctx -> toposort hs_iter ctx = Ok ctx1 ->
  (exists ctx2, complete hs_iter ctx1 = Some ctx2 /\
    forall a b, (a < length (nodes ctx2))%nat -> b ∈ downward (nodes ctx2 !!! a) ->
      layer (nodes ctx2 !!! b) = S (layer (nodes ctx2 !!! a))) /\
  (forall c a b, complete_inv c -> (a < length (nodes c))%nat -> b ∈ downward (nodes c !!! a) ->
    S (layer (nodes c !!! a)) <> layer (nodes c !!! b) ->
    S (span_excess (nodes (add_connector c a b))) = span_excess (nodes c)).
Proof.
  intros Hp Ht. split; [|apply (span_add_connector hs_iter hs_iter_perm)].
  destruct (parse_default_some s) as (c & Hp' & Hz & Hw).
  rewrite Hp in Hp'. injection Hp' as <-.
  destruct Hw as [Hr _].
  destruct (nodes ctx) as [|n ns] eqn:E.
  { unfold toposort in Ht. rewrite E in Ht. discriminate Ht. }
  assert (0 < length (nodes ctx))%nat as Hpos by (rewrite E; simpl; lia).
  destruct (toposort_spec hs_iter hs_iter_perm ctx Hr Hpos Hz) as [_ Hok].
  destruct (Hok ctx1 Ht) as (_ & _ & _ & [Hl Hd] & Hlt).
  assert (complete_inv ctx1) as Hinv.
  { split; [|done]. intros i j Hi Hj. rewrite Hl in *. rewrite Hd in Hj.
    apply (proj1 Hr i j Hi). set_solver. }
  destruct (complete_loop_spec hs_iter hs_iter_perm (S (span_excess (nodes ctx1))) ctx1 Hinv)
    as (ctx2 & H1 & _ & H2); [lia|].
  exists ctx2. split; [done|]. done.
Qed.

End Pipeline.

(** ** The screen ([src/screen.rs]) *)

Section ScreenProps.

(** A screen whose [lines] are [dim_y] rows of [dim_x] chars each. *)
Definition screen_ok (sc : Screen) : Prop :=
  length (lines sc) = dim_y sc /\ Forall (fun r => length r = dim_x sc) (lines sc).

(** The pixels after the writes [ws], in order, over the pixels [f]. *)
Definition upd (f : nat -> nat -> option Z) (w : nat * nat * Z) : nat -> nat -> option Z :=
  fun px py => let '(xx, yy, c) := w in
    if decide (px = xx /\ py = yy) then Some c else f px py.

Definition painted (f : nat -> nat -> option Z) (ws : list (nat * nat * Z)) :=
  fold_left upd ws f.

(** [sc'] is [sc] after the in-range writes [ws]. *)
Definition paints (sc sc' : Screen) (ws : list (nat * nat * Z)) : Prop :=
  screen_ok sc' /\ dim_x sc' = dim_x sc /\ dim_y sc' = dim_y sc /\
  Forall (fun '(xx, yy, _) => xx < dim_x sc /\ yy < dim_y sc)%nat ws /\
  forall px py, pixel sc' px py = painted (pixel sc) ws px py.

Lemma lookup_map_opt {A B} (f : A -> B) (l : list A) i : map f l !! i = f <$> (l !! i).
Proof. revert i; induction l as [|a l IH]; intros [|i]; simpl; auto. Qed.

Lemma row_length sc r yy : screen_ok sc -> lines sc !! yy = Some r -> length r = dim_x sc.
Proof. intros [_ Hf] E. exact (Forall_lookup_1 _ _ _ _ Hf E). Qed.

Lemma pixel_in sc px py : screen_ok sc ->
  is_Some (pixel sc px py) <-> (px < dim_x sc /\ py < dim_y sc)%nat.
Proof.
  intros Hs. pose proof Hs as [Hl _]. unfold pixel. split.
  - intros [c Hc]. destruct (lines sc !! py) as [r|] eqn:E; simpl in Hc; [|discriminate].
    pose proof (row_length sc r py Hs E) as Hr.
    apply lookup_lt_Some in Hc. apply lookup_lt_Some in E. lia.
  - intros [Hx Hy]. destruct (lookup_lt_is_Some_2 (lines sc) py) as [r E]; [lia|].
    rewrite E. simpl. apply lookup_lt_is_Some_2. by rewrite (row_length sc r py Hs E).
Qed.

Lemma draw_pixel_spec sc xx yy c : screen_ok sc ->
  match draw_pixel sc xx yy c with
  | Some sc' => paints sc sc' [(xx, yy, c)]
  | None => ~ (xx < dim_x sc /\ yy < dim_y sc)%nat
  end.
Proof.
  intros Hs. pose proof Hs as [Hl Hf]. unfold draw_pixel.
  destruct (lines sc !! yy) as [r|] eqn:E; cbn [mbind option_bind].
  - pose proof (row_length sc r yy Hs E) as Hr. pose proof (lookup_lt_Some _ _ _ E) as Hy.
    destruct (Nat.ltb_spec xx (length r)) as [Hx|Hx].
    + split; [unfold screen_ok; cbn [lines dim_x dim_y]; split|split_and!; [done|done|by repeat constructor; lia|]].
      * by rewrite length_insert.
      * apply Forall_insert; [done|]. by rewrite length_insert.
      * intros px py. unfold pixel, painted. cbn [lines fold_left upd]. rewrite list_lookup_insert.
        destruct (decide (yy = py /\ yy < length (lines sc))%nat) as [[<- _]|Hn].
        -- simpl. rewrite list_lookup_insert, E. simpl.
           destruct (decide (xx = px /\ xx < length r)%nat) as [[<- _]|Hn'];
             repeat case_decide; naive_solver lia.
        -- repeat case_decide; naive_solver lia.
    + lia.
  - apply lookup_ge_None in E. lia.
Qed.

Lemma draw_pixel_some sc xx yy c sc' : screen_ok sc -> draw_pixel sc xx yy c = Some sc' ->
  paints sc sc' [(xx, yy, c)].
Proof. intros Hs E. pose proof (draw_pixel_spec sc xx yy c Hs) as H. by rewrite E in H. Qed.

Lemma draw_pixel_in sc xx yy c : screen_ok sc -> (xx < dim_x sc)%nat -> (yy < dim_y sc)%nat ->
  exists sc', draw_pixel sc xx yy c = Some sc' /\ paints sc sc' [(xx, yy, c)].
Proof.
  intros Hs Hx Hy. pose proof (draw_pixel_spec sc xx yy c Hs) as H.
  destruct (draw_pixel sc xx yy c) as [sc'|]; [by exists sc'|lia].
Qed.

Lemma draw_pixel_out sc xx yy c : screen_ok sc -> ~ (xx < dim_x sc /\ yy < dim_y sc)%nat ->
  draw_pixel sc xx yy c = None.
Proof.
  intros Hs Hn. pose proof (draw_pixel_spec sc xx yy c Hs) as H.
  destruct (draw_pixel sc xx yy c) as [sc'|]; [|done].
  destruct H as (_ & _ & _ & Hf & _). inversion Hf; subst. lia.
Qed.

Lemma painted_ext f g ws px py : (forall a b, f a b = g a b) ->
  painted f ws px py = painted g ws px py.
Proof.
  unfold painted. revert f g. induction ws as [|[[a b] c] ws IH]; intros f g H; simpl; [apply H|].
  apply IH. intros a' b'. simpl. case_decide; [done|apply H].
Qed.

Lemma paints_nil sc : screen_ok sc -> paints sc sc [].
Proof. intros Hs. split_and!; try done. Qed.

Lemma paints_trans s1 s2 s3 w1 w2 : paints s1 s2 w1 -> paints s2 s3 w2 -> paints s1 s3 (w1 ++ w2).
Proof.
  intros (H1 & Hx1 & Hy1 & Hf1 & Hp1) (H2 & Hx2 & Hy2 & Hf2 & Hp2).
  split_and!; [done|congruence|congruence| |].
  - apply Forall_app. split; [done|]. rewrite Hx1, Hy1 in Hf2. done.
  - intros px py. rewrite Hp2. unfold painted at 2. rewrite fold_left_app.
    apply painted_ext. apply Hp1.
Qed.

Lemma foldlM_paints {B} (step : Screen -> B -> option Screen) (w : B -> list (nat * nat * Z))
  (l : list B) sc : screen_ok sc ->
  (forall s b, b ∈ l -> screen_ok s -> dim_x s = dim_x sc -> dim_y s = dim_y sc ->
     exists s', step s b = Some s' /\ paints s s' (w b)) ->
  exists sc', foldlM step sc l = Some sc' /\ paints sc sc' (concat (map w l)).
Proof.
  intros Hs. revert sc Hs. induction l as [|b l IH]; intros sc Hs H; simpl; [by exists sc; split; [|apply paints_nil]|].
  destruct (H sc b ltac:(left) Hs eq_refl eq_refl) as (s1 & E1 & P1). rewrite E1. simpl.
  destruct P1 as (Hs1 & Hx1 & Hy1 & Hr1). 
  destruct (IH s1 Hs1) as (s' & E' & P'); [|exists s'; split; [done|]].
  - intros s b' Hb. rewrite Hx1, Hy1. apply H. by right.
  - exact (paints_trans sc s1 s' _ _ (conj Hs1 (conj Hx1 (conj Hy1 Hr1))) P').
Qed.

Lemma painted_miss f ws px py :
  Forall (fun '(xx, yy, _) => ~ (xx = px /\ yy = py)) ws -> painted f ws px py = f px py.
Proof.
  unfold painted. revert f. induction ws as [|[[a b] c] ws IH]; intros f H; simpl; [done|].
  inversion H as [|? ? Hab Hws]; subst. rewrite IH; [|done]. simpl. case_decide; naive_solver.
Qed.

Lemma painted_hit f ws1 c ws2 px py :
  Forall (fun '(xx, yy, _) => ~ (xx = px /\ yy = py)) ws2 ->
  painted f (ws1 ++ (px, py, c) :: ws2) px py = Some c.
Proof.
  intros H. unfold painted. rewrite fold_left_app. simpl. fold (painted (upd (fold_left upd ws1 f) (px, py, c)) ws2).
  rewrite painted_miss; [|done]. simpl. by rewrite decide_True.
Qed.


Lemma painted_app f w1 w2 px py : painted f (w1 ++ w2) px py = painted (painted f w1) w2 px py.
Proof. unfold painted. by rewrite fold_left_app. Qed.

Definition text_writes (dx xx yy : nat) (b : nat * Z) : list (nat * nat * Z) :=
  let '(i, ch) := b in if (xx + i <? dx)%nat then [((xx + i)%nat, yy, ch)] else [].

Lemma text_writes_painted f dx xx yy (l : rstring) : forall k px py,
  painted f (concat (map (text_writes dx xx yy) (zip (seq k (length l)) l))) px py =
  if decide (py = yy /\ xx + k <= px < xx + k + length l /\ px < dx)%nat
  then l !! (px - xx - k)%nat else f px py.
Proof.
  revert f. induction l as [|a l IH]; intros f k px py.
  - simpl. case_decide; [lia|done].
  - cbn [length seq zip_with map concat]. rewrite painted_app, IH.
    unfold text_writes. destruct (Nat.ltb_spec (xx + k) dx); cbn [painted fold_left upd].
    + repeat case_decide; try lia;
        first [done | (replace (px - xx - k)%nat with (S (px - xx - S k)) by lia; done)
              | (replace (px - xx - k)%nat with 0%nat by lia; done) | naive_solver lia].
    + repeat case_decide; try lia;
        first [done | (replace (px - xx - k)%nat with (S (px - xx - S k)) by lia; done)].
Qed.

Lemma draw_text_skip sc xx yy (l : rstring) k : (dim_x sc <= xx)%nat ->
  foldlM (fun sc '(i, ch) =>
    if (xx + i <? dim_x sc)%nat then draw_pixel sc (xx + i) yy ch else Some sc)
    sc (zip (seq k (length l)) l) = Some sc.
Proof.
  intros H. revert k. induction l as [|a l IH]; intros k; [done|].
  cbn [length seq zip_with foldlM]. destruct (Nat.ltb_spec (xx + k) (dim_x sc)); [lia|]. apply IH.
Qed.


Lemma draw_text_spec (sc : Screen) (xx yy : nat) (text : rstring) :
  screen_ok sc ->
  (draw_text sc xx yy text = None <-> (dim_y sc <= yy /\ xx < dim_x sc /\ text <> [])%nat) /\
  (forall sc', draw_text sc xx yy text = Some sc' ->
    screen_ok sc' /\ dim_x sc' = dim_x sc /\ dim_y sc' = dim_y sc /\
    forall px py, pixel sc' px py =
      if decide (py = yy /\ xx <= px < xx + length text /\ px < dim_x sc)%nat
      then text !! (px - xx)%nat else pixel sc px py).
Proof.
  intros Hs. unfold draw_text.
  destruct (decide (yy < dim_y sc)%nat) as [Hy|Hy].
  - destruct (foldlM_paints (fun sc '(i, ch) =>
        if (xx + i <? dim_x sc)%nat then draw_pixel sc (xx + i) yy ch else Some sc) (text_writes (dim_x sc) xx yy) (zip (seq 0 (length text)) text) sc Hs)
      as (sc' & E & P).
    { intros s [i ch] _ Hs' Hx' Hy'. cbn [text_writes]. rewrite Hx'.
      destruct (Nat.ltb_spec (xx + i) (dim_x sc)).
      - apply draw_pixel_in; [done|lia|lia].
      - exists s. split; [done|by apply paints_nil]. }
    rewrite E. split; [split; [discriminate|lia]|].
    intros sc'' [= <-]. destruct P as (H1 & H2 & H3 & _ & H5). split_and!; [done..|].
    intros px py. rewrite H5, (text_writes_painted _ _ _ _ text 0).
    rewrite !Nat.add_0_r, Nat.sub_0_r. done.
  - destruct (decide (xx < dim_x sc /\ text <> [])%nat) as [[Hx Ht]|Hn].
    + destruct text as [|a t]; [done|]. cbn [length seq zip_with foldlM].
      rewrite Nat.add_0_r. destruct (Nat.ltb_spec xx (dim_x sc)); [|lia].
      rewrite draw_pixel_out; [|done|lia]. simpl. split; [split; [intros _; split_and!; [lia|done|done]|done]|discriminate].
    + assert (foldlM (fun sc '(i, ch) =>
        if (xx + i <? dim_x sc)%nat then draw_pixel sc (xx + i) yy ch else Some sc)
        sc (zip (seq 0 (length text)) text) = Some sc) as ->.
      { destruct (decide (dim_x sc <= xx)%nat); [by apply draw_text_skip|].
        destruct text; [done|naive_solver lia]. }
      split; [split; [discriminate|naive_solver]|].
      intros sc' [= <-]. split_and!; [done..|]. intros px py.
      case_decide as Hc; [|done]. destruct text; simpl in Hc; [lia|naive_solver lia].
Qed.

(** Extra: [Screen::draw_text] on a well-formed screen fails (panics)
    exactly when its row is below the screen and its first char is
    visible; otherwise it writes the chars that fall left of the right edge
    and drops the others, leaving every other pixel and the size as they
    were. *)
Theorem draw_text_clips_right (sc : Screen) (xx yy : nat) (text : rstring) :
  screen_ok sc ->
  (draw_text sc xx yy text = None <-> (dim_y sc <= yy /\ xx < dim_x sc /\ text <> [])%nat) /\
  (forall sc', draw_text sc xx yy text = Some sc' ->
    screen_ok sc' /\ dim_x sc' = dim_x sc /\ dim_y sc' = dim_y sc /\
    forall px py, pixel sc' px py =
      if decide (py = yy /\ xx <= px < xx + length text /\ px < dim_x sc)%nat
      then text !! (px - xx)%nat else pixel sc px py).
Proof. apply draw_text_spec. Qed.


Lemma lookup_vec_resize {A} n (v : A) l i :
  vec_resize n v l !! i = if decide (i < n)%nat then Some (default v (l !! i)) else None.
Proof.
  unfold vec_resize. rewrite lookup_app, lookup_take, length_take.
  destruct (decide (i < n)%nat) as [Hi|Hi].
  - destruct (l !! i) as [a|] eqn:E; [done|]. apply lookup_ge_None in E. simpl.
    apply lookup_replicate_2. lia.
  - destruct (lookup_replicate_None (n - length l) v (i - Nat.min n (length l))) as [H _].
    rewrite H; [done|lia].
Qed.

Lemma resize_spec (sc : Screen) (new_x new_y : nat) :
  screen_ok (resize sc new_x new_y) /\
  dim_x (resize sc new_x new_y) = new_x /\ dim_y (resize sc new_x new_y) = new_y /\
  forall px py, pixel (resize sc new_x new_y) px py =
    if decide (px < new_x /\ py < new_y)%nat then Some (default 32 (pixel sc px py)) else None.
Proof.
  split; [split|split_and!; [done|done|]].
  - simpl. rewrite length_map. unfold vec_resize. rewrite length_app, length_take, length_replicate. lia.
  - simpl. apply Forall_lookup. intros i r Hr. rewrite lookup_map_opt in Hr.
    destruct (vec_resize new_y (replicate new_x 32) (lines sc) !! i) as [r0|]; simplify_eq/=.
    unfold vec_resize. rewrite length_app, length_take, length_replicate. lia.
  - intros px py. unfold pixel. simpl. rewrite lookup_map_opt, lookup_vec_resize.
    destruct (decide (py < new_y)%nat) as [Hy|Hy]; simpl.
    + rewrite lookup_vec_resize. destruct (lines sc !! py) as [r|]; simpl.
      * repeat case_decide; naive_solver lia.
      * repeat case_decide; try naive_solver lia. by rewrite lookup_replicate_2 by lia.
    + case_decide; [lia|done].
Qed.

(** Extra: [Screen::resize] always yields a screen of [new_y] rows of
    [new_x] chars; a pixel inside both the old and the new size keeps its
    char, and every pixel added by the growth is a space. *)
Theorem resize_keeps_overlap (sc : Screen) (new_x new_y : nat) :
  screen_ok (resize sc new_x new_y) /\
  dim_x (resize sc new_x new_y) = new_x /\ dim_y (resize sc new_x new_y) = new_y /\
  forall px py, pixel (resize sc new_x new_y) px py =
    if decide (px < new_x /\ py < new_y)%nat then Some (default 32 (pixel sc px py)) else None.
Proof. apply resize_spec. Qed.



Lemma concat_rows_lookup (dx : nat) (L : list rstring) : Forall (fun r => length r = dx) L ->
  forall r c, (c <= dx)%nat ->
  concat (map (fun r => r ++ [10]) L) !! ((dx + 1) * r + c)%nat = L !! r ≫= fun row => (row ++ [10]) !! c.
Proof.
  induction 1 as [|row L Hrow HL IH]; intros r c Hc; simpl.
  - apply lookup_ge_None. simpl. lia.
  - destruct r as [|r].
    + rewrite Nat.mul_0_r, Nat.add_0_l, lookup_app_l; [done|]. rewrite length_app. simpl. lia.
    + rewrite lookup_app_r; [|rewrite length_app; simpl; lia].
      rewrite length_app, Hrow. simpl. rewrite <- IH by done. f_equal. lia.
Qed.

Lemma concat_rows_length (dx : nat) (L : list rstring) : Forall (fun r => length r = dx) L ->
  length (concat (map (fun r => r ++ [10]) L)) = ((dx + 1) * length L)%nat.
Proof.
  induction 1 as [|row L Hrow HL IH]; simpl; [lia|].
  rewrite length_app, IH, length_app, Hrow. simpl. lia.
Qed.

(** Extra: [Screen::stringify] of a well-formed screen is its rows one
    after the other, each followed by a newline: [(dim_x + 1) * dim_y]
    chars, where the char at column [c] of line [r] is the pixel [(c, r)]
    and column [dim_x] holds the newline. *)
Theorem stringify_rows (sc : Screen) : screen_ok sc ->
  length (stringify sc) = ((dim_x sc + 1) * dim_y sc)%nat /\
  forall r c, (r < dim_y sc)%nat -> (c <= dim_x sc)%nat ->
    stringify sc !! ((dim_x sc + 1) * r + c)%nat =
    if decide (c = dim_x sc) then Some 10 else pixel sc c r.
Proof.
  intros Hs. pose proof Hs as [Hl Hf]. unfold stringify. split.
  - rewrite (concat_rows_length (dim_x sc)); [|done]. by rewrite Hl.
  - intros r c Hr Hc. rewrite (concat_rows_lookup (dim_x sc)); [|done|done].
    unfold pixel. destruct (lookup_lt_is_Some_2 (lines sc) r) as [row E]; [lia|]. rewrite E. simpl.
    pose proof (row_length sc row r Hs E) as Hrow.
    rewrite lookup_app. case_decide as Hd.
    + subst c. rewrite <- Hrow. rewrite (proj2 (lookup_ge_None row (length row))) by lia.
      by rewrite Nat.sub_diag.
    + destruct (lookup_lt_is_Some_2 row c) as [ch Ec]; [lia|]. by rewrite Ec.
Qed.

(** The box-drawing and arrow chars [Screen::asciify] replaces:
    ─ │ ┌ ┐ └ ┘ ├ ┤ ┬ ┴ △ ▽. *)
Definition asciified_chars : list Z :=
  [9472; 9474; 9484; 9488; 9492; 9496; 9500; 9508; 9516; 9524; 9651; 9661].

Lemma asciify_char_other style c : c ∉ asciified_chars -> asciify_char style c = c.
Proof.
  intros H. rewrite list_elem_of_In in H. simpl in H. unfold asciify_char.
  repeat match goal with
  | |- context [c =? ?k] => destruct (Z.eqb_spec c k); [exfalso; apply H; lia|]
  end. reflexivity.
Qed.

Lemma asciify_char_idem style c : asciify_char style (asciify_char style c) = asciify_char style c.
Proof.
  destruct (decide (c ∈ asciified_chars)) as [Hc|Hc]; [|rewrite (asciify_char_other style c Hc); exact (asciify_char_other style c Hc)].
  rewrite list_elem_of_In in Hc. simpl in Hc.
  repeat destruct Hc as [<-|Hc]; try done; destruct style as [|[|s]]; reflexivity.
Qed.


Lemma pixel_asciify style sc px py :
  pixel (asciify style sc) px py = asciify_char style <$> pixel sc px py.
Proof.
  unfold pixel, asciify. cbn [lines]. rewrite lookup_map_opt.
  destruct (lines sc !! py) as [r|]; simpl; [apply lookup_map_opt|done].
Qed.

(** Extra: [Screen::asciify] with style 0 or 1 leaves none of the
    box-drawing and arrow chars it knows (─ │ ┌ ┐ └ ┘ ├ ┤ ┬ ┴ △ ▽) on the
    screen, but it keeps the cross ┼, which it has no case for; the size of
    the screen is unchanged. *)
Theorem asciify_removes_line_chars (style : nat) (sc : Screen) : (style = 0 \/ style = 1)%nat ->
  dim_x (asciify style sc) = dim_x sc /\ dim_y (asciify style sc) = dim_y sc /\
  (forall px py c, pixel (asciify style sc) px py = Some c -> c ∉ asciified_chars) /\
  (forall px py, pixel sc px py = Some 9532 -> pixel (asciify style sc) px py = Some 9532).
Proof.
  intros Hst. split_and!; [done|done| |].
  - intros px py c. rewrite pixel_asciify. destruct (pixel sc px py) as [c0|]; [|done].
    intros [= <-]. destruct (decide (c0 ∈ asciified_chars)) as [Hc|Hc];
      [|by rewrite asciify_char_other].
    rewrite list_elem_of_In in Hc. simpl in Hc.
    repeat destruct Hc as [<-|Hc]; try done;
      destruct Hst as [->| ->]; rewrite list_elem_of_In; unfold asciify_char; simpl; lia.
  - intros px py E. by rewrite pixel_asciify, E.
Qed.

(** Extra: [Screen::asciify] is idempotent for every style: a second pass
    with the same style changes nothing. *)
Theorem asciify_idempotent (style : nat) (sc : Screen) :
  asciify style (asciify style sc) = asciify style sc.
Proof.
  unfold asciify. cbn [lines dim_x dim_y]. f_equal.
  rewrite map_map. apply map_ext. intros r. rewrite map_map. apply map_ext.
  apply asciify_char_idem.
Qed.


(** The chars [Screen::draw_vertical_line_complete] may write:
    ─ │ ┌ ┐ └ ┘ ├ ┤ ┬ ┴ ┼. *)
Definition line_chars : list Z :=
  [9472; 9474; 9484; 9488; 9492; 9496; 9500; 9508; 9516; 9524; 9532].

Lemma vlc_char_spec s top bottom xx yy : screen_ok s -> (xx < dim_x s)%nat -> (yy < dim_y s)%nat ->
  exists c, vlc_char s top bottom xx yy = Some c /\ c ∈ line_chars /\
    (c = 9472 -> yy = top /\ yy = bottom).
Proof.
  intros Hs Hx Hy. destruct (proj2 (pixel_in s xx yy Hs) (conj Hx Hy)) as [ch Ech].
  unfold vlc_char. rewrite Ech. cbn [mbind option_bind].
  assert (exists l, (if (0 <? xx)%nat then pixel s (xx - 1) yy ≫= (fun p => Some (negb (p =? 32)))
                     else Some false) = Some l) as [l El].
  { destruct (Nat.ltb_spec 0 xx); [|by eexists].
    assert (xx - 1 < dim_x s)%nat as Hx' by lia.
    destruct (proj2 (pixel_in s (xx - 1) yy Hs) (conj Hx' Hy)) as [p Ep].
    rewrite Ep. by eexists. }
  assert (exists r, (if (xx + 1 <? dim_x s)%nat then pixel s (xx + 1) yy ≫= (fun p => Some (negb (p =? 32)))
                     else Some false) = Some r) as [r Er].
  { destruct (Nat.ltb_spec (xx + 1) (dim_x s)) as [H|H]; [|by eexists].
    destruct (proj2 (pixel_in s (xx + 1) yy Hs) (conj H Hy)) as [p Ep].
    rewrite Ep. by eexists. }
  destruct (ch =? 9472).
  - rewrite El. cbn [mbind option_bind]. rewrite Er. cbn [mbind option_bind].
    destruct (Nat.eqb_spec yy top), (Nat.eqb_spec yy bottom), l, r; cbn;
      (eexists; split; [reflexivity|]); (split; [rewrite list_elem_of_In; simpl; lia|intros Hc; lia]).
  - destruct ((ch =? 9488) || (ch =? 9496)); [|destruct ((ch =? 9484) || (ch =? 9492));
      [|destruct ((ch =? 9516) || (ch =? 9524))]];
      (eexists; split; [reflexivity|]); (split; [rewrite list_elem_of_In; simpl; lia|intros Hc; lia]).
Qed.

Lemma vlc_fold s top bottom xx ys : screen_ok s -> (xx < dim_x s)%nat ->
  Forall (fun yy => yy < dim_y s)%nat ys -> NoDup ys ->
  exists s', foldlM (fun sc yy => vlc_char sc top bottom xx yy ≫= fun c => draw_pixel sc xx yy c) s ys = Some s' /\
    screen_ok s' /\ dim_x s' = dim_x s /\ dim_y s' = dim_y s /\
    (forall px py, ~ (px = xx /\ py ∈ ys) -> pixel s' px py = pixel s px py) /\
    (forall py, py ∈ ys -> exists c, pixel s' xx py = Some c /\ c ∈ line_chars /\
       (c = 9472 -> py = top /\ py = bottom)).
Proof.
  revert s. induction ys as [|y ys IH]; intros s Hs Hx Hf Hnd; simpl.
  - exists s. split_and!; try done. intros py Hp. by apply elem_of_nil in Hp.
  - inversion Hf as [|? ? Hy Hf']; subst. inversion Hnd as [|? ? Hn Hnd']; subst.
    destruct (vlc_char_spec s top bottom xx y Hs Hx Hy) as (c & Ec & Hc & Hc2).
    rewrite Ec. cbn [mbind option_bind].
    destruct (draw_pixel_in s xx y c Hs Hx Hy) as (s1 & E1 & Hs1 & Hx1 & Hy1 & _ & Hp1).
    rewrite E1. cbn [mbind option_bind].
    destruct (IH s1) as (s' & E' & Hs' & Hx' & Hy' & Hout & Hin); [done|lia|by rewrite Hy1|done|].
    exists s'. split_and!; [done|done|congruence|congruence| |].
    + intros px py Hn'. rewrite Hout by set_solver. rewrite Hp1. cbn [painted fold_left upd].
      case_decide; [|done]. exfalso. apply Hn'. split; [lia|]. apply elem_of_cons. left. lia.
    + intros py Hp. apply elem_of_cons in Hp as [->|Hp]; [|by apply Hin].
      rewrite Hout by set_solver. rewrite Hp1. cbn [painted fold_left upd].
      rewrite decide_True by done. by exists c.
Qed.

(** Extra: [Screen::draw_vertical_line_complete] on column [xx] of a
    well-formed screen, with [xx] and [bottom] inside it, never panics; it
    changes only the cells of the column from [top] to [bottom], each of
    which becomes a line char (─ │ ┌ ┐ └ ┘ ├ ┤ ┬ ┴ ┼), and a cell keeps or
    gets the horizontal ─ only when the column is a single row
    ([top = bottom]). *)
Theorem draw_vertical_line_complete_chars (sc : Screen) (top bottom xx : nat) :
  screen_ok sc -> (xx < dim_x sc)%nat -> (bottom < dim_y sc)%nat ->
  exists sc', draw_vertical_line_complete sc top bottom xx = Some sc' /\
    screen_ok sc' /\ dim_x sc' = dim_x sc /\ dim_y sc' = dim_y sc /\
    (forall px py, ~ (px = xx /\ top <= py <= bottom)%nat -> pixel sc' px py = pixel sc px py) /\
    (forall py, (top <= py <= bottom)%nat -> exists c, pixel sc' xx py = Some c /\
       c ∈ line_chars /\ (c = 9472 -> top = bottom)).
Proof.
  intros Hs Hx Hb. unfold draw_vertical_line_complete.
  destruct (vlc_fold sc top bottom xx (seq top (S bottom - top)) Hs Hx) as
    (s' & E & Hs' & Hx' & Hy' & Hout & Hin).
  { apply Forall_forall. intros y Hy. apply elem_of_seq in Hy. lia. }
  { apply NoDup_seq. }
  exists s'. split_and!; try done.
  - intros px py Hn. apply Hout. intros [-> Hp]. apply Hn. apply elem_of_seq in Hp. lia.
  - intros py Hp. destruct (Hin py) as (c & Ep & Hc & Hc2); [apply elem_of_seq; lia|].
    exists c. split_and!; [done|done|]. intros Hc3. destruct (Hc2 Hc3). lia.
Qed.


Lemma zip_seq_elem {A} (L : list A) k i a :
  (i, a) ∈ zip (seq k (length L)) L -> (k <= i)%nat /\ L !! (i - k)%nat = Some a.
Proof.
  revert k. induction L as [|b L IH]; intros k H; simpl in H; [by apply elem_of_nil in H|].
  apply elem_of_cons in H as [[= -> ->]|H].
  - rewrite Nat.sub_diag. done.
  - destruct (IH (S k) H) as [Hk E]. split; [lia|].
    replace (i - k)%nat with (S (i - S k)) by lia. done.
Qed.

Definition row_writes (xx yy : nat) (r : rstring) (k : nat) : list (nat * nat * Z) :=
  map (fun '(dx, ch) => ((xx + dx)%nat, yy, ch)) (zip (seq k (length r)) r).

Lemma row_writes_painted f xx yy (r : rstring) : forall k px py,
  painted f (row_writes xx yy r k) px py =
  if decide (py = yy /\ xx + k <= px < xx + k + length r)%nat
  then r !! (px - xx - k)%nat else f px py.
Proof.
  unfold row_writes. revert f. induction r as [|a r IH]; intros f k px py.
  - simpl. case_decide; [lia|done].
  - cbn [length seq zip_with map]. unfold painted. cbn [fold_left]. fold (painted (upd f (xx + k, yy, a)%nat) (map (λ '(dx, ch), ((xx + dx)%nat, yy, ch)) (zip (seq (S k) (length r)) r))).
    rewrite IH. cbn [upd].
    repeat case_decide; try lia;
      first [done | (replace (px - xx - k)%nat with (S (px - xx - S k)) by lia; done)
            | (replace (px - xx - k)%nat with 0%nat by lia; done) | naive_solver lia].
Qed.

Definition grid_writes (xx yy : nat) (L : list rstring) (k : nat) : list (nat * nat * Z) :=
  concat (map (fun '(dy, r) => row_writes xx (yy + dy) r 0) (zip (seq k (length L)) L)).

Lemma grid_writes_painted f xx yy (L : list rstring) : forall k px py,
  painted f (grid_writes xx yy L k) px py =
  if decide (yy + k <= py < yy + k + length L)%nat then
    match L !! (py - yy - k)%nat with
    | Some r => if decide (xx <= px < xx + length r)%nat then r !! (px - xx)%nat else f px py
    | None => f px py
    end
  else f px py.
Proof.
  unfold grid_writes. revert f. induction L as [|r L IH]; intros f k px py.
  - simpl. case_decide; [lia|done].
  - cbn [length seq zip_with map concat]. rewrite painted_app, IH, row_writes_painted.
    rewrite !Nat.add_0_r, Nat.sub_0_r.
    destruct (decide (py = yy + k)%nat) as [->|Hne].
    + replace (yy + k - yy - k)%nat with 0%nat by lia. cbn [lookup list_lookup].
      repeat case_decide; try lia; naive_solver lia.
    + destruct (decide (py = (yy + k)%nat /\ (xx <= px < xx + length r)%nat)) as [?|_]; [lia|].
      destruct (decide (yy + S k <= py < yy + S k + length L)%nat),
        (decide (yy + k <= py < yy + k + S (length L))%nat); try lia; [|done].
      replace (py - yy - k)%nat with (S (py - yy - S k)) by lia. done.
Qed.


Lemma concat_map_single {A B} (g : A -> B) (l : list A) : concat (map (fun b => [g b]) l) = map g l.
Proof. induction l as [|a l IH]; simpl; [done|by rewrite IH]. Qed.

Lemma append_spec sc o xx yy : screen_ok o ->
  exists sc', append sc o xx yy = Some sc' /\
    paints (resize sc (Nat.max (dim_x sc) (xx + dim_x o)) (Nat.max (dim_y sc) (yy + dim_y o))) sc'
      (grid_writes xx yy (lines o) 0).
Proof.
  intros Ho. unfold append.
  set (sc1 := resize sc (Nat.max (dim_x sc) (xx + dim_x o)) (Nat.max (dim_y sc) (yy + dim_y o))).
  destruct (resize_spec sc (Nat.max (dim_x sc) (xx + dim_x o)) (Nat.max (dim_y sc) (yy + dim_y o)))
    as (Hs1 & Hx1 & Hy1 & _). fold sc1 in Hs1, Hx1, Hy1.
  apply (foldlM_paints _ (fun '(dy, r) => row_writes xx (yy + dy) r 0)); [done|].
  intros s [dy r] Hb Hs Hx Hy. apply zip_seq_elem in Hb as [_ Er]. rewrite Nat.sub_0_r in Er.
  pose proof (row_length o r dy Ho Er) as Hr. pose proof (lookup_lt_Some _ _ _ Er) as Hdy.
  destruct Ho as [Hlo _].
  unfold row_writes. rewrite <- (concat_map_single (fun '(dx, ch) => ((xx + dx)%nat, (yy + dy)%nat, ch))).
  apply (foldlM_paints _ (fun b => [(fun '(dx, ch) => ((xx + dx)%nat, (yy + dy)%nat, ch)) b])); [done|].
  intros s' [dx ch] Hb' Hs' Hx' Hy'. apply zip_seq_elem in Hb' as [_ Ec].
  rewrite Nat.sub_0_r in Ec. pose proof (lookup_lt_Some _ _ _ Ec) as Hdx.
  apply draw_pixel_in; [done|lia|lia].
Qed.

(** Extra: [Screen::append] of a well-formed screen [other] at [(x, y)]
    never panics; it grows the screen just enough to hold [other], copies
    [other] into the rectangle at [(x, y)], and keeps every other pixel of
    the grown screen (old chars, spaces where it grew). *)
Theorem append_places (sc other : Screen) (xx yy : nat) : screen_ok other ->
  exists sc', append sc other xx yy = Some sc' /\ screen_ok sc' /\
    dim_x sc' = Nat.max (dim_x sc) (xx + dim_x other) /\
    dim_y sc' = Nat.max (dim_y sc) (yy + dim_y other) /\
    forall px py, pixel sc' px py =
      if decide (xx <= px < xx + dim_x other /\ yy <= py < yy + dim_y other)%nat
      then pixel other (px - xx) (py - yy)
      else if decide (px < dim_x sc' /\ py < dim_y sc')%nat
      then Some (default 32 (pixel sc px py)) else None.
Proof.
  intros Ho. destruct (append_spec sc other xx yy Ho) as (sc' & E & Hs' & Hx' & Hy' & _ & Hp).
  destruct (resize_spec sc (Nat.max (dim_x sc) (xx + dim_x other)) (Nat.max (dim_y sc) (yy + dim_y other)))
    as (_ & Hx1 & Hy1 & Hp1).
  exists sc'. rewrite Hx', Hy', Hx1, Hy1. split_and!; [done|done|done|done|].
  intros px py. rewrite Hp, grid_writes_painted, Nat.add_0_r, Nat.sub_0_r, Hp1.
  pose proof Ho as [Hlo _]. rewrite Hlo.
  destruct (decide (yy <= py < yy + dim_y other)%nat) as [Hpy|Hpy].
  - destruct (lookup_lt_is_Some_2 (lines other) (py - yy)) as [r Er]; [lia|]. rewrite Er.
    rewrite (row_length other r (py - yy) Ho Er). unfold pixel at 2. rewrite Er. simpl.
    repeat case_decide; try done; lia.
  - repeat case_decide; try done; lia.
Qed.


(** ** Rendering keeps the screen rectangular *)

Definition keeps (X Y : nat) (s : Screen) : Prop := screen_ok s /\ dim_x s = X /\ dim_y s = Y.

Lemma bind_some {A B} (m : option A) (f : A -> option B) b :
  m ≫= f = Some b -> exists a, m = Some a /\ f a = Some b.
Proof. destruct m as [a|]; simpl; [by exists a|discriminate]. Qed.

Lemma draw_pixel_keeps X Y s xx yy c s' : keeps X Y s -> draw_pixel s xx yy c = Some s' -> keeps X Y s'.
Proof.
  intros (Hs & Hx & Hy) E. destruct (draw_pixel_some s xx yy c s' Hs E) as (Hs' & Hx' & Hy' & _).
  split_and!; congruence.
Qed.

Lemma draw_text_keeps X Y s xx yy t s' : keeps X Y s -> draw_text s xx yy t = Some s' -> keeps X Y s'.
Proof.
  intros Hk E. unfold draw_text in E. revert E. apply foldlM_some_inv; [done|].
  intros a [i ch] a' _ Ea Hka. destruct (xx + i <? dim_x a)%nat.
  - exact (draw_pixel_keeps X Y a (xx + i) yy ch a' Hka Ea).
  - by injection Ea as <-.
Qed.

Lemma draw_box_keeps X Y s xx yy w h s' : keeps X Y s -> draw_box s xx yy w h = Some s' -> keeps X Y s'.
Proof.
  intros Hk E. unfold draw_box in E.
  repeat (apply bind_some in E as (? & ?E & E); eapply draw_pixel_keeps in Hk; [|exact E0]; clear E0).
  apply bind_some in E as (s1 & E1 & E).
  assert (keeps X Y s1) as Hk1.
  { revert E1. apply foldlM_some_inv; [done|]. intros a dx a' _ Ea Hka.
    apply bind_some in Ea as (a1 & Ea1 & Ea).
    exact (draw_pixel_keeps X Y a1 _ _ _ a' (draw_pixel_keeps X Y a _ _ _ a1 Hka Ea1) Ea). }
  revert E. apply foldlM_some_inv; [done|]. intros a dy a' _ Ea Hka.
  apply bind_some in Ea as (a1 & Ea1 & Ea).
  exact (draw_pixel_keeps X Y a1 _ _ _ a' (draw_pixel_keeps X Y a _ _ _ a1 Hka Ea1) Ea).
Qed.

Lemma draw_vertical_line_keeps X Y s top bottom xx c s' :
  keeps X Y s -> draw_vertical_line s top bottom xx c = Some s' -> keeps X Y s'.
Proof.
  intros Hk E. unfold draw_vertical_line in E. revert E. apply foldlM_some_inv; [done|].
  intros a yy a' _ Ea Hka. exact (draw_pixel_keeps X Y a _ _ _ a' Hka Ea).
Qed.

Lemma adapter_render_keeps X Y a s s' : keeps X Y s -> adapter_render a s = Some s' -> keeps X Y s'.
Proof.
  intros Hk E. unfold adapter_render in E. revert E. apply foldlM_some_inv; [done|].
  intros b dy b' _ Eb Hkb. apply bind_some in Eb as (r & _ & Eb). revert Eb.
  apply foldlM_some_inv; [done|]. intros c [xx ch] c' _ Ec Hkc.
  destruct (ch =? 32); [by injection Ec as <-|].
  apply bind_some in Ec as (p & _ & Ec). exact (draw_pixel_keeps X Y c _ _ _ c' Hkc Ec).
Qed.

Lemma render_rows ctx s : render ctx = Some s ->
  exists rows, s = concat (map (fun r => r ++ [10]) rows) /\
    length rows = Z.to_nat (foldl (fun h n => Z.max h (y n + height n)) 0 (nodes ctx)) /\
    Forall (fun r => length r = Z.to_nat (foldl (fun w n => Z.max w (x n + width n)) 0 (nodes ctx))) rows.
Proof.
  unfold render.
  set (W := Z.to_nat (foldl (fun w n => Z.max w (x n + width n)) 0 (nodes ctx))).
  set (H := Z.to_nat (foldl (fun h n => Z.max h (y n + height n)) 0 (nodes ctx))).
  intros E.
  assert (keeps W H (screen_new W H)) as H0.
  { split_and!; [|done|done]. split; simpl; [by rewrite length_replicate|].
    apply Forall_replicate. by rewrite length_replicate. }
  apply bind_some in E as (s1 & E1 & E).
  assert (keeps W H s1) as H1.
  { revert E1. apply foldlM_some_inv; [done|]. intros a [i n] a' _ Ea Hka.
    destruct (is_connector n).
    - destruct (width n =? 1).
      + exact (draw_vertical_line_keeps W H a _ _ _ _ a' Hka Ea).
      + exact (draw_box_keeps W H a _ _ _ _ a' Hka Ea).
    - apply bind_some in Ea as (a1 & Ea1 & Ea).
      exact (draw_text_keeps W H a1 _ _ _ a' (draw_box_keeps W H a _ _ _ _ a1 Hka Ea1) Ea). }
  apply bind_some in E as (s2 & E2 & E).
  assert (keeps W H s2) as H2.
  { revert E2. apply foldlM_some_inv; [done|]. intros a e a' _ Ea Hka.
    apply bind_some in Ea as (a1 & Ea1 & Ea).
    exact (draw_pixel_keeps W H a1 _ _ _ a' (draw_pixel_keeps W H a _ _ _ a1 Hka Ea1) Ea). }
  apply bind_some in E as (s3 & E3 & E).
  assert (keeps W H s3) as ([Hl Hf] & Hx & Hy).
  { revert E3. apply foldlM_some_inv; [done|]. intros a l a' _ Ea Hka.
    destruct (enabled (l_adapter l)); [exact (adapter_render_keeps W H (l_adapter l) a a' Hka Ea)|].
    by injection Ea as <-. }
  injection E as <-. exists (lines s3). split_and!; [done|congruence|].
  rewrite <- Hx. done.
Qed.


(** Extra: when [Context::render] returns, its string is a rectangle:
    [h] lines of [w] chars each, every one followed by a newline, where [w]
    is the largest right edge [x + width] and [h] the largest bottom edge
    [y + height] of the nodes. *)
Theorem render_rectangular (ctx : Context) (s : rstring) : render ctx = Some s ->
  exists rows, s = concat (map (fun r => r ++ [10]) rows) /\
    length rows = Z.to_nat (foldl (fun h n => Z.max h (y n + height n)) 0 (nodes ctx)) /\
    Forall (fun r => length r = Z.to_nat (foldl (fun w n => Z.max w (x n + width n)) 0 (nodes ctx))) rows.
Proof. apply render_rows. Qed.

(** Extra: every diagram [dag_to_text] ([Context::process]) returns is a
    sequence of newline-terminated lines of one common length (none at
    all for an input without vertices). *)
Theorem process_output_rectangular (hs_iter : gset nat -> list nat) (input s : rstring) :
  process hs_iter input = Some (Ok s) ->
  exists w rows, s = concat (map (fun r => r ++ [10]) rows) /\ Forall (fun r => length r = w) rows.
Proof.
  unfold process. intros E. apply bind_some in E as (ctx & _ & E).
  destruct (is_empty ctx).
  { injection E as <-. exists 0%nat, []. done. }
  destruct (toposort hs_iter ctx) as [c|e]; [|discriminate].
  do 3 (apply bind_some in E as (? & _ & E)).
  apply bind_some in E as (s' & Er & E). injection E as <-.
  destruct (render_rows _ _ Er) as (rows & -> & _ & Hf). by eexists _, rows.
Qed.


(** ** Boxes *)

Definition hits (px py : nat) (ws : list (nat * nat * Z)) : bool :=
  existsb (fun '(a, b, _) => (a =? px) && (b =? py))%nat ws.

Lemma painted_const f ws c px py : Forall (fun '(_, _, c') => c' = c) ws ->
  painted f ws px py = if hits px py ws then Some c else f px py.
Proof.
  unfold painted, hits. revert f. induction ws as [|[[a b] c'] ws IH]; intros f H; simpl; [done|].
  inversion H as [|? ? Hc Hws]; subst. rewrite IH; [|done]. simpl.
  destruct (Nat.eqb_spec a px), (Nat.eqb_spec b py); simpl;
    destruct (existsb _ ws); repeat case_decide; naive_solver.
Qed.

Lemma hits_app px py w1 w2 : hits px py (w1 ++ w2) = hits px py w1 || hits px py w2.
Proof. apply existsb_app. Qed.

Lemma hits_iff px py ws : hits px py ws = true <-> exists c, (px, py, c) ∈ ws.
Proof.
  unfold hits. rewrite existsb_exists. split.
  - intros ([[a b] c] & Hin & Hab). apply andb_true_iff in Hab as [Ha Hb].
    apply Nat.eqb_eq in Ha, Hb. subst. exists c. by apply list_elem_of_In.
  - intros [c Hin]. exists (px, py, c). split; [by apply list_elem_of_In|].
    by rewrite !Nat.eqb_refl.
Qed.

Definition hline (xx yy w h : nat) : list (nat * nat * Z) :=
  concat (map (fun dx => [((xx + dx)%nat, yy, 9472); ((xx + dx)%nat, (yy + h - 1)%nat, 9472)]) (seq 1 (w - 1 - 1))).
Definition vline (xx yy w h : nat) : list (nat * nat * Z) :=
  concat (map (fun dy => [(xx, (yy + dy)%nat, 9474); ((xx + w - 1)%nat, (yy + dy)%nat, 9474)]) (seq 1 (h - 1 - 1))).

Lemma hline_hits xx yy w h px py :
  hits px py (hline xx yy w h) = true <-> ((py = yy \/ py = yy + h - 1) /\ xx < px < xx + w - 1)%nat.
Proof.
  rewrite hits_iff. unfold hline. split.
  - intros [c Hc]. apply list_elem_of_In, in_concat in Hc as (l & Hl & Hc).
    apply in_map_iff in Hl as (dx & <- & Hdx). apply in_seq in Hdx.
    simpl in Hc. destruct Hc as [[= <- <- _]|[[= <- <- _]|[]]]; lia.
  - intros [Hy Hx]. exists 9472. apply list_elem_of_In, in_concat.
    eexists. split; [apply in_map_iff; exists (px - xx)%nat; split; [reflexivity|apply in_seq; lia]|].
    replace (xx + (px - xx))%nat with px by lia. destruct Hy as [->| ->]; simpl; auto.
Qed.

Lemma vline_hits xx yy w h px py :
  hits px py (vline xx yy w h) = true <-> ((px = xx \/ px = xx + w - 1) /\ yy < py < yy + h - 1)%nat.
Proof.
  rewrite hits_iff. unfold vline. split.
  - intros [c Hc]. apply list_elem_of_In, in_concat in Hc as (l & Hl & Hc).
    apply in_map_iff in Hl as (dy & <- & Hdy). apply in_seq in Hdy.
    simpl in Hc. destruct Hc as [[= <- <- _]|[[= <- <- _]|[]]]; lia.
  - intros [Hx Hy]. exists 9474. apply list_elem_of_In, in_concat.
    eexists. split; [apply in_map_iff; exists (py - yy)%nat; split; [reflexivity|apply in_seq; lia]|].
    replace (yy + (py - yy))%nat with py by lia. destruct Hx as [->| ->]; simpl; auto.
Qed.


Lemma paints_eq s s' w1 w2 : paints s s' w1 -> w1 = w2 -> paints s s' w2.
Proof. by intros ? <-. Qed.

Lemma two_pixels s a b c a' b' c' : screen_ok s ->
  (a < dim_x s)%nat -> (b < dim_y s)%nat -> (a' < dim_x s)%nat -> (b' < dim_y s)%nat ->
  exists s', (draw_pixel s a b c ≫= fun s => draw_pixel s a' b' c') = Some s' /\
    paints s s' [(a, b, c); (a', b', c')].
Proof.
  intros Hs Ha Hb Ha' Hb'. destruct (draw_pixel_in s a b c Hs Ha Hb) as (s1 & -> & P1).
  pose proof P1 as (Hs1 & Hx1 & Hy1 & _). cbn [mbind option_bind].
  destruct (draw_pixel_in s1 a' b' c' Hs1 ltac:(lia) ltac:(lia)) as (s2 & -> & P2).
  exists s2. split; [done|]. exact (paints_trans s s1 s2 _ _ P1 P2).
Qed.

Definition corners (xx yy w h : nat) : list (nat * nat * Z) :=
  [(xx, yy, 9484); ((xx + w - 1)%nat, yy, 9488); (xx, (yy + h - 1)%nat, 9492);
   ((xx + w - 1)%nat, (yy + h - 1)%nat, 9496)].

Lemma draw_box_paints sc xx yy w h : screen_ok sc -> (1 <= w)%nat -> (1 <= h)%nat ->
  (xx + w <= dim_x sc)%nat -> (yy + h <= dim_y sc)%nat ->
  exists sc', draw_box sc xx yy w h = Some sc' /\
    paints sc sc' (corners xx yy w h ++ hline xx yy w h ++ vline xx yy w h).
Proof.
  intros Hs Hw Hh Hx Hy. unfold draw_box.
  destruct (draw_pixel_in sc xx yy 9484 Hs ltac:(lia) ltac:(lia)) as (s1 & -> & P1).
  pose proof P1 as (Hs1 & Hx1 & Hy1 & _). cbn [mbind option_bind].
  destruct (draw_pixel_in s1 (xx + w - 1) yy 9488 Hs1 ltac:(lia) ltac:(lia)) as (s2 & -> & P2).
  pose proof P2 as (Hs2 & Hx2 & Hy2 & _). cbn [mbind option_bind].
  destruct (draw_pixel_in s2 xx (yy + h - 1) 9492 Hs2 ltac:(lia) ltac:(lia)) as (s3 & -> & P3).
  pose proof P3 as (Hs3 & Hx3 & Hy3 & _). cbn [mbind option_bind].
  destruct (draw_pixel_in s3 (xx + w - 1) (yy + h - 1) 9496 Hs3 ltac:(lia) ltac:(lia)) as (s4 & -> & P4).
  pose proof P4 as (Hs4 & Hx4 & Hy4 & _). cbn [mbind option_bind].
  destruct (foldlM_paints (fun sc dx =>
    draw_pixel sc (xx + dx) yy 9472 ≫= fun sc => draw_pixel sc (xx + dx) (yy + h - 1) 9472)
    (fun dx => [((xx + dx)%nat, yy, 9472); ((xx + dx)%nat, (yy + h - 1)%nat, 9472)])
    (seq 1 (w - 1 - 1)) s4 Hs4) as (s5 & -> & P5).
  { intros s dx Hdx Hs' Hx' Hy'. apply elem_of_seq in Hdx. apply two_pixels; [done|lia..]. }
  pose proof P5 as (Hs5 & Hx5 & Hy5 & _). cbn [mbind option_bind].
  destruct (foldlM_paints (fun sc dy =>
    draw_pixel sc xx (yy + dy) 9474 ≫= fun sc => draw_pixel sc (xx + w - 1) (yy + dy) 9474)
    (fun dy => [(xx, (yy + dy)%nat, 9474); ((xx + w - 1)%nat, (yy + dy)%nat, 9474)])
    (seq 1 (h - 1 - 1)) s5 Hs5) as (s6 & -> & P6).
  { intros s dy Hdy Hs' Hx' Hy'. apply elem_of_seq in Hdy. apply two_pixels; [done|lia..]. }
  exists s6. split; [done|].
  pose proof (paints_trans _ _ _ _ _ (paints_trans _ _ _ _ _ (paints_trans _ _ _ _ _
    (paints_trans _ _ _ _ _ (paints_trans _ _ _ _ _ P1 P2) P3) P4) P5) P6) as P.
  apply (paints_eq _ _ _ _ P). unfold corners, hline, vline. by rewrite <- !app_assoc.
Qed.


Lemma hline_const xx yy w h : Forall (fun '(_, _, c') => c' = 9472) (hline xx yy w h).
Proof.
  unfold hline. apply Forall_concat, Forall_forall. intros l Hl.
  apply list_elem_of_In, in_map_iff in Hl as (dx & <- & _). repeat constructor.
Qed.

Lemma vline_const xx yy w h : Forall (fun '(_, _, c') => c' = 9474) (vline xx yy w h).
Proof.
  unfold vline. apply Forall_concat, Forall_forall. intros l Hl.
  apply list_elem_of_In, in_map_iff in Hl as (dy & <- & _). repeat constructor.
Qed.

Lemma draw_box_spec sc xx yy w h : screen_ok sc -> (2 <= w)%nat -> (2 <= h)%nat ->
  (draw_box sc xx yy w h = None <-> ~ (xx + w <= dim_x sc /\ yy + h <= dim_y sc)%nat) /\
  forall sc', draw_box sc xx yy w h = Some sc' ->
    screen_ok sc' /\ dim_x sc' = dim_x sc /\ dim_y sc' = dim_y sc /\
    forall px py, pixel sc' px py =
      if decide ((py = yy \/ py = yy + h - 1) /\ xx < px < xx + w - 1)%nat then Some 9472
      else if decide ((px = xx \/ px = xx + w - 1) /\ yy < py < yy + h - 1)%nat then Some 9474
      else if decide (px = xx /\ py = yy) then Some 9484
      else if decide (px = xx + w - 1 /\ py = yy)%nat then Some 9488
      else if decide (px = xx /\ py = yy + h - 1)%nat then Some 9492
      else if decide (px = xx + w - 1 /\ py = yy + h - 1)%nat then Some 9496
      else pixel sc px py.
Proof.
  intros Hs Hw Hh.
  destruct (decide (xx + w <= dim_x sc /\ yy + h <= dim_y sc)%nat) as [[Hx Hy]|Hn].
  - destruct (draw_box_paints sc xx yy w h Hs ltac:(lia) ltac:(lia) Hx Hy) as (s & E & P).
    rewrite E. split; [split; [done|intros Hc; exfalso; apply Hc; lia]|]. intros sc' [= <-].
    destruct P as (Hs' & Hx' & Hy' & _ & Hp). split_and!; [done..|]. intros px py.
    rewrite Hp, !painted_app, (painted_const _ _ 9474); [|apply vline_const].
    rewrite (painted_const _ _ 9472); [|apply hline_const].
    destruct (hits px py (vline xx yy w h)) eqn:Ev;
      [apply vline_hits in Ev|assert (~ ((px = xx \/ px = xx + w - 1) /\ yy < py < yy + h - 1)%nat)
        by (rewrite <- vline_hits; congruence)];
    (destruct (hits px py (hline xx yy w h)) eqn:Eh;
      [apply hline_hits in Eh|assert (~ ((py = yy \/ py = yy + h - 1) /\ xx < px < xx + w - 1)%nat)
        by (rewrite <- hline_hits; congruence)]);
    unfold corners, painted; simpl; unfold upd; repeat case_decide; try done; lia.
  - assert (draw_box sc xx yy w h = None) as Hnone.
    { unfold draw_box.
      destruct (draw_pixel sc xx yy 9484) as [s1|] eqn:E1; [|done]. cbn [mbind option_bind].
      destruct (draw_pixel_some _ _ _ _ _ Hs E1) as (Hs1 & Hx1 & Hy1 & _).
      destruct (decide (xx + w <= dim_x sc)%nat) as [Hx|Hx].
      - destruct (draw_pixel s1 (xx + w - 1) yy 9488) as [s2|] eqn:E2; [|done].
        cbn [mbind option_bind].
        destruct (draw_pixel_some _ _ _ _ _ Hs1 E2) as (Hs2 & Hx2 & Hy2 & _).
        rewrite (draw_pixel_out s2 xx (yy + h - 1) 9492 Hs2); [done|lia].
      - rewrite (draw_pixel_out s1 (xx + w - 1) yy 9488 Hs1); [done|lia]. }
    rewrite Hnone. split; [done|]. intros sc' [=].
Qed.

(** Extra: [draw_box] fails exactly when the box does not fit on the screen;
    otherwise it draws a frame: horizontal bars on the top and bottom rows
    between the corners, vertical bars on the left and right columns, the
    four corner characters, and leaves every other pixel unchanged. *)
Theorem draw_box_frame sc xx yy w h : screen_ok sc -> (2 <= w)%nat -> (2 <= h)%nat ->
  (draw_box sc xx yy w h = None <-> ~ (xx + w <= dim_x sc /\ yy + h <= dim_y sc)%nat) /\
  forall sc', draw_box sc xx yy w h = Some sc' ->
    screen_ok sc' /\ dim_x sc' = dim_x sc /\ dim_y sc' = dim_y sc /\
    forall px py, pixel sc' px py =
      if decide ((py = yy \/ py = yy + h - 1) /\ xx < px < xx + w - 1)%nat then Some 9472
      else if decide ((px = xx \/ px = xx + w - 1) /\ yy < py < yy + h - 1)%nat then Some 9474
      else if decide (px = xx /\ py = yy) then Some 9484
      else if decide (px = xx + w - 1 /\ py = yy)%nat then Some 9488
      else if decide (px = xx /\ py = yy + h - 1)%nat then Some 9492
      else if decide (px = xx + w - 1 /\ py = yy + h - 1)%nat then Some 9496
      else pixel sc px py.
Proof. apply draw_box_spec. Qed.

Lemma if_iff {A} (P Q : Prop) `{Decision P} `{Decision Q} (x y y' : A) :
  (P <-> Q) -> y = y' -> (if decide P then x else y) = (if decide Q then x else y').
Proof. intros HPQ ->. destruct (decide P), (decide Q); tauto. Qed.

(** Extra: [Screen::draw_boxed_text] fails exactly when the 3-high box,
    two wider than the text, does not fit on the screen; otherwise the
    screen shows the frame of that box with the text on its middle row,
    one column in from the left border, and is unchanged elsewhere. *)
Theorem draw_boxed_text_framed sc xx yy (text : rstring) : screen_ok sc ->
  (draw_boxed_text sc xx yy text = None <->
     ~ (xx + length text + 2 <= dim_x sc /\ yy + 3 <= dim_y sc)%nat) /\
  forall sc', draw_boxed_text sc xx yy text = Some sc' ->
    screen_ok sc' /\ dim_x sc' = dim_x sc /\ dim_y sc' = dim_y sc /\
    forall px py, pixel sc' px py =
      if decide ((py = yy \/ py = yy + 2) /\ xx < px < xx + length text + 1)%nat then Some 9472
      else if decide ((px = xx \/ px = xx + length text + 1) /\ py = yy + 1)%nat then Some 9474
      else if decide (px = xx /\ py = yy) then Some 9484
      else if decide (px = xx + length text + 1 /\ py = yy)%nat then Some 9488
      else if decide (px = xx /\ py = yy + 2)%nat then Some 9492
      else if decide (px = xx + length text + 1 /\ py = yy + 2)%nat then Some 9496
      else if decide (py = yy + 1 /\ xx < px <= xx + length text)%nat then text !! (px - xx - 1)%nat
      else pixel sc px py.
Proof.
  intros Hs. unfold draw_boxed_text.
  destruct (draw_text_spec sc (xx + 1) (yy + 1) text Hs) as [Tn Ts].
  destruct (draw_text sc (xx + 1) (yy + 1) text) as [s1|] eqn:E1; cbn [mbind option_bind].
  - destruct (Ts s1 eq_refl) as (Hs1 & Hx1 & Hy1 & Hp1).
    destruct (draw_box_spec s1 xx yy (length text + 2) 3 Hs1 ltac:(lia) ltac:(lia)) as [Bn Bs].
    rewrite Hx1, Hy1 in Bn. split.
    + rewrite Bn. replace (xx + (length text + 2))%nat with (xx + length text + 2)%nat by lia. done.
    + intros sc' E2. destruct (Bs sc' E2) as (Hs2 & Hx2 & Hy2 & Hp2).
      split_and!; [done|congruence|congruence|]. intros px py. rewrite Hp2, Hp1.
      replace (px - (xx + 1))%nat with (px - xx - 1)%nat by lia.
      destruct (decide (xx + (length text + 2) <= dim_x sc /\ yy + 3 <= dim_y sc)%nat) as [[Fx Fy]|Fn];
        [|apply Bn in Fn; congruence].
      repeat (apply if_iff; [split; intros; lia|]). reflexivity.
  - split; [split; [intros _|done]|done].
    destruct (proj1 Tn eq_refl) as (Hy & _). lia.
Qed.
Lemma foldlM_pixels {B} (fx fy : B -> nat) c (l : list B) sc : screen_ok sc ->
  (foldlM (fun s b => draw_pixel s (fx b) (fy b) c) sc l = None <->
     exists b, b ∈ l /\ ~ (fx b < dim_x sc /\ fy b < dim_y sc)%nat) /\
  forall sc', foldlM (fun s b => draw_pixel s (fx b) (fy b) c) sc l = Some sc' ->
    paints sc sc' (map (fun b => (fx b, fy b, c)) l).
Proof.
  revert sc. induction l as [|b l IH]; intros sc Hs; simpl.
  - split; [split; [done|intros (? & H & _); set_solver]|]. intros sc' [= <-]. by apply paints_nil.
  - destruct (decide (fx b < dim_x sc /\ fy b < dim_y sc)%nat) as [[Hx Hy]|Hn].
    + destruct (draw_pixel_in sc (fx b) (fy b) c Hs Hx Hy) as (s1 & -> & P1). simpl.
      pose proof P1 as (Hs1 & Hx1 & Hy1 & _).
      destruct (IH s1 Hs1) as [IHn IHs]. rewrite Hx1, Hy1 in IHn. split.
      * rewrite IHn. split; intros (b' & Hb' & Hn); exists b'; [split; [by right|done]|].
        apply elem_of_cons in Hb' as [->|Hb']; [tauto|done].
      * intros sc' E. exact (paints_trans _ _ _ [_] _ P1 (IHs sc' E)).
    + rewrite draw_pixel_out by done. simpl. split; [|done].
      split; [intros _; exists b; split; [left|done]|done].
Qed.

Lemma hits_map {B} (fx fy : B -> nat) c (l : list B) px py :
  hits px py (map (fun b => (fx b, fy b, c)) l) = true <-> exists b, b ∈ l /\ fx b = px /\ fy b = py.
Proof.
  rewrite hits_iff. split.
  - intros [c' (b & [= <- <- _] & Hb)%list_elem_of_In%in_map_iff]. exists b.
    split; [by apply list_elem_of_In|done].
  - intros (b & Hb & <- & <-). exists c. apply list_elem_of_In, in_map_iff. exists b.
    split; [done|by apply list_elem_of_In].
Qed.

Lemma map_const_writes {B} (fx fy : B -> nat) c (l : list B) :
  Forall (fun '((_, _, c') : nat * nat * Z) => c' = c) (map (fun b => (fx b, fy b, c)) l).
Proof.
  apply Forall_forall. intros [[a b'] c'] Hin.
  apply list_elem_of_In, in_map_iff in Hin as (b & Hb & _). by inversion Hb.
Qed.

(** Extra: [Screen::draw_horizontal_line] and [Screen::draw_vertical_line]
    fill the closed segment between their ends with the given char; an
    empty range ([right < left], [bottom < top]) does nothing, and a
    non-empty one fails exactly when the segment leaves the screen. *)
Theorem draw_lines_fill sc (a b k : nat) c : screen_ok sc ->
  (draw_horizontal_line sc a b k c = None <-> (a <= b /\ ~ (b < dim_x sc /\ k < dim_y sc))%nat) /\
  (forall sc', draw_horizontal_line sc a b k c = Some sc' ->
    screen_ok sc' /\ dim_x sc' = dim_x sc /\ dim_y sc' = dim_y sc /\
    forall px py, pixel sc' px py =
      if decide (py = k /\ a <= px <= b)%nat then Some c else pixel sc px py) /\
  (draw_vertical_line sc a b k c = None <-> (a <= b /\ ~ (k < dim_x sc /\ b < dim_y sc))%nat) /\
  (forall sc', draw_vertical_line sc a b k c = Some sc' ->
    screen_ok sc' /\ dim_x sc' = dim_x sc /\ dim_y sc' = dim_y sc /\
    forall px py, pixel sc' px py =
      if decide (px = k /\ a <= py <= b)%nat then Some c else pixel sc px py).
Proof.
  intros Hs.
  destruct (foldlM_pixels (fun b => b) (fun _ => k) c (seq a (S b - a)) sc Hs) as [Hn Hsm].
  destruct (foldlM_pixels (fun _ => k) (fun b => b) c (seq a (S b - a)) sc Hs) as [Vn Vsm].
  unfold draw_horizontal_line, draw_vertical_line. split_and!.
  - rewrite Hn. split.
    + intros (x' & Hx & Hr). apply elem_of_seq in Hx. split; [lia|]. intros [? ?]. apply Hr. lia.
    + intros [Hab Hr]. destruct (decide (k < dim_y sc)%nat).
      * exists b. rewrite elem_of_seq. split; [lia|]. intros [? ?]. apply Hr. lia.
      * exists a. rewrite elem_of_seq. split; [lia|tauto].
  - intros sc' E. destruct (Hsm sc' E) as (H1 & H2 & H3 & _ & H5). split_and!; [done..|].
    intros px py. rewrite H5, (painted_const _ _ c); [|apply map_const_writes].
    destruct (hits px py _) eqn:Eh.
    + apply hits_map in Eh as (x' & Hx & <- & <-). apply elem_of_seq in Hx.
      rewrite decide_True; [done|lia].
    + rewrite decide_False; [done|]. intros [-> Hr]. assert (hits px k (map (fun b0 => (b0, k, c)) (seq a (S b - a))) = true) as Ht by (apply hits_map; exists px; rewrite elem_of_seq; split_and!; lia).
      by rewrite Ht in Eh.
  - rewrite Vn. split.
    + intros (y' & Hy & Hr). apply elem_of_seq in Hy. split; [lia|]. intros [? ?]. apply Hr. lia.
    + intros [Hab Hr]. destruct (decide (k < dim_x sc)%nat).
      * exists b. rewrite elem_of_seq. split; [lia|]. intros [? ?]. apply Hr. lia.
      * exists a. rewrite elem_of_seq. split; [lia|tauto].
  - intros sc' E. destruct (Vsm sc' E) as (H1 & H2 & H3 & _ & H5). split_and!; [done..|].
    intros px py. rewrite H5, (painted_const _ _ c); [|apply map_const_writes].
    destruct (hits px py _) eqn:Eh.
    + apply hits_map in Eh as (y' & Hy & <- & <-). apply elem_of_seq in Hy.
      rewrite decide_True; [done|lia].
    + rewrite decide_False; [done|]. intros [-> Hr]. assert (hits k py (map (fun b0 => (k, b0, c)) (seq a (S b - a))) = true) as Ht by (apply hits_map; exists py; rewrite elem_of_seq; split_and!; lia).
      by rewrite Ht in Eh.
Qed.
(** Extra: [Screen::draw_text_in_box_center] writes a label that fits in
    its box on the box's middle row, with left margin [(w - chars) / 2]:
    the right margin is the left one or one more, and nothing else of the
    screen changes. *)
Theorem draw_text_in_box_center_centred sc xx yy w (text : rstring) : screen_ok sc ->
  (length text <= w)%nat -> (xx + w <= dim_x sc)%nat -> (yy + 1 < dim_y sc)%nat ->
  let m := ((w - length text) / 2)%nat in
  (m <= w - length text - m <= m + 1)%nat /\
  exists sc', draw_text_in_box_center sc xx yy w text = Some sc' /\
    screen_ok sc' /\ dim_x sc' = dim_x sc /\ dim_y sc' = dim_y sc /\
    forall px py, pixel sc' px py =
      if decide (py = yy + 1 /\ xx + m <= px < xx + m + length text)%nat
      then text !! (px - xx - m)%nat else pixel sc px py.
Proof.
  intros Hs Hl Hx Hy m.
  assert (2 * m <= w - length text <= 2 * m + 1)%nat as Hm.
  { unfold m. pose proof (Nat.div_mod (w - length text) 2 ltac:(lia)).
    pose proof (Nat.mod_upper_bound (w - length text) 2 ltac:(lia)). lia. }
  split; [lia|]. unfold draw_text_in_box_center. fold m.
  destruct (draw_text_spec sc (xx + m) (yy + 1) text Hs) as [Tn Ts].
  destruct (draw_text sc (xx + m) (yy + 1) text) as [s1|]; [|destruct (proj1 Tn eq_refl); lia].
  exists s1. destruct (Ts s1 eq_refl) as (H1 & H2 & H3 & H4). split_and!; [done..|].
  intros px py. rewrite H4. replace (px - (xx + m))%nat with (px - xx - m)%nat by lia.
  apply if_iff; [split; intros; lia|done].
Qed.



End ScreenProps.

Section RegistryProps.

(** The name table of the registry: one label per node, and the label at the
    index [id] gives a name is that name. *)
Definition name_table_ok (ctx : Context) : Prop :=
  length (labels ctx) = length (nodes ctx) /\
  forall name i, id ctx !! name = Some i -> labels ctx !! i = Some name.

Lemma add_node_names ctx name : name_table_ok ctx -> name_table_ok (add_node ctx name).
Proof.
  intros [Hl Hid]. destruct (add_node_cases ctx name) as [-> | [Hn ->]]; [by split|].
  split; cbn [labels nodes id]; [rewrite !length_app; simpl; lia|].
  intros nm i. rewrite lookup_insert_Some. intros [[<- <-]|[Hne Hi]].
  - rewrite lookup_app_r by lia. by rewrite Hl, Nat.sub_diag.
  - rewrite lookup_app_l; [by apply Hid|]. apply lookup_lt_Some with nm. by apply Hid.
Qed.

Lemma add_vertex_names ctx a b ctx' : name_table_ok ctx -> add_vertex ctx a b = Some ctx' -> name_table_ok ctx'.
Proof.
  intros [Hl Hid]. unfold add_vertex.
  destruct (id ctx !! a), (id ctx !! b); intros; simplify_eq/=; [|done..].
  split; [cbn [labels nodes]; by rewrite !length_alter|done].
Qed.

Lemma add_connector_names ctx a b : name_table_ok ctx -> name_table_ok (add_connector ctx a b).
Proof.
  intros [Hl Hid]. unfold add_connector. split; cbn [labels nodes id].
  - rewrite !length_alter, !length_app. simpl. lia.
  - intros nm i Hi. rewrite lookup_app_l; [by apply Hid|]. apply lookup_lt_Some with nm. by apply Hid.
Qed.

Lemma parse_parts_names parts : forall ctx prev ctx',
  name_table_ok ctx -> parse_parts ctx prev parts = Some ctx' -> name_table_ok ctx'.
Proof.
  induction parts as [|part parts IH]; simpl; intros ctx prev ctx' Hw H.
  - by injection H as <-.
  - case_decide; [by eapply IH|].
    pose proof (add_node_names ctx (trim part) Hw) as Hn.
    destruct prev as [p|].
    + destruct (add_vertex (add_node ctx (trim part)) p (trim part)) as [c|] eqn:E; [|done].
      simpl in H. eapply IH; [|exact H]. exact (add_vertex_names _ _ _ _ Hn E).
    + eapply IH; [|exact H]. done.
Qed.

Lemma parse_names ctx s ctx' : name_table_ok ctx -> parse ctx s = Some ctx' -> name_table_ok ctx'.
Proof.
  unfold parse. generalize (split s newline) as lines. intros lines. revert ctx.
  induction lines as [|l lines IH]; simpl; intros ctx Hw H.
  - by injection H as <-.
  - case_decide; [by eapply IH|].
    destruct (parse_parts ctx None (split (trim l) arrow)) as [c|] eqn:E; [|done].
    simpl in H. eapply IH; [|exact H]. eapply parse_parts_names; eauto.
Qed.

Lemma reachable_names ctx : reachable ctx -> name_table_ok ctx.
Proof.
  induction 1.
  - split; [done|]. intros nm i H. cbn [id context_default] in H. by rewrite lookup_empty in H.
  - by apply add_node_names.
  - by eapply add_vertex_names.
  - by apply add_connector_names.
  - by eapply parse_names.
Qed.

(** Extra: in every registry state built by [add_node], [add_vertex],
    [add_connector] and [parse], there is one label per node, the label at
    the index stored for a name is that name, and so no two names share an
    index. *)
Theorem registry_names_round_trip ctx : reachable ctx ->
  length (labels ctx) = length (nodes ctx) /\
  (forall name i, id ctx !! name = Some i -> labels ctx !! i = Some name) /\
  (forall n1 n2 i, id ctx !! n1 = Some i -> id ctx !! n2 = Some i -> n1 = n2).
Proof.
  intros H. destruct (reachable_names ctx H) as [Hl Hid]. split_and!; [done|done|].
  intros n1 n2 i H1 H2. pose proof (Hid _ _ H1). pose proof (Hid _ _ H2). congruence.
Qed.

End RegistryProps.

Section RegistryOps.

Ltac reg_simpl :=
  repeat (rewrite ?down_alter_up, ?down_alter_upr, ?up_alter_down, ?up_alter_downr,
            ?down_alter_down, ?down_alter_downr, ?up_alter_up, ?up_alter_upr,
            ?length_alter, ?length_app in *).

Lemma alter_total_field {B} (g : Node -> B) (f : Node -> Node) k (l : list Node) i :
  (forall n, g (f n) = g n) -> g (alter f k l !!! i) = g (l !!! i).
Proof. intros Hf. rewrite list_lookup_total_alter. case_decide as H; [destruct H; subst; apply Hf|done]. Qed.

(** Extra: [Context::add_vertex] panics (here [None]) exactly when one of
    the two names is not registered; otherwise it adds the edge from the
    first vertex to the second, recording it in the [downward] set of the
    first and the [upward] set of the second, and changes nothing else of
    the adjacency, the labels, the name table or the vertex count. *)
Theorem add_vertex_adds_edge ctx a b :
  (add_vertex ctx a b = None <-> id ctx !! a = None \/ id ctx !! b = None) /\
  forall ia ib, id ctx !! a = Some ia -> id ctx !! b = Some ib ->
    (ia < length (nodes ctx))%nat -> (ib < length (nodes ctx))%nat ->
    exists ctx', add_vertex ctx a b = Some ctx' /\
      labels ctx' = labels ctx /\ id ctx' = id ctx /\ layers ctx' = layers ctx /\
      length (nodes ctx') = length (nodes ctx) /\
      (forall i, downward (nodes ctx' !!! i) =
         if decide (i = ia) then {[ib]} ∪ downward (nodes ctx !!! i) else downward (nodes ctx !!! i)) /\
      (forall i, upward (nodes ctx' !!! i) =
         if decide (i = ib) then {[ia]} ∪ upward (nodes ctx !!! i) else upward (nodes ctx !!! i)).
Proof.
  unfold add_vertex. split.
  - destruct (id ctx !! a), (id ctx !! b); naive_solver.
  - intros ia ib -> -> Ha Hb. eexists. split; [reflexivity|]. cbn [labels id layers nodes].
    split_and!; [done..|by rewrite !length_alter| |].
    + intros i. reg_simpl. repeat case_decide; naive_solver lia.
    + intros i. reg_simpl. repeat case_decide; naive_solver lia.
Qed.

(** Extra: [Context::add_connector a b] appends a connector vertex [c]
    (labelled "connector", one layer below [a]) and splices it into the
    edge from [a] to [b]: [a] now leads to [c] instead of [b], [c] leads
    to [b], [b] is entered from [c] instead of [a], and every other
    adjacency set, the name table and the other labels are unchanged. *)
Theorem add_connector_splices ctx a b :
  (a < length (nodes ctx))%nat -> (b < length (nodes ctx))%nat ->
  let ctx' := add_connector ctx a b in
  let c := length (nodes ctx) in
  labels ctx' = labels ctx ++ [[99; 111; 110; 110; 101; 99; 116; 111; 114]] /\
  id ctx' = id ctx /\ length (nodes ctx') = S c /\
  is_connector (nodes ctx' !!! c) = true /\ layer (nodes ctx' !!! c) = S (layer (nodes ctx !!! a)) /\
  (forall i, downward (nodes ctx' !!! i) =
     if decide (i = a) then {[c]} ∪ (downward (nodes ctx !!! a) ∖ {[b]})
     else if decide (i = c) then {[b]} else downward (nodes ctx !!! i)) /\
  (forall i, upward (nodes ctx' !!! i) =
     if decide (i = b) then {[c]} ∪ (upward (nodes ctx !!! b) ∖ {[a]})
     else if decide (i = c) then {[a]} else upward (nodes ctx !!! i)).
Proof.
  intros Ha Hb ctx' c. subst ctx' c. unfold add_connector. cbn [labels id nodes].
  split_and!; [done|done|rewrite !length_alter, length_app; simpl; lia| | | |].
  - rewrite !(alter_total_field is_connector) by done.
    rewrite lookup_snoc_total, decide_False, decide_True by lia. done.
  - rewrite !(alter_total_field layer) by done.
    rewrite lookup_snoc_total, decide_False, decide_True by lia. done.
  - intros i. reg_simpl. rewrite !lookup_snoc_total. simpl.
    repeat case_decide; simpl; try lia;
      [set_solver..|by rewrite list_lookup_total_alt, lookup_ge_None_2 by lia].
  - intros i. reg_simpl. rewrite !lookup_snoc_total. simpl.
    repeat case_decide; simpl; try lia;
      [set_solver..|by rewrite list_lookup_total_alt, lookup_ge_None_2 by lia].
Qed.

End RegistryOps.

Section AdapterProps.

Variable hs_iter : gset nat -> list nat.

Lemma foldr_max_spec (l : list Z) m :
  m <= foldr Z.max m l /\ (forall c, c ∈ l -> c <= foldr Z.max m l) /\
  (foldr Z.max m l = m \/ foldr Z.max m l ∈ l).
Proof.
  induction l as [|a l (IH1 & IH2 & IH3)]; simpl.
  - split_and!; [lia|set_solver|by left].
  - split_and!; [lia| |].
    + intros c [->|Hc]%elem_of_cons; [lia|]. specialize (IH2 c Hc). lia.
    + destruct (Z.max_spec a (foldr Z.max m l)) as [[_ ->]|[_ ->]];
        [destruct IH3 as [->|?]; [by left|right; by right]|right; by left].
Qed.

Lemma highest_fold_spec (a : Adapter) xs m0 :
  let r := foldl (fun m x => set_fold Z.max m (inputs a !!! x)) m0 xs in
  m0 <= r /\ (forall x c, x ∈ xs -> c ∈ inputs a !!! x -> c <= r) /\
  (r = m0 \/ exists x, x ∈ xs /\ r ∈ inputs a !!! x).
Proof.
  revert m0. induction xs as [|x xs IH]; intros m0; simpl.
  - split_and!; [lia|set_solver|by left].
  - destruct (IH (set_fold Z.max m0 (inputs a !!! x))) as (H1 & H2 & H3).
    unfold set_fold in *. simpl in *.
    destruct (foldr_max_spec (elements (inputs a !!! x)) m0) as (F1 & F2 & F3).
    split_and!; [lia| |].
    + intros x' c [->|Hx]%elem_of_cons Hc; [|by apply (H2 x')].
      specialize (F2 c ltac:(by apply elem_of_elements)). lia.
    + destruct H3 as [E|(x' & Hx' & Hr)]; [|right; exists x'; split; [by right|done]].
      rewrite E. destruct F3 as [->|F3]; [by left|].
      right. exists x. split; [by left|]. by apply elem_of_elements.
Qed.

(** Extra: [highest_connector_id] is the largest connector id found in the
    first [width] input sets, or 0 when they hold no positive id: it is at
    least 0 and at least every such id, and it is 0 or one of them. *)
Theorem highest_connector_id_is_max a width :
  0 <= highest_connector_id a width /\
  (forall x c, (x < width)%nat -> c ∈ inputs a !!! x -> c <= highest_connector_id a width) /\
  (highest_connector_id a width = 0 \/
   exists x, (x < width)%nat /\ highest_connector_id a width ∈ inputs a !!! x).
Proof.
  unfold highest_connector_id.
  destruct (highest_fold_spec a (seq 0 width) 0) as (H1 & H2 & H3). split_and!.
  - done.
  - intros x c Hx. apply H2. apply elem_of_seq. lia.
  - destruct H3 as [->|(x & Hx & Hr)]; [by left|right].
    exists x. apply elem_of_seq in Hx. split; [lia|done].
Qed.

Definition raster_chars : list Z := [32; 9474; 9472; 9484; 9488; 9492; 9496].

Lemma raster_shape width height re :
  length (raster width height re) = height /\
  Forall (fun row => length row = width /\ Forall (fun c => c ∈ raster_chars) row)
    (raster width height re).
Proof.
  unfold raster. rewrite length_map, length_seq. split; [done|].
  apply Forall_forall. intros row Hrow. apply list_elem_of_In, in_map_iff in Hrow as (y & <- & _).
  rewrite length_map, length_seq. split; [done|].
  apply Forall_forall. intros c Hc. apply list_elem_of_In, in_map_iff in Hc as (x & <- & _).
  unfold raster_chars. repeat case_match; simpl; set_solver.
Qed.

(** Extra: when [construct] succeeds it keeps the adapter's [enabled],
    [inputs], [outputs] and [y], and its rendering is a raster of
    [height] rows, each as wide as [inputs], made only of blanks, the
    vertical and horizontal bar and the four corners. *)
Theorem construct_raster_shape a a' : construct hs_iter a = Some a' ->
  enabled a' = enabled a /\ inputs a' = inputs a /\ outputs a' = outputs a /\ a_y a' = a_y a /\
  length (rendering a') = Z.to_nat (a_height a') /\
  Forall (fun row => length row = length (inputs a) /\ Forall (fun c => c ∈ raster_chars) row)
    (rendering a').
Proof.
  unfold construct.
  destruct (construct_loop hs_iter a _ _ 29 3) as [[hgt re]|]; [|done].
  cbn [mbind option_bind]. intros [= <-]. cbn.
  destruct (raster_shape (length (inputs a)) hgt re) as [Hl Hf].
  split_and!; [done..| |done]. rewrite Hl. lia.
Qed.

(** Extra: [Coordinator::index] gives distinct slots to distinct
    coordinates inside the [width] by [height] grid, and the slots of
    layers 0 to [l] lie below [width * height * (l + 1)]. *)
Theorem coordinator_index_injective width height x y l x' y' l' :
  (x < width)%nat -> (x' < width)%nat -> (y < height)%nat -> (y' < height)%nat ->
  (index width height x y l < width * height * S l)%nat /\
  (index width height x y l = index width height x' y' l' -> x = x' /\ y = y' /\ l = l').
Proof.
  intros Hx Hx' Hy Hy'. split; [by apply index_lt|]. by apply index_inj.
Qed.

End AdapterProps.

Section ToposortProps.

Variable hs_iter : gset nat -> list nat.
Hypothesis hs_iter_perm : forall s, hs_iter s ≡ₚ elements s.

(** Extra: on a parsed registry, [toposort] fails with [CycleFound] when
    there is no vertex at all (the pass bound is then 0), which is why
    [process] tests [is_empty] first; when it succeeds it keeps the labels,
    the name table and the edges, and every edge goes from a layer to a
    strictly higher one. *)
Theorem toposort_parsed_layering s ctx : parse context_default s = Some ctx ->
  (nodes ctx = [] -> toposort hs_iter ctx = Err CycleFound) /\
  forall ctx', toposort hs_iter ctx = Ok ctx' ->
    labels ctx' = labels ctx /\ id ctx' = id ctx /\ same_graph (nodes ctx) (nodes ctx') /\
    forall a b, edge_rel (nodes ctx') a b -> (layer (nodes ctx' !!! a) < layer (nodes ctx' !!! b))%nat.
Proof.
  intros Hp. destruct (parse_default_some s) as (c & Hc & Hz & [Hr _]).
  rewrite Hp in Hc. injection Hc as <-.
  assert (nodes ctx = [] -> toposort hs_iter ctx = Err CycleFound) as Hnil.
  { intros Hn. unfold toposort. rewrite Hn. reflexivity. }
  split; [done|]. intros ctx' Ht.
  destruct (nodes ctx) as [|n ns] eqn:Hn; [by rewrite Hnil in Ht|].
  assert (0 < length (nodes ctx))%nat as Hpos by (rewrite Hn; simpl; lia).
  destruct (toposort_spec hs_iter hs_iter_perm ctx Hr Hpos Hz) as [_ Hok].
  rewrite <- Hn. destruct (Hok ctx' Ht) as (H1 & H2 & _ & H3 & H4). done.
Qed.

End ToposortProps.

Section SizingProps.

(** Extra: the sizing at the head of [Context::layout] makes every node 3
    high and every connector 1 wide; a vertex box is at least 4 wider than
    its label (two blanks of margin and the border), with an even excess
    so the label centres exactly, at least 2 wider than its in- and
    out-degree, and no wider than the larger of [chars + 4] and
    [max degree + 3]. *)
Theorem node_size_box ctx i n :
  let chars := Z.of_nat (length (labels ctx !!! i)) in
  let deg := Z.max (Z.of_nat (size (upward n))) (Z.of_nat (size (downward n))) in
  height (node_size ctx i n) = 3 /\
  (is_connector n = true -> width (node_size ctx i n) = 1) /\
  (is_connector n = false ->
     chars + 4 <= width (node_size ctx i n) /\
     Z.rem (width (node_size ctx i n) - chars) 2 = 0 /\
     deg + 2 <= width (node_size ctx i n) /\
     width (node_size ctx i n) <= Z.max (chars + 4) (deg + 3)).
Proof.
  intros chars deg. unfold node_size. fold chars.
  destruct (is_connector n); cbn [set_height set_width height width]; [split_and!; done|].
  split; [done|split; [done|intros _]].
  assert (0 <= chars) by (unfold chars; lia).
  assert (0 <= deg) by (unfold deg; lia).
  assert (Z.max (Z.max chars (Z.of_nat (size (upward n)))) (Z.of_nat (size (downward n))) = Z.max chars deg) as Hm by (unfold deg; lia).
  rewrite Hm. clear Hm. clearbody chars deg.
  cbn [margin_loop].
  destruct (Z.ltb_spec (Z.max chars deg - chars) 2);
    [destruct (Z.ltb_spec (Z.max chars deg + 1 - chars) 2)|];
    match goal with |- context [Z.rem ?w 2 =? Z.rem chars 2] =>
      destruct (Z.eqb_spec (Z.rem w 2) (Z.rem chars 2)) end; simpl;
    repeat match goal with
    | H : context [Z.rem ?a 2] |- _ => rewrite (Z.rem_mod_nonneg a 2) in H by lia
    | |- context [Z.rem ?a 2] => rewrite (Z.rem_mod_nonneg a 2) by lia
    end; split_and!; Z.to_euclidean_division_equations; lia.
Qed.

End SizingProps.

(** * Instances at concrete inputs *)

Lemma adjacency_symmetry_invariant_witness :
  reachable sample_ab /\ (0 < length (nodes sample_ab))%nat /\ (1 < length (nodes sample_ab))%nat /\
  (1%nat ∈ downward (nodes sample_ab !!! 0%nat) <-> 0%nat ∈ upward (nodes sample_ab !!! 1%nat)).
Proof.
  assert (reachable sample_ab) as R.
  { apply (reach_parse context_default input_ab); [constructor|vm_compute; reflexivity]. }
  split; [exact R|]. split; [vm_compute; lia|]. split; [vm_compute; lia|].
  apply (adjacency_symmetry_invariant sample_ab R); vm_compute; lia.
Defined.

Lemma process_cycle_found_iff_cycle_witness :
  exists ctx, parse context_default input_cycle = Some ctx /\
    (process elements input_cycle = Some (Err CycleFound) <-> has_cycle (nodes ctx)).
Proof. apply (process_cycle_found_iff_cycle elements). intros s; reflexivity. Defined.

Lemma zero_vertex_input_empty_output_witness :
  process elements input_blank = Some (Ok []).
Proof.
  apply (zero_vertex_input_empty_output elements input_blank).
  right. exists context_default. split; vm_compute; reflexivity.
Defined.

Lemma resolve_crossings_enabled_iff_orders_differ_witness :
  exists l', layers (resolve_crossings sample_cross) !! 0%nat = Some l' /\
    l_nodes l' = [0%nat; 1%nat] /\ enabled (l_adapter l') = true /\ l_edges l' = [].
Proof.
  destruct (resolve_crossings_enabled_iff_orders_differ sample_cross 0
    (mkLayer [0%nat; 1%nat] [mkEdge 0 3 0 0; mkEdge 1 2 0 0] adapter_default))
    as (l' & H1 & H2 & H3 & H4 & _); [reflexivity|reflexivity|].
  exists l'. split; [exact H1|]. split; [exact H2|].
  assert (enabled (l_adapter l') = true) as He by (apply H3; vm_compute; discriminate).
  split; [exact He|]. by apply H4.
Defined.

Lemma router_grid_lanes_witness :
  (edges_between (build_graph 2 4) (index 2 4 0 1 1) (index 2 4 1 1 1) <> [] <->
   (1 <= 1 /\ 1 <= 4 - 3)%nat).
Proof.
  destruct (router_grid_lanes 2 4 0 1) as [Hh _]; [lia|lia|lia|].
  destruct (Hh ltac:(lia)) as [H _]. exact H.
Defined.

Lemma complete_layers_adjacent_witness :
  exists ctx2, complete elements leveled_skip = Some ctx2 /\ length (nodes ctx2) = 4%nat /\
    forall a b, (a < length (nodes ctx2))%nat -> b ∈ downward (nodes ctx2 !!! a) ->
      layer (nodes ctx2 !!! b) = S (layer (nodes ctx2 !!! a)).
Proof.
  destruct (complete_layers_adjacent elements (fun s => reflexivity _) input_skip sample_skip
    leveled_skip) as [(ctx2 & H1 & H2) _]; [vm_compute; reflexivity|vm_compute; reflexivity|].
  exists ctx2. split; [exact H1|]. split; [|exact H2].
  vm_compute in H1. injection H1 as <-. reflexivity.
Defined.

Lemma build_layers_rows_permutation_witness :
  exists l, layers layered_k22 !! 1%nat = Some l /\ length (l_nodes l) = 2%nat /\
    NoDup (l_nodes l) /\
    map (fun v => row (nodes layered_k22 !!! v)) (l_nodes l) = seq 0 (length (l_nodes l)).
Proof.
  assert (layers layered_k22 !! 1%nat = Some (layers layered_k22 !!! 1%nat)) as Hy
    by (vm_compute; reflexivity).
  destruct (build_layers_rows_permutation elements completed_k22 layered_k22) with
    (y := 1%nat) (l := layers layered_k22 !!! 1%nat) as (H1 & H2 & _).
  - vm_compute. reflexivity.
  - intros [|[|[|[|i]]]]; vm_compute; reflexivity.
  - vm_compute. reflexivity.
  - exact Hy.
  - exists (layers layered_k22 !!! 1%nat). split; [exact Hy|]. split; [vm_compute; reflexivity|].
    split; [exact H1|exact H2].
Defined.

Lemma construct_and_relaxation_bounded_witness :
  exists a', construct elements adapter_cross = Some a' /\ (3 <= a_height a' <= 31)%Z.
Proof.
  destruct (construct_and_relaxation_bounded elements (fun s => reflexivity _)) as [H _].
  apply H. vm_compute. lia.
Defined.

(** C5 as stated (a horizontal edge at row [y] iff [2 <= y <= h - 2]) fails
    at [h = 4]: row 1 has the horizontal edge from column 0 to column 1. *)
Lemma router_grid_lanes_claim_fails :
  ~ (forall w h x y, (3 <= h)%nat -> (S x < w)%nat -> (y < h)%nat ->
      (edges_between (build_graph w h) (index w h x y 1) (index w h (S x) y 1) <> [] <->
       (2 <= y /\ y <= h - 2)%nat)).
Proof.
  intros H. destruct (H 2 4 0 1)%nat as [H1 _]; [lia|lia|lia|].
  enough (2 <= 1 /\ 1 <= 4 - 2)%nat by lia.
  apply H1. vm_compute. discriminate.
Qed.

(** ** C2 *)

(** C2: [process] depends on the iteration order of the [HashSet]s.  With
    the ascending and the descending enumeration (each one an order in which
    a [HashSet] may list its elements), the input
    ["A -> C\nA -> D\nB -> C\nB -> D"] is rendered as two different
    diagrams, so two calls with the same input need not agree. *)
Theorem process_depends_on_hashset_order :
  (forall s, iter_ascending s ≡ₚ elements s) /\
  (forall s, iter_descending s ≡ₚ elements s) /\
  exists out1 out2,
    process iter_ascending input_k22 = Some (Ok out1) /\
    process iter_descending input_k22 = Some (Ok out2) /\ out1 <> out2.
Proof.
  split; [intros s; reflexivity|]. split; [intros s; apply reverse_Permutation|].
  exists (match process iter_ascending input_k22 with Some (Ok o) => o | _ => [] end).
  exists (match process iter_descending input_k22 with Some (Ok o) => o | _ => [] end).
  split; [vm_compute; reflexivity|]. split; [vm_compute; reflexivity|].
  vm_compute. discriminate.
Qed.

Lemma layout_geometry_if_converged_witness :
  relax_converged (imap (node_size laid_skip) (nodes laid_skip), layers laid_skip) /\
  layout elements laid_skip = Some final_skip /\ geometry_ok final_skip.
Proof.
  assert (relax_converged (imap (node_size laid_skip) (nodes laid_skip), layers laid_skip)) as Hc.
  { exists 7%nat. split; [lia|]. vm_compute. reflexivity. }
  assert (layout elements laid_skip = Some final_skip) as Hl by (vm_compute; reflexivity).
  split; [exact Hc|]. split; [exact Hl|].
  exact (layout_geometry_if_converged elements laid_skip final_skip Hc Hl).
Defined.

(** A chain of 1002 vertices ["N0 -> N1\n...\nN1000 -> N1001\n"] reaches
    [layout] as a chain, and the layout it returns after the 1000 rounds
    breaks the geometry invariant. *)
Lemma layout_ceiling_breaks_geometry :
  exists ctx ctx', pre_layout elements (chain_input 1001) = Some ctx /\ chain_ok 1001 ctx = true /\
    layout elements ctx = Some ctx' /\ ~ geometry_ok ctx'.
Proof.
  assert (match pre_layout elements (chain_input 1001) with
          | Some c => chain_ok 1001 c | None => false end = true) as H
    by (vm_compute; reflexivity).
  destruct (pre_layout elements (chain_input 1001)) as [ctx|]; [|discriminate].
  destruct (chain_layout_breaks elements 1001 ctx ltac:(lia) H) as (ctx' & H1 & H2).
  exists ctx, ctx'. split_and!; done.
Qed.
Lemma screen_new_ok (w h : nat) : screen_ok (screen_new w h).
Proof.
  split; simpl; [by rewrite length_replicate|]. apply Forall_replicate. by rewrite length_replicate.
Qed.

Lemma draw_text_clips_right_witness :
  screen_ok (screen_new 3 2) /\
  (draw_text (screen_new 3 2) 1 0 [65; 66; 67] = None <-> (2 <= 0)%nat /\ (1 < 3)%nat /\ [65; 66; 67] <> []).
Proof.
  split; [apply screen_new_ok|].
  exact (proj1 (draw_text_clips_right (screen_new 3 2) 1 0 [65; 66; 67] (screen_new_ok 3 2))).
Defined.

Lemma stringify_rows_witness :
  screen_ok (screen_new 3 2) /\ length (stringify (screen_new 3 2)) = ((3 + 1) * 2)%nat.
Proof.
  split; [apply screen_new_ok|]. exact (proj1 (stringify_rows (screen_new 3 2) (screen_new_ok 3 2))).
Defined.

Lemma asciify_removes_line_chars_witness :
  (1 = 0 \/ 1 = 1)%nat /\ dim_x (asciify 1 (screen_new 3 2)) = dim_x (screen_new 3 2).
Proof.
  assert (H : (1 = 0 \/ 1 = 1)%nat) by (right; reflexivity).
  split; [exact H|]. exact (proj1 (asciify_removes_line_chars 1 (screen_new 3 2) H)).
Defined.

Lemma draw_vertical_line_complete_chars_witness :
  screen_ok (screen_new 3 3) /\ (1 < 3)%nat /\ (2 < 3)%nat /\
  exists sc', draw_vertical_line_complete (screen_new 3 3) 0 2 1 = Some sc'.
Proof.
  assert (H1 : (1 < 3)%nat) by lia. assert (H2 : (2 < 3)%nat) by lia.
  split; [apply screen_new_ok|]. split; [exact H1|]. split; [exact H2|].
  destruct (draw_vertical_line_complete_chars (screen_new 3 3) 0 2 1 (screen_new_ok 3 3) H1 H2)
    as (sc' & E & _). exists sc'. exact E.
Defined.

Lemma append_places_witness :
  screen_ok (screen_new 1 1) /\
  exists sc', append (screen_new 2 2) (screen_new 1 1) 2 3 = Some sc' /\ dim_x sc' = 3%nat.
Proof.
  split; [apply screen_new_ok|].
  destruct (append_places (screen_new 2 2) (screen_new 1 1) 2 3 (screen_new_ok 1 1))
    as (sc' & E & _ & Hx & _). exists sc'. split; [exact E|]. rewrite Hx. reflexivity.
Defined.

Lemma render_rectangular_witness :
  exists s, render final_skip = Some s /\ exists rows, s = concat (map (fun r => r ++ [10]) rows).
Proof.
  destruct (render final_skip) as [s|] eqn:E; [|vm_compute in E; discriminate].
  exists s. split; [reflexivity|].
  destruct (render_rectangular final_skip s E) as (rows & H & _). exists rows. exact H.
Defined.

Lemma process_output_rectangular_witness :
  exists s, process elements input_ab = Some (Ok s) /\
    exists w rows, s = concat (map (fun r => r ++ [10]) rows) /\ Forall (fun r => length r = w) rows.
Proof.
  destruct (process elements input_ab) as [[s|e]|] eqn:E; [|vm_compute in E; discriminate..].
  exists s. split; [reflexivity|]. exact (process_output_rectangular elements input_ab s E).
Defined.

Lemma draw_box_frame_witness :
  screen_ok (screen_new 5 4) /\ (2 <= 3)%nat /\
  (draw_box (screen_new 5 4) 1 1 3 3 = None <-> ~ (1 + 3 <= 5 /\ 1 + 3 <= 4)%nat).
Proof.
  assert (H : (2 <= 3)%nat) by lia.
  split; [apply screen_new_ok|]. split; [exact H|].
  exact (proj1 (draw_box_frame (screen_new 5 4) 1 1 3 3 (screen_new_ok 5 4) H H)).
Defined.

Lemma draw_boxed_text_framed_witness :
  screen_ok (screen_new 5 4) /\
  (draw_boxed_text (screen_new 5 4) 0 0 [65] = None <-> ~ (0 + 1 + 2 <= 5 /\ 0 + 3 <= 4)%nat).
Proof.
  split; [apply screen_new_ok|].
  exact (proj1 (draw_boxed_text_framed (screen_new 5 4) 0 0 [65] (screen_new_ok 5 4))).
Defined.

Lemma draw_lines_fill_witness :
  screen_ok (screen_new 3 2) /\
  (draw_horizontal_line (screen_new 3 2) 0 2 1 35 = None <-> (0 <= 2 /\ ~ (2 < 3 /\ 1 < 2))%nat).
Proof.
  split; [apply screen_new_ok|].
  exact (proj1 (draw_lines_fill (screen_new 3 2) 0 2 1 35 (screen_new_ok 3 2))).
Defined.

Lemma draw_text_in_box_center_centred_witness :
  screen_ok (screen_new 6 3) /\ (2 <= 5)%nat /\ (0 + 5 <= 6)%nat /\ (0 + 1 < 3)%nat /\
  ((5 - 2) / 2 <= 5 - 2 - (5 - 2) / 2 <= (5 - 2) / 2 + 1)%nat.
Proof.
  assert (H1 : (length [65; 66] <= 5)%nat) by (simpl; lia).
  assert (H2 : (0 + 5 <= dim_x (screen_new 6 3))%nat) by (simpl; lia).
  assert (H3 : (0 + 1 < dim_y (screen_new 6 3))%nat) by (simpl; lia).
  split; [apply screen_new_ok|]. split; [exact H1|]. split; [exact H2|]. split; [exact H3|].
  exact (proj1 (draw_text_in_box_center_centred (screen_new 6 3) 0 0 5 [65; 66]
    (screen_new_ok 6 3) H1 H2 H3)).
Defined.

Lemma sample_ab_reachable : reachable sample_ab.
Proof. apply (reach_parse context_default input_ab); [constructor|vm_compute; reflexivity]. Qed.

Lemma registry_names_round_trip_witness :
  reachable sample_ab /\ length (labels sample_ab) = length (nodes sample_ab).
Proof.
  split; [exact sample_ab_reachable|].
  exact (proj1 (registry_names_round_trip sample_ab sample_ab_reachable)).
Defined.

Lemma add_connector_splices_witness :
  (0 < length (nodes sample_ab))%nat /\ (1 < length (nodes sample_ab))%nat /\
  is_connector (nodes (add_connector sample_ab 0 1) !!! length (nodes sample_ab)) = true.
Proof.
  assert (H0 : (0 < length (nodes sample_ab))%nat) by (vm_compute; lia).
  assert (H1 : (1 < length (nodes sample_ab))%nat) by (vm_compute; lia).
  split; [exact H0|]. split; [exact H1|].
  destruct (add_connector_splices sample_ab 0 1 H0 H1) as (_ & _ & _ & H & _). exact H.
Defined.

Definition adapter_one : Adapter := mkAdapter true [{[1]}] [{[1]}] 0 0 [].

Lemma construct_raster_shape_witness :
  exists a', construct elements adapter_one = Some a' /\
    inputs a' = inputs adapter_one /\ length (rendering a') = Z.to_nat (a_height a').
Proof.
  destruct (construct elements adapter_one) as [a'|] eqn:E; [|vm_compute in E; discriminate].
  exists a'. split; [reflexivity|].
  destruct (construct_raster_shape elements adapter_one a' E) as (_ & H1 & _ & _ & H2 & _).
  split; [exact H1|exact H2].
Defined.

Lemma coordinator_index_injective_witness :
  (1 < 2)%nat /\ (0 < 2)%nat /\ (1 < 3)%nat /\ (2 < 3)%nat /\ (index 2 3 1 1 0 < 2 * 3 * 1)%nat.
Proof.
  assert (Hx : (1 < 2)%nat) by lia. assert (Hx' : (0 < 2)%nat) by lia.
  assert (Hy : (1 < 3)%nat) by lia. assert (Hy' : (2 < 3)%nat) by lia.
  split_and!; [exact Hx|exact Hx'|exact Hy|exact Hy'|].
  exact (proj1 (coordinator_index_injective 2 3 1 1 0 0 2 1 Hx Hx' Hy Hy')).
Defined.

Lemma toposort_parsed_layering_witness :
  parse context_default input_ab = Some sample_ab /\
  (nodes sample_ab = [] -> toposort elements sample_ab = Err CycleFound).
Proof.
  assert (Hp : parse context_default input_ab = Some sample_ab) by (vm_compute; reflexivity).
  split; [exact Hp|].
  exact (proj1 (toposort_parsed_layering elements (fun s => reflexivity _) input_ab sample_ab Hp)).
Defined.


Lemma highest_connector_id_is_max_witness : 1 <= highest_connector_id adapter_one 1.
Proof.
  assert (Hx : (0 < 1)%nat) by lia.
  assert (Hc : 1 ∈ inputs adapter_one !!! 0%nat) by (simpl; apply elem_of_singleton; reflexivity).
  exact (proj1 (proj2 (highest_connector_id_is_max adapter_one 1)) 0%nat 1 Hx Hc).
Defined.

Lemma node_size_box_witness :
  height (node_size sample_ab 0 (nodes sample_ab !!! 0%nat)) = 3.
Proof. exact (proj1 (node_size_box sample_ab 0 (nodes sample_ab !!! 0%nat))). Defined.

Lemma add_vertex_adds_edge_witness :
  id sample_ab !! [66] = Some 1%nat /\ id sample_ab !! [65] = Some 0%nat /\
  exists ctx', add_vertex sample_ab [66] [65] = Some ctx' /\ labels ctx' = labels sample_ab.
Proof.
  assert (Ha : id sample_ab !! [66] = Some 1%nat) by (vm_compute; reflexivity).
  assert (Hb : id sample_ab !! [65] = Some 0%nat) by (vm_compute; reflexivity).
  assert (Hl1 : (1 < length (nodes sample_ab))%nat) by (vm_compute; lia).
  assert (Hl0 : (0 < length (nodes sample_ab))%nat) by (vm_compute; lia).
  split; [exact Ha|]. split; [exact Hb|].
  destruct (proj2 (add_vertex_adds_edge sample_ab [66] [65]) 1%nat 0%nat Ha Hb Hl1 Hl0)
    as (ctx' & E & H & _).
  exists ctx'. split; [exact E|exact H].
Defined.
